(** * Block cache, inode layer and frame table of the Pintos teaching kernel

    A shallow embedding of [src/filesys/inode.c] and [src/vm/frame.c].

    - C integers are [Z]; the wrap-around of [int]/[off_t] (32-bit signed)
      and of [disk_sector_t]/[size_t] (32-bit unsigned) is written out.
    - A sector buffer is a [list byte]; the array [BClist] is a list
      addressed with stdpp's lookup and insert.
    - The functions run single-threaded: [lock_acquire]/[lock_release] are
      no-ops in a sequential run and are left out.
    - A memory access outside an object ([memcpy] past a buffer, an index
      outside [BClist]) or through a pointer to freed memory is undefined
      in C; the embedding answers [None].
    - The two [while (true)] loops of the cache take fuel; the theorems
      show how much fuel is always enough.  The [while (size > 0)] loops of
      the inode layer recurse on [size], which every round makes smaller.
    - The disk driver, the free map, [malloc], [palloc] and the page
      directory are outside this code: the device is a store with a log of
      its transfers, the others appear as the answers they give and as
      logs of the calls they receive. *)

From Stdlib Require Import ZArith Lia.
From Stdlib.Strings Require Import Byte.
From stdpp Require Import base option list gmap.
From Equations Require Import Equations.

Open Scope Z_scope.

(** ** Machine integers *)

(** [int], [off_t]: 32-bit two's complement. *)
Definition INT_MIN : Z := -2147483648.
Definition INT_MAX : Z := 2147483647.

Definition wrap_int (z : Z) : Z := (z + 2147483648) mod 4294967296 - 2147483648.

(** [disk_sector_t], [size_t], [unsigned]: 32-bit unsigned. *)
Definition wrap_uint (z : Z) : Z := z mod 4294967296.

Definition in_int (z : Z) : Prop := INT_MIN <= z <= INT_MAX.

(** ** Constants *)

(** Modelled from the spec: [DISK_SECTOR_SIZE] comes from [devices/disk.h],
    which is not part of the sources at hand; the specification fixes the
    sector size at 512 bytes, which is also what makes [struct inode_disk]
    (3 words and 125 unused words) exactly one sector long. *)
Definition DISK_SECTOR_SIZE : Z := 512.

(** [#define INODE_MAGIC 0x494e4f44] *)
Definition INODE_MAGIC : Z := 1229868868.

(** [(disk_sector_t) -1]: the value [inode_init] stores in every slot and
    [byte_to_sector] returns for "no sector". *)
Definition NO_SECTOR : Z := wrap_uint (-1).

(** [static struct BC BClist[64]] *)
Definition BC_SLOTS : Z := 64.

(** ** The raw device *)

(** [disk_read]/[disk_write] of [devices/disk.c] are external: each moves
    one whole sector.  The device is a store from sector numbers to sector
    contents together with the log of the transfers it has served. *)
Inductive disk_event : Type :=
| DiskRead (sec_no : Z)
| DiskWrite (sec_no : Z) (data : list byte).

Record disk : Type := mkDisk {
  sectors : Z -> list byte;
  disk_log : list disk_event
}.

Definition disk_read (d : disk) (sec_no : Z) : disk * list byte :=
  (mkDisk (sectors d) (disk_log d ++ [DiskRead sec_no]), sectors d sec_no).

Definition disk_write (d : disk) (sec_no : Z) (buf : list byte) : disk :=
  mkDisk (fun s => if Z.eqb s sec_no then buf else sectors d s)
         (disk_log d ++ [DiskWrite sec_no buf]).

(** ** Cache slots *)

(** [struct BC]; the lock is left out. *)
Record BC : Type := mkBC {
  buffer : list byte;
  sector : Z;
  alloc : bool;
  access : bool;
  dirty : bool
}.

Definition set_access (bc : BC) (b : bool) : BC :=
  mkBC (buffer bc) (sector bc) (alloc bc) b (dirty bc).

Definition set_dirty (bc : BC) (b : bool) : BC :=
  mkBC (buffer bc) (sector bc) (alloc bc) (access bc) b.

Definition set_buffer (bc : BC) (buf : list byte) : BC :=
  mkBC buf (sector bc) (alloc bc) (access bc) (dirty bc).

(** [BClist], [next_BC_to_evict] and the device behind them. *)
Record bcache : Type := mkCache {
  BClist : list BC;
  next_BC_to_evict : Z;
  filesys_disk : disk
}.

(** [BClist[i]] for an [int] index. *)
Definition slot_at (l : list BC) (i : Z) : option BC :=
  if i <? 0 then None else l !! Z.to_nat i.

(** [memcpy (buffer, bc->buffer + start, end)]: the [end] bytes of the slot
    buffer from [start] on. *)
Definition copy_out (buf : list byte) (start end_ : Z) : option (list byte) :=
  if (0 <=? start) && (0 <=? end_) && (start + end_ <=? Z.of_nat (length buf))
  then Some (take (Z.to_nat end_) (drop (Z.to_nat start) buf))
  else None.

(** [memcpy (bc->buffer + start, buffer, end)]: the first [end] bytes of the
    caller's buffer replace the slot's bytes from [start] on. *)
Definition splice (buf : list byte) (start : Z) (src : list byte) (end_ : Z)
  : list byte :=
  take (Z.to_nat start) buf ++ take (Z.to_nat end_) src
  ++ drop (Z.to_nat (start + end_)) buf.

Definition copy_in (buf : list byte) (start : Z) (src : list byte) (end_ : Z)
  : option (list byte) :=
  if (0 <=? start) && (0 <=? end_) && (start + end_ <=? Z.of_nat (length buf))
     && (end_ <=? Z.of_nat (length src))
  then Some (splice buf start src end_)
  else None.

(** The first loop of [_disk_read] and [_disk_write]: the first slot whose
    [sector] field equals [sec_no], whatever its [alloc] flag. *)
Definition find_sector (l : list BC) (sec_no : Z) : option (nat * BC) :=
  list_find (fun bc => sector bc = sec_no) l.

(** ** [_disk_read] *)

(** The [while (true)] loop of [_disk_read]; the answer is the cache with
    the slot claimed and the index of that slot. *)
Fixpoint _disk_read_evict (fuel : nat) (c : bcache) (sec_no : Z)
  : option (bcache * nat) :=
  match fuel with
  | O => None
  | S fuel' =>
    let i := next_BC_to_evict c in
    bc ← slot_at (BClist c) i;
    let next := Z.rem (i + 1) BC_SLOTS in
    if negb (alloc bc) then
      let '(d, data) := disk_read (filesys_disk c) sec_no in
      Some (mkCache (<[Z.to_nat i := mkBC data sec_no true false false]> (BClist c))
                    next d, Z.to_nat i)
    else if negb (access bc) then
      let d0 := if dirty bc
                then disk_write (filesys_disk c) (sector bc) (buffer bc)
                else filesys_disk c in
      let '(d, data) := disk_read d0 sec_no in
      Some (mkCache (<[Z.to_nat i := mkBC data sec_no true false false]> (BClist c))
                    next d, Z.to_nat i)
    else
      _disk_read_evict fuel'
        (mkCache (<[Z.to_nat i := set_access bc false]> (BClist c))
                 next (filesys_disk c)) sec_no
  end.

(** [_disk_read (d, sec_no, buffer, start, end)]: the cache afterwards and
    the [end] bytes handed to the caller. *)
Definition _disk_read (fuel : nat) (c : bcache) (sec_no start end_ : Z)
  : option (bcache * list byte) :=
  match find_sector (BClist c) sec_no with
  | Some (i, bc) =>
    let bc' := set_access bc true in
    out ← copy_out (buffer bc') start end_;
    Some (mkCache (<[i := bc']> (BClist c)) (next_BC_to_evict c) (filesys_disk c), out)
  | None =>
    '(c', i) ← _disk_read_evict fuel c sec_no;
    bc ← BClist c' !! i;
    out ← copy_out (buffer bc) start end_;
    Some (c', out)
  end.

(** ** [_disk_write] *)

(** The [while (true)] loop of [_disk_write]: a claimed slot only gets the
    sector's bytes and [dirty]; the label [write] sets the rest. *)
Fixpoint _disk_write_evict (fuel : nat) (c : bcache) (sec_no : Z)
  : option (bcache * nat) :=
  match fuel with
  | O => None
  | S fuel' =>
    let i := next_BC_to_evict c in
    bc ← slot_at (BClist c) i;
    let next := Z.rem (i + 1) BC_SLOTS in
    if negb (alloc bc) then
      let '(d, data) := disk_read (filesys_disk c) sec_no in
      Some (mkCache (<[Z.to_nat i := set_dirty (set_buffer bc data) true]> (BClist c))
                    next d, Z.to_nat i)
    else if negb (access bc) then
      let d0 := if dirty bc
                then disk_write (filesys_disk c) (sector bc) (buffer bc)
                else filesys_disk c in
      let '(d, data) := disk_read d0 sec_no in
      Some (mkCache (<[Z.to_nat i := set_dirty (set_buffer bc data) true]> (BClist c))
                    next d, Z.to_nat i)
    else
      _disk_write_evict fuel'
        (mkCache (<[Z.to_nat i := set_access bc false]> (BClist c))
                 next (filesys_disk c)) sec_no
  end.

(** The label [write]: copy, then [sector], [alloc] and [access]. *)
Definition write_slot (c : bcache) (i : nat) (bc : BC) (sec_no : Z)
    (src : list byte) (start end_ : Z) : option bcache :=
  buf ← copy_in (buffer bc) start src end_;
  Some (mkCache (<[i := mkBC buf sec_no true true (dirty bc)]> (BClist c))
                (next_BC_to_evict c) (filesys_disk c)).

(** [_disk_write (d, sec_no, buffer, start, end)]; [src] is the caller's
    buffer. *)
Definition _disk_write (fuel : nat) (c : bcache) (sec_no : Z)
    (src : list byte) (start end_ : Z) : option bcache :=
  match find_sector (BClist c) sec_no with
  | Some (i, bc) => write_slot c i (set_dirty bc true) sec_no src start end_
  | None =>
    '(c', i) ← _disk_write_evict fuel c sec_no;
    bc ← BClist c' !! i;
    write_slot c' i bc sec_no src start end_
  end.

(** ** [inode_init], the cache part *)

(** [malloc] does not clear memory: [garbage i] is what the buffer of slot
    [i] holds when [inode_init] returns. *)
Definition init_slots (garbage : nat -> list byte) : list BC :=
  (fun i => mkBC (garbage i) NO_SECTOR false false false) <$> seq 0 (Z.to_nat BC_SLOTS).

Definition cache_init (garbage : nat -> list byte) (d : disk) : bcache :=
  mkCache (init_slots garbage) 0 d.

(** ** The claim loop, once *)

(** The two [while (true)] loops differ only in what they store in the
    claimed slot; [clock_claim load] is the loop with that store left open.
    [load_read] and [load_write] give the two instances back, see
    [_disk_read_evict_clock] and [_disk_write_evict_clock]. *)
Definition load_read (sec_no : Z) (bc : BC) (data : list byte) : BC :=
  mkBC data sec_no true false false.

Definition load_write (bc : BC) (data : list byte) : BC :=
  set_dirty (set_buffer bc data) true.

(** What the loop does to the device before it loads the new sector. *)
Definition write_back (d : disk) (bc : BC) : disk :=
  if alloc bc && dirty bc then disk_write d (sector bc) (buffer bc) else d.

(** A slot the loop stops at: unallocated, or allocated with [access]
    clear. *)
Definition claimable (bc : BC) : bool := negb (alloc bc) || negb (access bc).

Fixpoint clock_claim (load : BC -> list byte -> BC) (fuel : nat) (c : bcache)
    (sec_no : Z) : option (bcache * nat) :=
  match fuel with
  | O => None
  | S fuel' =>
    let i := next_BC_to_evict c in
    bc ← slot_at (BClist c) i;
    let next := Z.rem (i + 1) BC_SLOTS in
    if claimable bc then
      let '(d, data) := disk_read (write_back (filesys_disk c) bc) sec_no in
      Some (mkCache (<[Z.to_nat i := load bc data]> (BClist c)) next d, Z.to_nat i)
    else
      clock_claim load fuel'
        (mkCache (<[Z.to_nat i := set_access bc false]> (BClist c))
                 next (filesys_disk c)) sec_no
  end.

(** ** Sequences of cache operations *)

Inductive cache_op : Type :=
| CacheRead (sec_no start end_ : Z)
| CacheWrite (sec_no : Z) (src : list byte) (start end_ : Z).

Definition op_sector (op : cache_op) : Z :=
  match op with
  | CacheRead s _ _ => s
  | CacheWrite s _ _ _ => s
  end.

Definition run_op (fuel : nat) (c : bcache) (op : cache_op) : option bcache :=
  match op with
  | CacheRead s start end_ => fst <$> _disk_read fuel c s start end_
  | CacheWrite s src start end_ => _disk_write fuel c s src start end_
  end.

Fixpoint run_ops (fuel : nat) (c : bcache) (ops : list cache_op) : option bcache :=
  match ops with
  | [] => Some c
  | op :: rest => c' ← run_op fuel c op; run_ops fuel c' rest
  end.

(** The contract of the two calls: [start] and [end] stay inside the
    sector, and a writer's buffer holds the [end] bytes it passes. *)
Definition in_sector (start end_ : Z) : Prop :=
  0 <= start /\ 0 <= end_ /\ start + end_ <= DISK_SECTOR_SIZE.

Definition op_in_sector (op : cache_op) : Prop :=
  match op with
  | CacheRead _ start end_ => in_sector start end_
  | CacheWrite _ src start end_ =>
    in_sector start end_ /\ end_ <= Z.of_nat (length src)
  end.

(** A sector number of the device, as opposed to the marker that
    [inode_init] leaves in an unused slot. *)
Definition real_sector (s : Z) : Prop := s <> NO_SECTOR.

(** The byte most recently written at position [pos] of sector [s] by the
    operations [ops] (in program order), if any of them wrote it. *)
Fixpoint last_written (ops : list cache_op) (s pos : Z) : option byte :=
  match ops with
  | [] => None
  | op :: rest =>
    match last_written rest s pos with
    | Some b => Some b
    | None =>
      match op with
      | CacheWrite s' src start end_ =>
        if (s' =? s) && (start <=? pos) && (pos <? start + end_)
        then src !! Z.to_nat (pos - start)
        else None
      | CacheRead _ _ _ => None
      end
    end
  end.

(** ** Shape and invariants of the cache *)

(** 64 slots and the cursor inside them. *)
Definition cache_shape (c : bcache) : Prop :=
  length (BClist c) = Z.to_nat BC_SLOTS /\ 0 <= next_BC_to_evict c < BC_SLOTS.

(** The sectors held by slots whose [alloc] flag is set, in slot order. *)
Definition resident (c : bcache) : list Z :=
  sector <$> filter (fun bc => alloc bc = true) (BClist c).

(** An allocated slot is the first slot that carries its sector number. *)
Definition first_of_sector (l : list BC) : Prop :=
  forall i j bi bj, (i < j)%nat -> l !! i = Some bi -> l !! j = Some bj ->
    alloc bj = true -> sector bi <> sector bj.

(** Every buffer, and every sector of the device, is one sector long. *)
Definition sized (c : bcache) : Prop :=
  (forall i bc, BClist c !! i = Some bc ->
     Z.of_nat (length (buffer bc)) = DISK_SECTOR_SIZE) /\
  forall s, Z.of_nat (length (sectors (filesys_disk c) s)) = DISK_SECTOR_SIZE.

(** An unallocated slot still has the marker and is clean; an allocated
    clean slot mirrors the store [m]. *)
Definition slot_coherent (m : Z -> list byte) (bc : BC) : Prop :=
  (alloc bc = false -> sector bc = NO_SECTOR /\ dirty bc = false) /\
  (alloc bc = true -> dirty bc = false -> buffer bc = m (sector bc)).

Definition coherent (c : bcache) : Prop :=
  forall i bc, BClist c !! i = Some bc ->
    slot_coherent (sectors (filesys_disk c)) bc.

Record cache_inv (c : bcache) : Prop := mkInv {
  inv_shape : cache_shape c;
  inv_first : first_of_sector (BClist c);
  inv_sized : sized c;
  inv_coherent : coherent c
}.

(** The sector [s] as the cache presents it: the buffer of the slot that
    holds it, or the device's copy when no slot does. *)
Definition view (c : bcache) (s : Z) : list byte :=
  match find_sector (BClist c) s with
  | Some (_, bc) => buffer bc
  | None => sectors (filesys_disk c) s
  end.

(** The store a sequence of operations is meant to act on: a write
    replaces [end] bytes of its sector, a read changes nothing. *)
Definition ideal_op (op : cache_op) (m : Z -> list byte) : Z -> list byte :=
  match op with
  | CacheRead _ _ _ => m
  | CacheWrite s src start end_ =>
    fun s' => if s' =? s then splice (m s) start src end_ else m s'
  end.

Definition ideal_ops (ops : list cache_op) (m : Z -> list byte) : Z -> list byte :=
  foldl (fun m op => ideal_op op m) m ops.

(** Two slots that differ at most in their [access] flag. *)
Definition same_data (a b : BC) : Prop :=
  buffer a = buffer b /\ sector a = sector b /\ alloc a = alloc b /\ dirty a = dirty b.

(** What [malloc] returned and what the device holds are one sector long. *)
Definition sized_start (garbage : nat -> list byte) (d : disk) : Prop :=
  (forall i, Z.of_nat (length (garbage i)) = DISK_SECTOR_SIZE) /\
  (forall s, Z.of_nat (length (sectors d s)) = DISK_SECTOR_SIZE).

(** ** The on-disk inode *)

(** Bytes as numbers, little-endian words (the kernel runs on x86). *)
Definition byte_of_Z (z : Z) : byte :=
  default x00 (Byte.of_N (Z.to_N (z mod 256))).

Definition Z_of_byte (b : byte) : Z := Z.of_N (Byte.to_N b).

Definition encode_u32 (z : Z) : list byte :=
  [byte_of_Z z; byte_of_Z (z / 256); byte_of_Z (z / 65536); byte_of_Z (z / 16777216)].

Definition decode_u32 (l : list byte) : Z :=
  match l with
  | b0 :: b1 :: b2 :: b3 :: _ =>
    Z_of_byte b0 + 256 * Z_of_byte b1 + 65536 * Z_of_byte b2 + 16777216 * Z_of_byte b3
  | _ => 0
  end.

(** [struct inode_disk]: [start], [length], [magic] and 125 unused words,
    kept as the 500 bytes they occupy. *)
Module inode_disk.
Record t : Type := mk {
  start : Z;
  length : Z;
  magic : Z;
  unused : list byte
}.
End inode_disk.

(** The sector image of a [struct inode_disk] and back. *)
Definition encode_inode_disk (d : inode_disk.t) : list byte :=
  encode_u32 (inode_disk.start d) ++ encode_u32 (inode_disk.length d)
  ++ encode_u32 (inode_disk.magic d) ++ inode_disk.unused d.

Definition decode_inode_disk (b : list byte) : inode_disk.t :=
  inode_disk.mk (decode_u32 b) (wrap_int (decode_u32 (drop 4 b)))
                (decode_u32 (drop 8 b)) (drop 12 b).

(** Modelled from the spec: the macro [DIV_ROUND_UP] of [<round.h>] is not
    part of the sources at hand; the specification describes its use here as
    [ceil(lengthBytes / sectorSize)], the quotient rounded up. *)
Definition DIV_ROUND_UP (x step : Z) : Z := (x + step - 1) / step.

(** [bytes_to_sectors]: the result is a [size_t]. *)
Definition bytes_to_sectors (size : Z) : Z :=
  wrap_uint (DIV_ROUND_UP size DISK_SECTOR_SIZE).

(** ** In-memory inodes *)

(** [struct inode] without the list element. *)
Module inode.
Record t : Type := mk {
  sector : Z;
  open_cnt : Z;
  removed : bool;
  deny_write_cnt : Z;
  data : inode_disk.t
}.
End inode.

Definition inode_length (ino : inode.t) : Z := inode_disk.length (inode.data ino).

(** [byte_to_sector]: [pos / DISK_SECTOR_SIZE] is an [int] division, the
    sum is taken in [disk_sector_t]. *)
Definition byte_to_sector (ino : inode.t) (pos : Z) : Z :=
  if pos <? inode_disk.length (inode.data ino)
  then wrap_uint (inode_disk.start (inode.data ino) + Z.quot pos DISK_SECTOR_SIZE)
  else NO_SECTOR.

(** The body of the two transfer loops up to [chunk_size]. *)
Definition chunk_size (ino : inode.t) (size offset : Z) : Z :=
  let sector_ofs := Z.rem offset DISK_SECTOR_SIZE in
  let inode_left := wrap_int (inode_length ino - offset) in
  let sector_left := DISK_SECTOR_SIZE - sector_ofs in
  let min_left := if inode_left <? sector_left then inode_left else sector_left in
  if size <? min_left then size else min_left.

(** The [while (size > 0)] loop of [inode_read_at].  [out] is what has been
    stored in the caller's buffer so far.  [size -= chunk_size] cannot
    overflow, since [0 < chunk_size <= size] there. *)
Equations? inode_read_loop (fuel : nat) (ino : inode.t) (c : bcache)
    (size offset bytes_read : Z) (out : list byte)
  : option (bcache * list byte * Z) by wf (Z.to_nat size) lt :=
inode_read_loop fuel ino c size offset bytes_read out with Z_gt_dec size 0 := {
  | right _ => Some (c, out, bytes_read)
  | left Hsize with Z_le_dec (chunk_size ino size offset) 0 := {
    | left _ => Some (c, out, bytes_read)
    | right Hchunk
      with _disk_read fuel c (byte_to_sector ino offset)
                      (Z.rem offset DISK_SECTOR_SIZE) (chunk_size ino size offset) := {
      | None => None
      | Some (c', bytes) =>
        inode_read_loop fuel ino c'
          (size - chunk_size ino size offset)
          (wrap_int (offset + chunk_size ino size offset))
          (wrap_int (bytes_read + chunk_size ino size offset))
          (out ++ bytes) } } }.
Proof. lia. Qed.

(** [inode_read_at]: the cache afterwards, the bytes stored in the caller's
    buffer and the value returned. *)
Definition inode_read_at (fuel : nat) (c : bcache) (ino : inode.t) (size offset : Z)
  : option (bcache * list byte * Z) :=
  inode_read_loop fuel ino c size offset 0 [].

(** The [while (size > 0)] loop of [inode_write_at]; [src] is the caller's
    buffer, read from [bytes_written] on. *)
Equations? inode_write_loop (fuel : nat) (ino : inode.t) (src : list byte) (c : bcache)
    (size offset bytes_written : Z)
  : option (bcache * Z) by wf (Z.to_nat size) lt :=
inode_write_loop fuel ino src c size offset bytes_written with Z_gt_dec size 0 := {
  | right _ => Some (c, bytes_written)
  | left Hsize with Z_le_dec (chunk_size ino size offset) 0 := {
    | left _ => Some (c, bytes_written)
    | right Hchunk
      with _disk_write fuel c (byte_to_sector ino offset)
                       (drop (Z.to_nat bytes_written) src)
                       (Z.rem offset DISK_SECTOR_SIZE) (chunk_size ino size offset) := {
      | None => None
      | Some c' =>
        inode_write_loop fuel ino src c'
          (size - chunk_size ino size offset)
          (wrap_int (offset + chunk_size ino size offset))
          (wrap_int (bytes_written + chunk_size ino size offset)) } } }.
Proof. lia. Qed.

Definition inode_write_at (fuel : nat) (c : bcache) (ino : inode.t) (src : list byte)
    (size offset : Z) : option (bcache * Z) :=
  if negb (inode.deny_write_cnt ino =? 0) then Some (c, 0)
  else inode_write_loop fuel ino src c size offset 0.

(** The arguments of a transfer as the callers pass them: a byte count and
    a file position that are not negative, and a subtraction
    [inode_length - offset] that stays inside [off_t]. *)
Definition transfer_args (ino : inode.t) (size offset : Z) : Prop :=
  0 <= size <= INT_MAX /\ 0 <= offset <= INT_MAX /\
  in_int (inode_length ino) /\ in_int (inode_length ino - offset).

(** ** [inode_create] *)

(** [static char zeros[DISK_SECTOR_SIZE]] *)
Definition zeros : list byte := replicate (Z.to_nat DISK_SECTOR_SIZE) x00.

(** [for (i = 0; i < sectors; i++) _disk_write (..., start + i, zeros, ...)],
    with [n] rounds left. *)
Fixpoint zero_sectors (fuel : nat) (c : bcache) (start i : Z) (n : nat)
  : option bcache :=
  match n with
  | O => Some c
  | S n' =>
    c' ← _disk_write fuel c (wrap_uint (start + i)) zeros 0 DISK_SECTOR_SIZE;
    zero_sectors fuel c' start (i + 1) n'
  end.

(** The descriptor [inode_create] builds in the buffer [calloc] cleared. *)
Definition new_inode_disk (start length : Z) : inode_disk.t :=
  inode_disk.mk start length INODE_MAGIC (replicate 500 x00).

(** [inode_create].  [calloc_ok] tells whether [calloc] found memory;
    [free_map_allocate cnt] is the external allocator's answer to a request
    for [cnt] consecutive sectors: the first sector, or [None].  A negative
    [length] fails the first assertion. *)
Definition inode_create (fuel : nat) (c : bcache) (calloc_ok : bool)
    (free_map_allocate : Z -> option Z) (sector length : Z)
  : option (bcache * bool) :=
  if length <? 0 then None
  else if negb calloc_ok then Some (c, false)
  else
    let sectors := bytes_to_sectors length in
    match free_map_allocate sectors with
    | None => Some (c, false)
    | Some start =>
      c1 ← _disk_write fuel c sector (encode_inode_disk (new_inode_disk start length))
                       0 DISK_SECTOR_SIZE;
      c2 ← (if 0 <? sectors
            then zero_sectors fuel c1 start 0 (Z.to_nat sectors)
            else Some c1);
      Some (c2, true)
    end.

(** The same calls as a list of cache operations, in the order of the
    source: the descriptor, then the data sectors from the first on. *)
Definition zero_ops (start : Z) (n : nat) : list cache_op :=
  (fun i => CacheWrite (wrap_uint (start + Z.of_nat i)) zeros 0 DISK_SECTOR_SIZE)
    <$> seq 0 n.

Definition descriptor_op (sector start length : Z) : cache_op :=
  CacheWrite sector (encode_inode_disk (new_inode_disk start length)) 0 DISK_SECTOR_SIZE.

Definition inode_create_ops (sector start length : Z) : list cache_op :=
  descriptor_op sector start length
  :: zero_ops start (Z.to_nat (bytes_to_sectors length)).

(** The order the specification gives: the data sectors are cleared, then
    the descriptor is written. *)
Definition inode_create_ops_spec (sector start length : Z) : list cache_op :=
  zero_ops start (Z.to_nat (bytes_to_sectors length))
  ++ [descriptor_op sector start length].

(** The data sectors of a new inode, first to last. *)
Definition data_sectors (start length : Z) : list Z :=
  (fun i => wrap_uint (start + Z.of_nat i)) <$> seq 0 (Z.to_nat (bytes_to_sectors length)).

(** ** The open-inode list *)

(** What the external allocator and [free] get to see. *)
Inductive fs_event : Type :=
| FreeMapRelease (sector cnt : Z)
| MemFree (p : Z).

(** [open_inodes] holds the addresses of the open inodes, front first;
    [inodes] is the memory they live in. *)
Record filesys : Type := mkFs {
  open_inodes : list Z;
  inodes : gmap Z inode.t;
  cache : bcache;
  fs_log : list fs_event
}.

(** [inode_init] *)
Definition inode_init (garbage : nat -> list byte) (d : disk) : filesys :=
  mkFs [] ∅ (cache_init garbage d) [].

(** The search loop of [inode_open]; reading through a pointer that is not
    live is undefined. *)
Fixpoint find_open (h : gmap Z inode.t) (l : list Z) (sector : Z)
  : option (option Z) :=
  match l with
  | [] => Some None
  | p :: l' =>
    ino ← h !! p;
    if inode.sector ino =? sector then Some (Some p) else find_open h l' sector
  end.

Definition set_open_cnt (ino : inode.t) (n : Z) : inode.t :=
  inode.mk (inode.sector ino) n (inode.removed ino) (inode.deny_write_cnt ino)
           (inode.data ino).

Definition set_removed (ino : inode.t) (b : bool) : inode.t :=
  inode.mk (inode.sector ino) (inode.open_cnt ino) b (inode.deny_write_cnt ino)
           (inode.data ino).

Definition set_deny_write_cnt (ino : inode.t) (n : Z) : inode.t :=
  inode.mk (inode.sector ino) (inode.open_cnt ino) (inode.removed ino) n
           (inode.data ino).

(** [inode_reopen]; a handle is [None] for the null pointer. *)
Definition inode_reopen (fs : filesys) (inode : option Z)
  : option (filesys * option Z) :=
  match inode with
  | None => Some (fs, None)
  | Some p =>
    ino ← inodes fs !! p;
    Some (mkFs (open_inodes fs)
               (<[p := set_open_cnt ino (wrap_int (inode.open_cnt ino + 1))]> (inodes fs))
               (cache fs) (fs_log fs), Some p)
  end.

(** [inode_open]; [malloc_result] is what [malloc] answers if it is asked. *)
Definition inode_open (fuel : nat) (fs : filesys) (malloc_result : option Z)
    (sector : Z) : option (filesys * option Z) :=
  found ← find_open (inodes fs) (open_inodes fs) sector;
  match found with
  | Some p => inode_reopen fs (Some p)
  | None =>
    match malloc_result with
    | None => Some (fs, None)
    | Some p =>
      '(c', bytes) ← _disk_read fuel (cache fs) sector 0 DISK_SECTOR_SIZE;
      Some (mkFs (p :: open_inodes fs)
                 (<[p := inode.mk sector 1 false 0 (decode_inode_disk bytes)]> (inodes fs))
                 c' (fs_log fs), Some p)
    end
  end.

(** [inode_get_inumber] *)
Definition inode_get_inumber (fs : filesys) (p : Z) : option Z :=
  inode.sector <$> inodes fs !! p.

(** [list_remove (&inode->elem)] *)
Fixpoint list_remove_elem (p : Z) (l : list Z) : list Z :=
  match l with
  | [] => []
  | q :: l' => if q =? p then l' else q :: list_remove_elem p l'
  end.

(** [inode_close] *)
Definition inode_close (fs : filesys) (inode : option Z) : option filesys :=
  match inode with
  | None => Some fs
  | Some p =>
    ino ← inodes fs !! p;
    let cnt := wrap_int (inode.open_cnt ino - 1) in
    if cnt =? 0 then
      let released :=
        if inode.removed ino
        then [FreeMapRelease (inode.sector ino) 1;
              FreeMapRelease (inode_disk.start (inode.data ino))
                             (bytes_to_sectors (inode_disk.length (inode.data ino)))]
        else [] in
      Some (mkFs (list_remove_elem p (open_inodes fs)) (delete p (inodes fs))
                 (cache fs) (fs_log fs ++ released ++ [MemFree p]))
    else
      Some (mkFs (open_inodes fs) (<[p := set_open_cnt ino cnt]> (inodes fs))
                 (cache fs) (fs_log fs))
  end.

(** [inode_remove] *)
Definition inode_remove (fs : filesys) (p : Z) : option filesys :=
  ino ← inodes fs !! p;
  Some (mkFs (open_inodes fs) (<[p := set_removed ino true]> (inodes fs))
             (cache fs) (fs_log fs)).

(** [inode_deny_write]; a failed assertion stops the kernel. *)
Definition inode_deny_write (fs : filesys) (p : Z) : option filesys :=
  ino ← inodes fs !! p;
  let n := wrap_int (inode.deny_write_cnt ino + 1) in
  if n <=? inode.open_cnt ino
  then Some (mkFs (open_inodes fs) (<[p := set_deny_write_cnt ino n]> (inodes fs))
                  (cache fs) (fs_log fs))
  else None.

(** [inode_allow_write] *)
Definition inode_allow_write (fs : filesys) (p : Z) : option filesys :=
  ino ← inodes fs !! p;
  if (0 <? inode.deny_write_cnt ino) && (inode.deny_write_cnt ino <=? inode.open_cnt ino)
  then Some (mkFs (open_inodes fs)
                  (<[p := set_deny_write_cnt ino (wrap_int (inode.deny_write_cnt ino - 1))]>
                     (inodes fs))
                  (cache fs) (fs_log fs))
  else None.

(** An inode is linked into the list at most once, every registered
    address is live, and no two registered inodes share a descriptor
    sector. *)
Definition registry_ok (fs : filesys) : Prop :=
  NoDup (open_inodes fs) /\
  (forall p, p ∈ open_inodes fs -> is_Some (inodes fs !! p)) /\
  (forall p q ip iq, p ∈ open_inodes fs -> q ∈ open_inodes fs ->
     inodes fs !! p = Some ip -> inodes fs !! q = Some iq ->
     inode.sector ip = inode.sector iq -> p = q).

(** ** The frame table ([src/vm/frame.c]) *)

(** Pages and page-table entries are addresses.  [palloc], the page
    directory and the page-table walk are external: every call of them
    appears below as the answer it gave. *)
Inductive palloc_event : Type :=
| PallocGet (kpage : Z)
| PallocFree (kpage : Z).

(** [struct frame_entry] as [frame_table] holds it: the page the entry was
    made for and whether its memory has been given to [free] since.  The
    [pte_list] of a live entry is kept in [kpage_hash]. *)
Module frame_entry.
Record t : Type := mk {
  kpage : Z;
  freed : bool
}.
End frame_entry.

(** [kpage_hash] maps a kernel page to the [pte_list] of its
    [struct frame_entry]; [frame_table] holds the frame entries in the order
    [list_push_back] linked them.  [frame_free_page] frees an entry without
    [list_remove], so the entry stays linked and dangles. *)
Record frames : Type := mkFrames {
  frame_table : list frame_entry.t;
  kpage_hash : gmap Z (list Z);
  palloc_log : list palloc_event
}.

(** [frame_init] *)
Definition frame_init : frames := mkFrames [] ∅ [].

(** What the collaborators answer during one [frame_get_page]. *)
Record get_page_env : Type := mkEnv {
  palloc_get_page : option Z;
  pagedir_get_page : option Z;
  pagedir_set_page : bool;
  lookup_page : Z
}.

(** [install_page] *)
Definition install_page (env : get_page_env) : bool :=
  match pagedir_get_page env with
  | None => pagedir_set_page env
  | Some _ => false
  end.

(** [list_push_back (&frame_table, &f_e->elem)]: the call stores the new
    element in the [next] field of the element that was last.  When that
    element is an entry [free] has had, the store goes through a dangling
    pointer, which C gives no meaning: [None]. *)
Definition frame_table_push (l : list frame_entry.t) (e : frame_entry.t)
  : option (list frame_entry.t) :=
  match last l with
  | Some tail => if frame_entry.freed tail then None else Some (l ++ [e])
  | None => Some (l ++ [e])
  end.

(** [frame_get_page]: the table afterwards and the page returned, [None]
    inside for the null pointer; [None] outside when the call is undefined.
    The three calls of [malloc] are taken to succeed: the source uses their
    results unchecked. *)
Definition frame_get_page (st : frames) (env : get_page_env)
  : option (frames * option Z) :=
  match palloc_get_page env with
  | None => Some (st, None)
  | Some kpage =>
    let log := palloc_log st ++ [PallocGet kpage] in
    if negb (install_page env) then
      Some (mkFrames (frame_table st) (kpage_hash st) (log ++ [PallocFree kpage]), None)
    else
      let pte := lookup_page env in
      match kpage_hash st !! kpage with
      | None =>
        table ← frame_table_push (frame_table st) (frame_entry.mk kpage false);
        Some (mkFrames table (<[kpage := [pte]]> (kpage_hash st)) log, Some kpage)
      | Some pte_list =>
        Some (mkFrames (frame_table st) (<[kpage := pte_list ++ [pte]]> (kpage_hash st)) log,
              Some kpage)
      end
  end.

(** The loop of [frame_free_page]: unlink the first entry equal to [pte]. *)
Fixpoint remove_pte (pte : Z) (l : list Z) : list Z :=
  match l with
  | [] => []
  | p :: l' => if p =? pte then l' else p :: remove_pte pte l'
  end.

(** [free (f_e)] for the entry the index has for [page]: the entry stays
    where it is in the list, its memory is gone. *)
Definition free_entry (page : Z) (l : list frame_entry.t) : list frame_entry.t :=
  (fun e => if (frame_entry.kpage e =? page) && negb (frame_entry.freed e)
            then frame_entry.mk page true else e) <$> l.

(** [frame_free_page (pte)]; [page] is what [pte_get_page] gives for the
    entry [pte] points to. *)
Definition frame_free_page (st : frames) (pte page : Z) : frames :=
  match kpage_hash st !! page with
  | None => st
  | Some pte_list =>
    match remove_pte pte pte_list with
    | [] => mkFrames (free_entry page (frame_table st)) (delete page (kpage_hash st))
                     (palloc_log st ++ [PallocFree page])
    | l' => mkFrames (frame_table st) (<[page := l']> (kpage_hash st)) (palloc_log st)
    end
  end.

(** The reference set of the frame of [kpage], empty when there is none. *)
Definition pte_list_of (st : frames) (kpage : Z) : list Z :=
  default [] (kpage_hash st !! kpage).

(** Runs of frame-table calls. *)
Inductive frame_op : Type :=
| GetPage (env : get_page_env)
| FreePage (pte page : Z).

(** One call of a run; a call that C gives no meaning is not made. *)
Definition run_frame_op (st : frames) (op : frame_op) : frames :=
  match op with
  | GetPage env =>
    match frame_get_page st env with
    | Some (st', _) => st'
    | None => st
    end
  | FreePage pte page => frame_free_page st pte page
  end.

Definition run_frame_ops (st : frames) (ops : list frame_op) : frames :=
  foldl run_frame_op st ops.

(** No frame of the index has an empty reference set. *)
Definition frames_inv (st : frames) : Prop :=
  forall kpage l, kpage_hash st !! kpage = Some l -> l <> [].

(** ** Sample data *)

(** A start of the kernel: [malloc] handed out buffers full of [0xaa], and
    sector [s] of the device holds the byte [s mod 256] throughout. *)
Definition sample_garbage : nat -> list byte :=
  fun _ => replicate 512 xaa.

Definition sample_disk : disk :=
  mkDisk (fun s => replicate 512 (byte_of_Z s)) [].

(** One byte, [i + 100], written at position 3 of each sector [i] from 0 to
    64: one sector more than the cache has slots. *)
Definition sample_ops : list cache_op :=
  (fun i => CacheWrite (Z.of_nat i) [byte_of_Z (Z.of_nat i + 100)] 3 1) <$> seq 0 65.

(** An open inode: descriptor in sector 10, 1000 bytes of data from sector
    20 on; the same with writes denied; one that is marked removed. *)
Definition sample_inode : inode.t :=
  inode.mk 10 1 false 0 (inode_disk.mk 20 1000 INODE_MAGIC (replicate 500 x00)).

Definition sample_inode_denied : inode.t := set_deny_write_cnt sample_inode 1.

Definition sample_inode_removed : inode.t := set_removed sample_inode true.

(** An open inode of length 0, with sector 20 given as its start. *)
Definition sample_empty_inode : inode.t :=
  inode.mk 10 1 false 0 (inode_disk.mk 20 0 INODE_MAGIC (replicate 500 x00)).

(** A file system with the removed sample inode open once, at address 4096. *)
Definition sample_fs : filesys :=
  mkFs [4096] {[4096 := sample_inode_removed]} (cache_init sample_garbage sample_disk) [].

(** A frame table after two pages were mapped, the first of them twice. *)
Definition sample_frame_ops : list frame_op :=
  [GetPage (mkEnv (Some 8192) None true 11);
   GetPage (mkEnv (Some 12288) None true 12);
   GetPage (mkEnv (Some 8192) None true 13)].

(** ** More about the code *)

(** How many slots the cursor has to pass before it stands on slot [i]. *)
Definition rounds_to (c : bcache) (i : nat) : Z :=
  (Z.of_nat i - next_BC_to_evict c) mod BC_SLOTS.

(** A full cache: slot [i] holds sector [i], recently used and clean; the
    cursor stands on slot 5. *)
Definition sample_full_cache : bcache :=
  mkCache ((fun i => mkBC (sectors sample_disk (Z.of_nat i)) (Z.of_nat i) true true false)
             <$> seq 0 64) 5 sample_disk.

(** The full cache after slot 5 was written to and then passed by the
    cursor once: the cursor's slot is allocated, dirty and has [access]
    clear. *)
Definition sample_dirty_cache : bcache :=
  mkCache (<[5%nat := mkBC (replicate 512 x2a) 5 true false true]> (BClist sample_full_cache))
          5 sample_disk.

(** The full cache with [access] clear in slot 7 only: from the cursor on,
    slots 5 and 6 are passed and slot 7 is the first that can be claimed. *)
Definition sample_aged_cache : bcache :=
  mkCache (<[7%nat := mkBC (sectors sample_disk 7) 7 true false false]>
             (BClist sample_full_cache))
          5 sample_disk.

(** Byte [pos] of the file as the cache presents it. *)
Definition file_byte (c : bcache) (ino : inode.t) (pos : Z) : option byte :=
  view c (byte_to_sector ino pos) !! Z.to_nat (pos mod DISK_SECTOR_SIZE).

(** Every byte of the file lies in a sector of the device. *)
Definition file_sectors_real (ino : inode.t) : Prop :=
  forall pos, 0 <= pos < inode_length ino -> real_sector (byte_to_sector ino pos).

(** ** Calls on the open-inode list *)

(** The calls the rest of the kernel makes on open inodes.  [inode] is the
    pointer passed, [malloc_result] the answer [malloc] has ready. *)
Inductive fs_call : Type :=
| CallOpen (malloc_result : option Z) (sector : Z)
| CallReopen (inode : option Z)
| CallClose (inode : option Z)
| CallRemove (inode : Z)
| CallDenyWrite (inode : Z)
| CallAllowWrite (inode : Z).

Definition run_fs_call (fuel : nat) (fs : filesys) (call : fs_call) : option filesys :=
  match call with
  | CallOpen malloc_result sector => fst <$> inode_open fuel fs malloc_result sector
  | CallReopen inode => fst <$> inode_reopen fs inode
  | CallClose inode => inode_close fs inode
  | CallRemove inode => inode_remove fs inode
  | CallDenyWrite inode => inode_deny_write fs inode
  | CallAllowWrite inode => inode_allow_write fs inode
  end.

(** [malloc] answers with memory that is not in use. *)
Definition malloc_fresh (fs : filesys) (call : fs_call) : Prop :=
  match call with
  | CallOpen (Some p) _ => inodes fs !! p = None
  | _ => True
  end.

(** The states the open-inode list goes through after [inode_init], as long
    as no call runs into undefined behaviour or a failed assertion. *)
Inductive fs_reachable (fuel : nat) (garbage : nat -> list byte) (d : disk)
  : filesys -> Prop :=
| reach_init : fs_reachable fuel garbage d (inode_init garbage d)
| reach_call (fs : filesys) (call : fs_call) (fs' : filesys) :
    fs_reachable fuel garbage d fs -> malloc_fresh fs call ->
    run_fs_call fuel fs call = Some fs' -> fs_reachable fuel garbage d fs'.

(** The list is well formed and holds every live inode. *)
Definition registry_inv (fs : filesys) : Prop :=
  registry_ok fs /\ forall p, is_Some (inodes fs !! p) -> p ∈ open_inodes fs.

(** [inode_close (inode)], [k] times over. *)
Fixpoint close_times (k : nat) (fs : filesys) (p : Z) : option filesys :=
  match k with
  | O => Some fs
  | S k' => fs' ← inode_close fs (Some p); close_times k' fs' p
  end.

(** ** Counting what [palloc] saw *)

#[global] Instance palloc_event_eq_dec : EqDecision palloc_event.
Proof. solve_decision. Defined.

Definition gets (kpage : Z) (log : list palloc_event) : nat :=
  length (filter (fun e => e = PallocGet kpage) log).

Definition frees (kpage : Z) (log : list palloc_event) : nat :=
  length (filter (fun e => e = PallocFree kpage) log).

(** 1 if the index has a frame for [kpage], 0 if not. *)
Definition held (st : frames) (kpage : Z) : nat :=
  match kpage_hash st !! kpage with
  | Some _ => 1
  | None => 0
  end.

(** ** The cache while it fills *)

(** The first [k] slots hold [k] different sectors of [L], the others are
    as [inode_init] left them, the cursor stands on slot [k], and the device
    has served no write since it was [d]. *)
Definition filling (L : list Z) (d : disk) (k : nat) (c : bcache) : Prop :=
  length (BClist c) = Z.to_nat BC_SLOTS /\ (k <= Z.to_nat BC_SLOTS)%nat /\
  next_BC_to_evict c = Z.of_nat k mod BC_SLOTS /\
  (forall i bc, BClist c !! i = Some bc ->
     Z.of_nat (length (buffer bc)) = DISK_SECTOR_SIZE /\
     if decide (i < k)%nat
     then alloc bc = true /\ sector bc ∈ L /\ real_sector (sector bc)
     else alloc bc = false /\ sector bc = NO_SECTOR) /\
  (forall i j bi bj, BClist c !! i = Some bi -> BClist c !! j = Some bj ->
     (i < k)%nat -> (j < k)%nat -> sector bi = sector bj -> i = j) /\
  sectors (filesys_disk c) = sectors d /\
  (forall s, Z.of_nat (length (sectors d s)) = DISK_SECTOR_SIZE) /\
  (forall s buf, DiskWrite s buf ∈ disk_log (filesys_disk c) ->
     DiskWrite s buf ∈ disk_log d).

(** ** The keys of the frame index *)

(** [struct kpage_f_e]: the page and the address of its frame entry. *)
Module kpage_f_e.
Record t : Type := mk {
  kpage : Z;
  frame_entry : Z
}.
End kpage_f_e.

(** [page_hash]; [hash_bytes] of [<hash.h>] is external and stands here as
    any function of the bytes it is given, which are those of the page
    address. *)
Definition page_hash (hash_bytes : Z -> Z) (p : kpage_f_e.t) : Z :=
  hash_bytes (kpage_f_e.kpage p).

(** [page_less] *)
Definition page_less (a b : kpage_f_e.t) : bool :=
  kpage_f_e.kpage a <? kpage_f_e.kpage b.

(** * Theorems *)

(** ** Arithmetic of the cursor *)

Lemma cursor_next (i : Z) :
  0 <= i < BC_SLOTS ->
  0 <= Z.rem (i + 1) BC_SLOTS < BC_SLOTS /\
  Z.rem (i + 1) BC_SLOTS = (i + 1) mod BC_SLOTS.
Proof.
  unfold BC_SLOTS. intros Hi.
  rewrite Z.rem_mod_nonneg by lia.
  split; [apply Z.mod_pos_bound; lia | reflexivity].
Qed.

Lemma slot_at_Some (l : list BC) (i : Z) (bc : BC) :
  slot_at l i = Some bc <-> 0 <= i /\ l !! Z.to_nat i = Some bc.
Proof.
  unfold slot_at. destruct (Z.ltb_spec i 0); split; intros H'.
  - discriminate.
  - lia.
  - split; [lia | assumption].
  - apply H'.
Qed.

Lemma slot_at_shape (c : bcache) :
  cache_shape c -> exists bc, slot_at (BClist c) (next_BC_to_evict c) = Some bc.
Proof.
  intros [Hlen Hcur].
  destruct (lookup_lt_is_Some_2 (BClist c) (Z.to_nat (next_BC_to_evict c))) as [bc Hbc].
  { rewrite Hlen. unfold BC_SLOTS in *. lia. }
  exists bc. apply slot_at_Some. split; [lia | assumption].
Qed.

(** ** The source loops are the shared loop *)

Lemma _disk_read_evict_clock (fuel : nat) (c : bcache) (sec_no : Z) :
  _disk_read_evict fuel c sec_no = clock_claim (load_read sec_no) fuel c sec_no.
Proof.
  revert c. induction fuel as [|fuel IH]; intros c; [reflexivity|].
  simpl. destruct (slot_at (BClist c) (next_BC_to_evict c)) as [bc|]; [|reflexivity].
  simpl. unfold claimable, write_back, load_read.
  destruct (alloc bc), (access bc), (dirty bc); simpl; try reflexivity; apply IH.
Qed.

Lemma _disk_write_evict_clock (fuel : nat) (c : bcache) (sec_no : Z) :
  _disk_write_evict fuel c sec_no = clock_claim load_write fuel c sec_no.
Proof.
  revert c. induction fuel as [|fuel IH]; intros c; [reflexivity|].
  simpl. destruct (slot_at (BClist c) (next_BC_to_evict c)) as [bc|]; [|reflexivity].
  simpl. unfold claimable, write_back, load_write.
  destruct (alloc bc), (access bc), (dirty bc); simpl; try reflexivity; apply IH.
Qed.

(** ** The claim loop stops *)

Lemma clock_claim_mono (load : BC -> list byte -> BC) (fuel fuel' : nat)
    (c : bcache) (sec_no : Z) (r : bcache * nat) :
  clock_claim load fuel c sec_no = Some r -> (fuel <= fuel')%nat ->
  clock_claim load fuel' c sec_no = Some r.
Proof.
  revert fuel' c. induction fuel as [|fuel IH]; intros fuel' c H Hle; [discriminate|].
  destruct fuel' as [|fuel']; [lia|].
  simpl in *. destruct (slot_at (BClist c) (next_BC_to_evict c)) as [bc|]; [|discriminate].
  simpl in *. destruct (claimable bc); [assumption|].
  apply IH; [assumption | lia].
Qed.

Lemma cache_shape_skip (c : bcache) (bc : BC) :
  cache_shape c ->
  cache_shape (mkCache (<[Z.to_nat (next_BC_to_evict c) := bc]> (BClist c))
                       (Z.rem (next_BC_to_evict c + 1) BC_SLOTS) (filesys_disk c)).
Proof.
  intros [Hlen Hcur]. split; simpl.
  - rewrite length_insert. assumption.
  - apply cursor_next, Hcur.
Qed.

(** A claimable slot [u] stops the loop after as many rounds as the cursor
    needs to reach it. *)
Lemma clock_claim_reach (load : BC -> list byte -> BC) (fuel : nat) (c : bcache)
    (sec_no u : Z) (bu : BC) :
  cache_shape c -> 0 <= u < BC_SLOTS ->
  BClist c !! Z.to_nat u = Some bu -> claimable bu = true ->
  (u - next_BC_to_evict c) mod BC_SLOTS < Z.of_nat fuel ->
  is_Some (clock_claim load fuel c sec_no).
Proof.
  revert c. induction fuel as [|fuel IH]; intros c Hshape Hu Hbu Hcl Hdist.
  { pose proof (Z.mod_pos_bound (u - next_BC_to_evict c) BC_SLOTS). unfold BC_SLOTS in *. lia. }
  destruct (slot_at_shape c Hshape) as [bc Hbc].
  simpl. rewrite Hbc. simpl.
  destruct (claimable bc) eqn:Hc; [eexists; reflexivity|].
  apply slot_at_Some in Hbc as [Hi Hbc].
  assert (u <> next_BC_to_evict c) as Hne.
  { intros ->. rewrite Hbc in Hbu. injection Hbu as ->. congruence. }
  destruct Hshape as [Hlen Hcur].
  apply IH; simpl.
  - apply cache_shape_skip. split; assumption.
  - assumption.
  - rewrite list_lookup_insert_ne by lia. assumption.
  - assumption.
  - destruct (cursor_next _ Hcur) as [_ ->].
    unfold BC_SLOTS in *.
    set (i := next_BC_to_evict c) in *.
    clearbody i.
    assert ((u - (i + 1) mod 64) mod 64 = (u - i) mod 64 - 1) as ->; [|lia].
    destruct (Z.eq_dec i 63) as [->|Hi63].
    + change ((63 + 1) mod 64) with 0. rewrite Z.sub_0_r.
      rewrite (Z.mod_small u) by lia.
      replace (u - 63) with (u + 1 + (-1) * 64) by lia.
      rewrite Z.mod_add by lia. rewrite Z.mod_small by lia. lia.
    + rewrite (Z.mod_small (i + 1)) by lia.
      destruct (Z.lt_ge_cases u (i + 1)).
      * replace (u - (i + 1)) with (u - i - 1 + 64 + (-1) * 64) by lia.
        replace (u - i) with (u - i + 64 + (-1) * 64) by lia.
        rewrite !Z.mod_add by lia. rewrite !Z.mod_small by lia. lia.
      * rewrite !Z.mod_small by lia. lia.
Qed.

(** 65 rounds are enough from any cache of the right shape: 64 to clear
    every [access] flag, one more to take the slot the scan began at. *)
Lemma clock_claim_total (load : BC -> list byte -> BC) (fuel : nat) (c : bcache)
    (sec_no : Z) :
  cache_shape c -> (65 <= fuel)%nat -> is_Some (clock_claim load fuel c sec_no).
Proof.
  intros Hshape Hfuel.
  destruct (slot_at_shape c Hshape) as [bc Hbc].
  pose proof Hbc as Hbc'. apply slot_at_Some in Hbc' as [Hi Hbc'].
  destruct Hshape as [Hlen Hcur].
  destruct (claimable bc) eqn:Hc.
  - apply (clock_claim_reach load fuel c sec_no (next_BC_to_evict c) bc); try done.
    rewrite Z.sub_diag. change (0 mod BC_SLOTS) with 0. lia.
  - destruct fuel as [|fuel]; [lia|].
    simpl. rewrite Hbc. simpl. rewrite Hc.
    apply (clock_claim_reach load fuel _ sec_no (next_BC_to_evict c) (set_access bc false)).
    + apply cache_shape_skip. split; assumption.
    + assumption.
    + simpl. apply list_lookup_insert_eq. rewrite Hlen. unfold BC_SLOTS in *. lia.
    + unfold claimable. simpl. apply orb_true_r.
    + simpl. pose proof (Z.mod_pos_bound (next_BC_to_evict c - Z.rem (next_BC_to_evict c + 1) BC_SLOTS) BC_SLOTS).
      unfold BC_SLOTS in *. lia.
Qed.

(** With an unallocated slot somewhere, one revolution is enough. *)
Lemma clock_claim_free_slot (load : BC -> list byte -> BC) (fuel : nat) (c : bcache)
    (sec_no : Z) (i : nat) (bc : BC) :
  cache_shape c -> BClist c !! i = Some bc -> alloc bc = false ->
  (64 <= fuel)%nat -> is_Some (clock_claim load fuel c sec_no).
Proof.
  intros Hshape Hbc Ha Hfuel.
  pose proof (lookup_lt_Some _ _ _ Hbc) as Hlt.
  pose proof Hshape as [Hlen Hcur]. rewrite Hlen in Hlt.
  apply (clock_claim_reach load fuel c sec_no (Z.of_nat i) bc); try assumption.
  - unfold BC_SLOTS in *. lia.
  - rewrite Nat2Z.id. assumption.
  - unfold claimable. rewrite Ha. reflexivity.
  - pose proof (Z.mod_pos_bound (Z.of_nat i - next_BC_to_evict c) BC_SLOTS).
    unfold BC_SLOTS in *. lia.
Qed.

(** ** What the claim loop leaves behind *)

Lemma same_data_refl (a : BC) : same_data a a.
Proof. repeat split. Qed.

Lemma same_data_trans (a b c : BC) : same_data a b -> same_data b c -> same_data a c.
Proof. unfold same_data. intros (?&?&?&?) (?&?&?&?). repeat split; congruence. Qed.

Lemma same_data_set_access (a : BC) (b : bool) : same_data a (set_access a b).
Proof. repeat split. Qed.

Lemma same_data_list_refl (l : list BC) : Forall2 same_data l l.
Proof. induction l; constructor; auto using same_data_refl. Qed.

Lemma same_data_list_insert (l : list BC) (i : nat) (a b : BC) :
  l !! i = Some a -> same_data a b -> Forall2 same_data l (<[i:=b]> l).
Proof.
  intros Ha Hab. rewrite <- (list_insert_id l i a Ha) at 1.
  apply Forall2_insert; [apply same_data_list_refl | assumption].
Qed.

(** The loop clears [access] flags on its way (the list [l1]), stops at a
    claimable slot [v] of index [k], writes [v] back if it is allocated and
    dirty, reads the new sector after that and stores it with [load]. *)
Lemma clock_claim_spec (load : BC -> list byte -> BC) (fuel : nat) (c c' : bcache)
    (sec_no : Z) (k : nat) :
  cache_shape c ->
  clock_claim load fuel c sec_no = Some (c', k) ->
  exists l1 v,
    Forall2 same_data (BClist c) l1 /\
    l1 !! k = Some v /\ claimable v = true /\
    BClist c' = <[k := load v (sectors (write_back (filesys_disk c) v) sec_no)]> l1 /\
    filesys_disk c' = (disk_read (write_back (filesys_disk c) v) sec_no).1 /\
    cache_shape c'.
Proof.
  revert c. induction fuel as [|fuel IH]; intros c Hshape H; [discriminate|].
  destruct (slot_at_shape c Hshape) as [bc Hbc].
  simpl in H. rewrite Hbc in H. simpl in H.
  apply slot_at_Some in Hbc as [Hi Hbc].
  destruct (claimable bc) eqn:Hc.
  - unfold disk_read in H. injection H as <- <-.
    exists (BClist c), bc. simpl.
    split; [apply same_data_list_refl|].
    do 4 (split; [done|]).
    split; simpl; [rewrite length_insert; apply Hshape | apply cursor_next, Hshape].
  - apply IH in H as (l1 & v & Hl1 & Hv & Hcv & Hl' & Hd' & Hs'); [|by apply cache_shape_skip].
    simpl in *.
    exists l1, v. split; [|done].
    eapply Forall2_trans; [apply same_data_trans | | exact Hl1].
    eapply same_data_list_insert; [exact Hbc | apply same_data_set_access].
Qed.

(** ** Lists of slots that agree up to [access] *)

Section SameData.
Context (l l1 : list BC) (Hl : Forall2 same_data l l1).

Lemma same_data_lookup (i : nat) (b1 : BC) :
  l1 !! i = Some b1 -> exists b, l !! i = Some b /\ same_data b b1.
Proof. intros H. apply (Forall2_lookup_r _ _ _ _ _ Hl H). Qed.

Lemma same_data_length : length l1 = length l.
Proof. symmetry. eapply Forall2_length, Hl. Qed.

Lemma same_data_first : first_of_sector l -> first_of_sector l1.
Proof.
  intros Hf i j bi bj Hij Hi Hj Ha.
  apply same_data_lookup in Hi as (ai & Hai & (_ & Hsi & _)).
  apply same_data_lookup in Hj as (aj & Haj & (_ & Hsj & Haa & _)).
  rewrite <- Hsi, <- Hsj. eapply Hf; eauto; congruence.
Qed.

Lemma same_data_find_None (s : Z) :
  find_sector l s = None -> find_sector l1 s = None.
Proof.
  unfold find_sector. rewrite !list_find_None, !Forall_lookup.
  intros H i b1 Hb1. apply same_data_lookup in Hb1 as (b & Hb & (_ & Hs & _)).
  rewrite <- Hs. eapply H, Hb.
Qed.

Lemma same_data_find_Some (s : Z) (i : nat) (b : BC) :
  find_sector l s = Some (i, b) ->
  exists b1, find_sector l1 s = Some (i, b1) /\ same_data b b1.
Proof.
  unfold find_sector. rewrite list_find_Some. intros (Hb & Hs & Hlt).
  destruct (Forall2_lookup_l _ _ _ _ _ Hl Hb) as (b1 & Hb1 & Hbb).
  exists b1. split; [|assumption].
  apply list_find_Some. split; [assumption|]. split.
  - destruct Hbb as (_ & <- & _). assumption.
  - intros j y Hy Hj. apply same_data_lookup in Hy as (y0 & Hy0 & (_ & Hs0 & _)).
    rewrite <- Hs0. eapply Hlt; eauto.
Qed.
End SameData.

(** ** Replacing one slot *)

Lemma find_sector_insert_other (l : list BC) (k : nat) (x : BC) (s : Z) :
  (forall y, l !! k = Some y -> sector y <> s) -> sector x <> s ->
  find_sector (<[k:=x]> l) s = find_sector l s.
Proof.
  unfold find_sector. revert k. induction l as [|a l IH]; intros k Hy Hx; [reflexivity|].
  destruct k as [|k]; simpl.
  - specialize (Hy a eq_refl).
    rewrite !decide_False by assumption. reflexivity.
  - destruct (decide (sector a = s)); [reflexivity|].
    rewrite IH; [reflexivity | | assumption].
    intros y Hl. apply Hy. exact Hl.
Qed.

Lemma find_sector_insert_first (l : list BC) (k : nat) (x : BC) (s : Z) :
  (k < length l)%nat -> sector x = s ->
  (forall j y, l !! j = Some y -> (j < k)%nat -> sector y <> s) ->
  find_sector (<[k:=x]> l) s = Some (k, x).
Proof.
  intros Hk Hx Hlt. apply list_find_Some. split; [|split].
  - apply list_lookup_insert_eq, Hk.
  - assumption.
  - intros j y Hy Hj. rewrite list_lookup_insert_ne in Hy by lia. eauto.
Qed.

Lemma find_sector_None (l : list BC) (s : Z) :
  find_sector l s = None <-> forall i b, l !! i = Some b -> sector b <> s.
Proof. unfold find_sector. rewrite list_find_None, Forall_lookup. reflexivity. Qed.

Lemma find_sector_Some (l : list BC) (s : Z) (i : nat) (b : BC) :
  find_sector l s = Some (i, b) <->
  l !! i = Some b /\ sector b = s /\
  forall j y, l !! j = Some y -> (j < i)%nat -> sector y <> s.
Proof. unfold find_sector. rewrite list_find_Some. reflexivity. Qed.

(** Storing a slot for sector [s] at [k] keeps allocated slots first of
    their sector, provided no slot before [k] and no allocated slot after
    [k] carries [s]. *)
Lemma first_of_sector_insert (l : list BC) (k : nat) (x : BC) :
  first_of_sector l ->
  (forall j y, l !! j = Some y -> (j < k)%nat -> sector y <> sector x) ->
  (forall j y, l !! j = Some y -> (k < j)%nat -> alloc y = true -> sector y <> sector x) ->
  first_of_sector (<[k:=x]> l).
Proof.
  intros Hf Hbefore Hafter i j bi bj Hij Hi Hj Ha.
  destruct (decide (j = k)) as [->|Hjk].
  - rewrite list_lookup_insert_ne in Hi by lia.
    apply list_lookup_insert_Some in Hj as [(_ & <- & _)|(? & _)]; [|lia].
    eapply Hbefore; eauto.
  - rewrite list_lookup_insert_ne in Hj by lia.
    destruct (decide (i = k)) as [->|Hik].
    + apply list_lookup_insert_Some in Hi as [(_ & <- & _)|(? & _)]; [|lia].
      intros Heq. eapply Hafter; eauto.
    + rewrite list_lookup_insert_ne in Hi by lia. eapply Hf; eauto.
Qed.

(** ** Copying in and out of a buffer *)

Lemma copy_out_Some (buf : list byte) (start end_ : Z) :
  in_sector start end_ -> Z.of_nat (length buf) = DISK_SECTOR_SIZE ->
  copy_out buf start end_ = Some (take (Z.to_nat end_) (drop (Z.to_nat start) buf)).
Proof.
  intros (H1 & H2 & H3) Hlen. unfold copy_out.
  rewrite Hlen.
  destruct (Z.leb_spec 0 start); [|lia].
  destruct (Z.leb_spec 0 end_); [|lia].
  destruct (Z.leb_spec (start + end_) DISK_SECTOR_SIZE); [|lia].
  reflexivity.
Qed.

Lemma copy_in_Some (buf src : list byte) (start end_ : Z) :
  in_sector start end_ -> end_ <= Z.of_nat (length src) ->
  Z.of_nat (length buf) = DISK_SECTOR_SIZE ->
  copy_in buf start src end_ = Some (splice buf start src end_).
Proof.
  intros (H1 & H2 & H3) Hsrc Hlen. unfold copy_in.
  rewrite Hlen.
  destruct (Z.leb_spec 0 start); [|lia].
  destruct (Z.leb_spec 0 end_); [|lia].
  destruct (Z.leb_spec (start + end_) DISK_SECTOR_SIZE); [|lia].
  destruct (Z.leb_spec end_ (Z.of_nat (length src))); [|lia].
  reflexivity.
Qed.

Lemma splice_length (buf src : list byte) (start end_ : Z) :
  0 <= start -> 0 <= end_ -> start + end_ <= Z.of_nat (length buf) ->
  end_ <= Z.of_nat (length src) ->
  length (splice buf start src end_) = length buf.
Proof.
  intros. unfold splice.
  rewrite !length_app, !length_take, length_drop. lia.
Qed.

(** Byte [pos] of a spliced buffer. *)
Lemma splice_lookup (buf src : list byte) (start end_ : Z) (pos : nat) :
  0 <= start -> 0 <= end_ -> start + end_ <= Z.of_nat (length buf) ->
  end_ <= Z.of_nat (length src) ->
  splice buf start src end_ !! pos =
  if (start <=? Z.of_nat pos) && (Z.of_nat pos <? start + end_)
  then src !! Z.to_nat (Z.of_nat pos - start)
  else buf !! pos.
Proof.
  intros H1 H2 H3 H4. unfold splice.
  destruct (Z.leb_spec start (Z.of_nat pos)); simpl.
  - rewrite lookup_app_r by (rewrite length_take; lia).
    rewrite length_take.
    replace (pos - Z.to_nat start `min` length buf)%nat
      with (Z.to_nat (Z.of_nat pos - start)) by lia.
    destruct (Z.ltb_spec (Z.of_nat pos) (start + end_)).
    + rewrite lookup_app_l by (rewrite length_take; lia).
      apply lookup_take_lt. lia.
    + rewrite lookup_app_r by (rewrite length_take; lia).
      rewrite length_take, lookup_drop. f_equal. lia.
  - rewrite lookup_app_l by (rewrite length_take; lia).
    apply lookup_take_lt. lia.
Qed.

Lemma copy_out_lookup (buf : list byte) (start end_ : Z) (k : nat) :
  (k < Z.to_nat end_)%nat ->
  take (Z.to_nat end_) (drop (Z.to_nat start) buf) !! k = buf !! (Z.to_nat start + k)%nat.
Proof. intros Hk. rewrite lookup_take_lt by assumption. apply lookup_drop. Qed.

(** ** One slot replaced, one victim written back *)

(** Both calls end by storing a slot [x] for the requested sector at some
    index [k]; on a miss the former tenant [v] may have been written back
    ([wb]).  The section shows that the invariants survive and how the
    sectors seen through the cache change. *)
Section Replace.
Context (l : list BC) (cur cur' : Z) (d d' : disk) (k : nat) (v x : BC) (wb : bool).
Hypothesis Hinv : cache_inv (mkCache l cur d).
Hypothesis Hv : l !! k = Some v.
Hypothesis Hwb : wb = true -> alloc v = true.
Hypothesis Hd' :
  sectors d' = sectors (if wb then disk_write d (sector v) (buffer v) else d).
Hypothesis Hcur' : 0 <= cur' < BC_SLOTS.
Hypothesis Hbefore :
  forall j y, l !! j = Some y -> (j < k)%nat -> sector y <> sector x.
Hypothesis Hafter :
  forall j y, l !! j = Some y -> (k < j)%nat -> alloc y = true ->
    sector y <> sector x.
Hypothesis Hx : slot_coherent (sectors d') x.
Hypothesis Hxlen : Z.of_nat (length (buffer x)) = DISK_SECTOR_SIZE.

Lemma replace_distinct (i : nat) (y : BC) :
  l !! i = Some y -> i <> k -> alloc v = true -> alloc y = true ->
  sector y <> sector v.
Proof.
  intros Hy Hik Hav Hay.
  pose proof (inv_first _ Hinv) as Hf. simpl in Hf.
  destruct (Nat.lt_ge_cases i k).
  - eapply Hf; eauto.
  - intros Heq. symmetry in Heq. revert Heq. eapply (Hf k i); eauto. lia.
Qed.

Lemma replace_disk_other (s : Z) :
  s <> sector v -> sectors d' s = sectors d s.
Proof.
  intros Hs. rewrite Hd'. destruct wb; [|reflexivity].
  simpl. destruct (Z.eqb_spec s (sector v)); [contradiction | reflexivity].
Qed.

Lemma replace_inv : cache_inv (mkCache (<[k:=x]> l) cur' d').
Proof.
  pose proof Hinv as [[Hlen Hcur] Hf [Hbuf Hdisk] Hco].
  unfold coherent in Hco. simpl in Hlen, Hcur, Hf, Hbuf, Hdisk, Hco.
  split; simpl.
  - split; simpl; [rewrite length_insert; assumption | assumption].
  - apply first_of_sector_insert; assumption.
  - split; simpl.
    + intros i bc Hbc.
      apply list_lookup_insert_Some in Hbc as [(_ & <- & _)|(_ & Hbc)]; eauto.
    + intros s. rewrite Hd'. destruct wb; [|apply Hdisk].
      simpl. destruct (s =? sector v); [eapply Hbuf; eauto | apply Hdisk].
  - unfold coherent. simpl. intros i bc Hbc.
    apply list_lookup_insert_Some in Hbc as [(_ & <- & _)|(Hik & Hbc)]; [assumption|].
    destruct (Hco i bc Hbc) as [HU HK]. split; [assumption|].
    intros Ha Hd. rewrite (HK Ha Hd). symmetry.
    destruct (decide (alloc v = true)) as [Hav|Hav].
    + apply replace_disk_other. apply (replace_distinct i); auto.
    + rewrite Hd'. destruct wb; [tauto | reflexivity].
Qed.

Lemma replace_view_same :
  view (mkCache (<[k:=x]> l) cur' d') (sector x) = buffer x.
Proof.
  unfold view. simpl.
  rewrite (find_sector_insert_first l k x (sector x)); try done.
  eapply lookup_lt_Some, Hv.
Qed.

Lemma replace_view_other (s' : Z) :
  real_sector s' -> s' <> sector x ->
  (sector v <> sector x -> alloc v = true -> dirty v = true -> wb = true) ->
  view (mkCache (<[k:=x]> l) cur' d') s' = view (mkCache l cur d) s'.
Proof.
  intros Hreal Hsx Hdirty.
  pose proof Hinv as [[Hlen Hcur] Hf [Hbuf Hdisk] Hco].
  unfold coherent in Hco. simpl in Hlen, Hcur, Hf, Hbuf, Hdisk, Hco.
  unfold view. simpl.
  destruct (decide (sector v = s')) as [Hvs|Hvs].
  - destruct (Hco k v Hv) as [HU HK].
    assert (alloc v = true) as Hav.
    { destruct (alloc v); [reflexivity|].
      destruct (HU eq_refl) as [Hno _]. unfold real_sector in Hreal. congruence. }
    assert (find_sector l s' = Some (k, v)) as ->.
    { apply find_sector_Some. repeat split; [assumption..|].
      intros j y Hy Hj. rewrite <- Hvs. eapply Hf; eauto. }
    assert (find_sector (<[k:=x]> l) s' = None) as ->.
    { apply find_sector_None. intros i b Hb.
      apply list_lookup_insert_Some in Hb as [(_ & <- & _)|(Hik & Hb)]; [congruence|].
      destruct (alloc b) eqn:Hab.
      - rewrite <- Hvs. apply (replace_distinct i); auto.
      - destruct (Hco i b Hb) as [HUb _]. destruct (HUb Hab) as [-> _].
        unfold real_sector in Hreal. congruence. }
    rewrite Hd'. destruct (dirty v) eqn:Hdv.
    + rewrite Hdirty by congruence. simpl.
      rewrite <- Hvs, Z.eqb_refl. reflexivity.
    + destruct wb; simpl.
      * rewrite <- Hvs, Z.eqb_refl. reflexivity.
      * rewrite <- Hvs. symmetry. apply HK; done.
  - rewrite find_sector_insert_other; [| |congruence].
    + destruct (find_sector l s') as [[? ?]|]; [reflexivity|].
      apply replace_disk_other. congruence.
    + intros y Hy. rewrite Hv in Hy. injection Hy as <-. assumption.
Qed.
End Replace.

(** ** Clearing [access] flags changes nothing that matters *)

Lemma view_same_data (l l1 : list BC) (cur cur' : Z) (d : disk) (s : Z) :
  Forall2 same_data l l1 ->
  view (mkCache l1 cur' d) s = view (mkCache l cur d) s.
Proof.
  intros Hl. unfold view. simpl.
  destruct (find_sector l s) as [[i b]|] eqn:E.
  - destruct (same_data_find_Some l l1 Hl s i b E) as (b1 & -> & (Hb & _)).
    symmetry. exact Hb.
  - rewrite (same_data_find_None l l1 Hl s E). reflexivity.
Qed.

Lemma cache_inv_same_data (l l1 : list BC) (cur cur' : Z) (d : disk) :
  Forall2 same_data l l1 -> 0 <= cur' < BC_SLOTS ->
  cache_inv (mkCache l cur d) -> cache_inv (mkCache l1 cur' d).
Proof.
  intros Hl Hcur' [[Hlen Hcur] Hf [Hbuf Hdisk] Hco].
  unfold coherent in Hco. simpl in *.
  split; simpl.
  - split; simpl; [|assumption]. rewrite (same_data_length l l1 Hl). assumption.
  - apply (same_data_first l l1 Hl Hf).
  - split; simpl; [|assumption].
    intros i b1 Hb1. destruct (same_data_lookup l l1 Hl i b1 Hb1) as (b & Hb & (Hbb & _)).
    rewrite <- Hbb. eapply Hbuf, Hb.
  - unfold coherent. simpl. intros i b1 Hb1.
    destruct (same_data_lookup l l1 Hl i b1 Hb1) as (b & Hb & (Hbb & Hs & Ha & Hd)).
    destruct (Hco i b Hb) as [HU HK].
    split; rewrite <- ?Hbb, <- ?Hs, <- ?Ha, <- ?Hd; assumption.
Qed.

(** ** A hit *)

Lemma hit_replace (c : bcache) (s : Z) (i : nat) (bc x : BC) :
  cache_inv c -> find_sector (BClist c) s = Some (i, bc) ->
  sector x = s -> slot_coherent (sectors (filesys_disk c)) x ->
  Z.of_nat (length (buffer x)) = DISK_SECTOR_SIZE ->
  let c' := mkCache (<[i:=x]> (BClist c)) (next_BC_to_evict c) (filesys_disk c) in
  cache_inv c' /\ view c' s = buffer x /\
  forall s', real_sector s' -> s' <> s -> view c' s' = view c s'.
Proof.
  intros Hinv Hfind Hsx Hx Hxlen. destruct c as [l cur d]. simpl in *.
  apply find_sector_Some in Hfind as (Hbc & Hs & Hlt).
  assert (forall j y, l !! j = Some y -> (j < i)%nat -> sector y <> sector x) as Hbefore.
  { intros j y Hy Hj. rewrite Hsx. eauto. }
  assert (forall j y, l !! j = Some y -> (i < j)%nat -> alloc y = true ->
            sector y <> sector x) as Hafter.
  { intros j y Hy Hj Ha Heq. revert Heq. rewrite Hsx, <- Hs.
    intros Heq. symmetry in Heq. revert Heq.
    eapply (inv_first _ Hinv i j); eauto. }
  split; [|split].
  - apply (replace_inv l cur cur d d i bc x false); try done.
    apply Hinv.
  - rewrite <- Hsx.
    apply (replace_view_same l cur d i bc x); done.
  - intros s' Hreal Hne.
    apply (replace_view_other l cur cur d d i bc x false); try done.
    + congruence.
    + intros Hvx. congruence.
Qed.

(** ** A miss *)

Lemma miss_replace (c : bcache) (s : Z) (l1 : list BC) (k : nat) (v x : BC)
    (cur' : Z) (d' : disk) :
  cache_inv c -> find_sector (BClist c) s = None ->
  Forall2 same_data (BClist c) l1 -> l1 !! k = Some v ->
  sectors d' = sectors (write_back (filesys_disk c) v) ->
  0 <= cur' < BC_SLOTS ->
  sector x = s -> slot_coherent (sectors d') x ->
  Z.of_nat (length (buffer x)) = DISK_SECTOR_SIZE ->
  let c' := mkCache (<[k:=x]> l1) cur' d' in
  cache_inv c' /\ view c' s = buffer x /\
  (forall s', real_sector s' -> s' <> s -> view c' s' = view c s') /\
  sectors d' s = view c s.
Proof.
  intros Hinv Hfind Hl1 Hv Hd' Hcur' Hsx Hx Hxlen. destruct c as [l cur d]. simpl in *.
  pose proof (cache_inv_same_data l l1 cur cur d Hl1 (proj2 (inv_shape _ Hinv)) Hinv) as Hinv1.
  pose proof (same_data_find_None l l1 Hl1 s Hfind) as Hfind1.
  rewrite find_sector_None in Hfind1.
  assert (forall j y, l1 !! j = Some y -> (j < k)%nat -> sector y <> sector x) as Hbefore.
  { intros j y Hy _. rewrite Hsx. eauto. }
  assert (forall j y, l1 !! j = Some y -> (k < j)%nat -> alloc y = true ->
            sector y <> sector x) as Hafter.
  { intros j y Hy _ _. rewrite Hsx. eauto. }
  assert (alloc v && dirty v = true -> alloc v = true) as Hwb.
  { intros H. apply andb_true_iff in H. tauto. }
  unfold write_back in Hd'.
  split; [|split; [|split]].
  - apply (replace_inv l1 cur cur' d d' k v x (alloc v && dirty v)); done.
  - rewrite <- Hsx. apply (replace_view_same l1 cur' d' k v x); done.
  - intros s' Hreal Hne.
    rewrite (replace_view_other l1 cur cur' d d' k v x (alloc v && dirty v)); try done.
    + apply view_same_data, Hl1.
    + congruence.
    + intros _ -> ->. reflexivity.
  - unfold view. simpl. rewrite Hfind.
    apply (replace_disk_other d d' v (alloc v && dirty v) Hwb Hd').
    intros ->. eapply Hfind1; eauto.
Qed.

(** ** The two calls on a cache that satisfies the invariants *)

Lemma view_miss (c : bcache) (s : Z) :
  find_sector (BClist c) s = None -> view c s = sectors (filesys_disk c) s.
Proof. intros H. unfold view. rewrite H. reflexivity. Qed.

Lemma view_hit (c : bcache) (s : Z) (i : nat) (bc : BC) :
  find_sector (BClist c) s = Some (i, bc) -> view c s = buffer bc.
Proof. intros H. unfold view. rewrite H. reflexivity. Qed.

Lemma view_sized (c : bcache) (s : Z) :
  cache_inv c -> Z.of_nat (length (view c s)) = DISK_SECTOR_SIZE.
Proof.
  intros Hinv. destruct (inv_sized _ Hinv) as [Hbuf Hdisk].
  unfold view. destruct (find_sector (BClist c) s) as [[i bc]|] eqn:E.
  - apply find_sector_Some in E as (Hbc & _). eapply Hbuf, Hbc.
  - apply Hdisk.
Qed.

Lemma _disk_read_sound (fuel : nat) (c : bcache) (s start end_ : Z) :
  cache_inv c -> in_sector start end_ -> (65 <= fuel)%nat ->
  exists c',
    _disk_read fuel c s start end_ =
      Some (c', take (Z.to_nat end_) (drop (Z.to_nat start) (view c s))) /\
    cache_inv c' /\
    forall s', real_sector s' -> view c' s' = view c s'.
Proof.
  intros Hinv Hrange Hfuel.
  pose proof (view_sized c s Hinv) as Hvlen.
  unfold _disk_read. destruct (find_sector (BClist c) s) as [[i bc]|] eqn:E.
  - rewrite (view_hit c s i bc E) in *.
    simpl. rewrite (copy_out_Some _ _ _ Hrange Hvlen). simpl.
    eexists. split; [reflexivity|].
    pose proof E as E'. apply find_sector_Some in E' as (Hbc & Hs & _).
    destruct (hit_replace c s i bc (set_access bc true) Hinv E Hs
                (inv_coherent _ Hinv i bc Hbc) Hvlen) as (Hinv' & Hsame & Hother).
    split; [assumption|].
    intros s' Hreal. destruct (decide (s' = s)) as [->|Hne].
    + rewrite Hsame, (view_hit c s i bc E). reflexivity.
    + apply Hother; assumption.
  - rewrite _disk_read_evict_clock.
    destruct (clock_claim_total (load_read s) fuel c s (inv_shape _ Hinv) Hfuel)
      as [[c1 k] Hc1].
    rewrite Hc1. simpl.
    destruct (clock_claim_spec _ _ _ _ _ _ (inv_shape _ Hinv) Hc1)
      as (l1 & v & Hl1 & Hv & _ & HB & HD & Hshape').
    destruct c1 as [l' cur' d']. simpl in *. subst l' d'.
    rewrite list_lookup_insert_eq by (eapply lookup_lt_Some, Hv). simpl.
    assert (sectors (write_back (filesys_disk c) v) s = view c s) as Hdata.
    { rewrite (view_miss c s E). unfold write_back.
      destruct (alloc v && dirty v); [|reflexivity].
      simpl. destruct (Z.eqb_spec s (sector v)) as [->|]; [|reflexivity].
      destruct (same_data_lookup _ _ Hl1 k v Hv) as (v0 & Hv0 & (_ & Hs0 & _)).
      exfalso. eapply (proj1 (find_sector_None _ _) E); eauto. }
    rewrite Hdata.
    destruct (miss_replace c s l1 k v (load_read s v (view c s)) cur'
                (disk_read (write_back (filesys_disk c) v) s).1 Hinv E Hl1 Hv
                eq_refl (proj2 Hshape') eq_refl)
      as (Hinv' & Hsame & Hother & _).
    { split; [discriminate|]. intros _ _. simpl. symmetry. exact Hdata. }
    { exact Hvlen. }
    simpl in Hinv', Hsame, Hother.
    simpl. rewrite (copy_out_Some _ _ _ Hrange Hvlen). simpl.
    eexists. split; [reflexivity|]. split; [assumption|].
    intros s' Hreal. destruct (decide (s' = s)) as [->|Hne].
    + rewrite Hsame. reflexivity.
    + apply Hother; assumption.
Qed.

Lemma _disk_write_sound (fuel : nat) (c : bcache) (s : Z) (src : list byte)
    (start end_ : Z) :
  cache_inv c -> in_sector start end_ -> end_ <= Z.of_nat (length src) ->
  (65 <= fuel)%nat ->
  exists c',
    _disk_write fuel c s src start end_ = Some c' /\
    cache_inv c' /\
    view c' s = splice (view c s) start src end_ /\
    forall s', real_sector s' -> s' <> s -> view c' s' = view c s'.
Proof.
  intros Hinv Hrange Hsrc Hfuel.
  pose proof (view_sized c s Hinv) as Hvlen.
  assert (Z.of_nat (length (splice (view c s) start src end_)) = DISK_SECTOR_SIZE) as Hslen.
  { rewrite splice_length; [assumption | unfold in_sector in Hrange; lia..]. }
  unfold _disk_write. destruct (find_sector (BClist c) s) as [[i bc]|] eqn:E.
  - rewrite (view_hit c s i bc E) in *.
    unfold write_slot. simpl.
    rewrite (copy_in_Some _ _ _ _ Hrange Hsrc Hvlen). simpl.
    eexists. split; [reflexivity|].
    apply (hit_replace c s i bc
             (mkBC (splice (buffer bc) start src end_) s true true true) Hinv E);
      [reflexivity | split; discriminate | exact Hslen].
  - rewrite _disk_write_evict_clock.
    destruct (clock_claim_total load_write fuel c s (inv_shape _ Hinv) Hfuel)
      as [[c1 k] Hc1].
    rewrite Hc1. simpl.
    destruct (clock_claim_spec _ _ _ _ _ _ (inv_shape _ Hinv) Hc1)
      as (l1 & v & Hl1 & Hv & _ & HB & HD & Hshape').
    destruct c1 as [l' cur' d']. simpl in *. subst l' d'.
    rewrite list_lookup_insert_eq by (eapply lookup_lt_Some, Hv). simpl.
    unfold write_slot. simpl.
    destruct (miss_replace c s l1 k v
                (mkBC (splice (view c s) start src end_) s true true true) cur'
                (disk_read (write_back (filesys_disk c) v) s).1 Hinv E Hl1 Hv
                eq_refl (proj2 Hshape') eq_refl)
      as (Hinv' & Hsame & Hother & Hdata).
    { split; discriminate. }
    { exact Hslen. }
    simpl in Hinv', Hsame, Hother, Hdata. rewrite Hdata.
    rewrite (copy_in_Some _ _ _ _ Hrange Hsrc Hvlen). simpl.
    rewrite list_insert_insert_eq.
    eexists. split; [reflexivity|]. split; [assumption|]. split; assumption.
Qed.

(** ** The cache after [inode_init] *)

Lemma init_slots_lookup (garbage : nat -> list byte) (i : nat) (bc : BC) :
  init_slots garbage !! i = Some bc ->
  bc = mkBC (garbage i) NO_SECTOR false false false.
Proof.
  unfold init_slots. rewrite list_lookup_fmap. intros H.
  apply fmap_Some in H as (j & Hj & ->).
  apply lookup_seq in Hj as [-> _]. reflexivity.
Qed.

Lemma cache_init_shape (garbage : nat -> list byte) (d : disk) :
  cache_shape (cache_init garbage d).
Proof.
  split.
  - unfold cache_init, init_slots. cbn [BClist].
    rewrite length_fmap, length_seq. reflexivity.
  - simpl. unfold BC_SLOTS. lia.
Qed.

Lemma cache_init_first (garbage : nat -> list byte) :
  first_of_sector (init_slots garbage).
Proof.
  intros i j bi bj _ _ Hj Ha.
  apply init_slots_lookup in Hj. subst bj. discriminate.
Qed.

Lemma cache_init_inv (garbage : nat -> list byte) (d : disk) :
  sized_start garbage d -> cache_inv (cache_init garbage d).
Proof.
  intros [Hg Hd]. split.
  - apply cache_init_shape.
  - apply cache_init_first.
  - split; simpl; [|assumption].
    intros i bc Hbc. apply init_slots_lookup in Hbc. subst bc. apply Hg.
  - intros i bc Hbc. simpl in Hbc. apply init_slots_lookup in Hbc. subst bc.
    split; [intros _; split; reflexivity | discriminate].
Qed.

(** ** Runs of operations *)

Lemma run_op_sound (fuel : nat) (c : bcache) (op : cache_op) :
  cache_inv c -> op_in_sector op -> (65 <= fuel)%nat ->
  exists c',
    run_op fuel c op = Some c' /\ cache_inv c' /\
    forall s, real_sector s -> view c' s = ideal_op op (view c) s.
Proof.
  intros Hinv Hop Hfuel. destruct op as [s start end_|s src start end_]; simpl in *.
  - destruct (_disk_read_sound fuel c s start end_ Hinv Hop Hfuel) as (c' & -> & Hinv' & Hview).
    exists c'. auto.
  - destruct Hop as [Hrange Hsrc].
    destruct (_disk_write_sound fuel c s src start end_ Hinv Hrange Hsrc Hfuel)
      as (c' & -> & Hinv' & Hsame & Hother).
    exists c'. split; [reflexivity|]. split; [assumption|].
    intros s' Hreal. destruct (Z.eqb_spec s' s) as [->|Hne]; auto.
Qed.

Lemma ideal_op_ext (op : cache_op) (m1 m2 : Z -> list byte) (s : Z) :
  m1 s = m2 s -> m1 (op_sector op) = m2 (op_sector op) ->
  ideal_op op m1 s = ideal_op op m2 s.
Proof.
  destruct op as [s0 start end_|s0 src start end_]; simpl; intros H1 H2; [assumption|].
  destruct (s =? s0); congruence.
Qed.

Lemma ideal_ops_ext (ops : list cache_op) (m1 m2 : Z -> list byte) :
  (forall s, real_sector s -> m1 s = m2 s) ->
  forall s, real_sector s -> ideal_ops ops m1 s = ideal_ops ops m2 s.
Proof.
  revert m1 m2. induction ops as [|op ops IH]; intros m1 m2 H s Hs; simpl; [auto|].
  apply IH; [|assumption].
  intros s' Hs'.
  destruct op as [s0 start end_|s0 src start end_]; simpl; [auto|].
  destruct (Z.eqb_spec s' s0) as [->|]; [|auto].
  rewrite H by assumption. reflexivity.
Qed.

Lemma run_ops_sound (fuel : nat) (ops : list cache_op) (c : bcache) :
  cache_inv c -> Forall op_in_sector ops -> (65 <= fuel)%nat ->
  exists c',
    run_ops fuel c ops = Some c' /\ cache_inv c' /\
    forall s, real_sector s -> view c' s = ideal_ops ops (view c) s.
Proof.
  revert c. induction ops as [|op ops IH]; intros c Hinv Hops Hfuel.
  - exists c. simpl. auto.
  - apply Forall_cons in Hops as [Hop Hops].
    destruct (run_op_sound fuel c op Hinv Hop Hfuel) as (c1 & Hrun & Hinv1 & Hview1).
    destruct (IH c1 Hinv1 Hops Hfuel) as (c' & Hrun' & Hinv' & Hview').
    exists c'. simpl. rewrite Hrun. simpl. split; [assumption|]. split; [assumption|].
    intros s Hs. rewrite Hview' by assumption.
    apply ideal_ops_ext; assumption.
Qed.

(** ** The ideal store, byte by byte *)

Lemma ideal_op_sized (op : cache_op) (m : Z -> list byte) :
  op_in_sector op ->
  (forall s, Z.of_nat (length (m s)) = DISK_SECTOR_SIZE) ->
  forall s, Z.of_nat (length (ideal_op op m s)) = DISK_SECTOR_SIZE.
Proof.
  intros Hop Hm s. destruct op as [s0 start end_|s0 src start end_]; simpl; [apply Hm|].
  destruct Hop as [(H1 & H2 & H3) Hsrc].
  destruct (s =? s0); [|apply Hm].
  rewrite splice_length; [apply Hm | try lia ..].
  rewrite Hm. assumption.
Qed.

Lemma ideal_ops_lookup (ops : list cache_op) (m : Z -> list byte) (s : Z) (pos : nat) :
  Forall op_in_sector ops ->
  (forall s, Z.of_nat (length (m s)) = DISK_SECTOR_SIZE) ->
  ideal_ops ops m s !! pos =
  match last_written ops s (Z.of_nat pos) with
  | Some b => Some b
  | None => m s !! pos
  end.
Proof.
  revert m. induction ops as [|op ops IH]; intros m Hops Hm; [reflexivity|].
  apply Forall_cons in Hops as [Hop Hops].
  simpl. rewrite IH by (try assumption; apply ideal_op_sized; assumption).
  destruct (last_written ops s (Z.of_nat pos)); [reflexivity|].
  destruct op as [s0 start end_|s0 src start end_]; simpl; [reflexivity|].
  destruct Hop as [(H1 & H2 & H3) Hsrc].
  rewrite (Z.eqb_sym s0 s).
  destruct (Z.eqb_spec s s0) as [->|Hne]; simpl.
  - rewrite splice_lookup; try lia; [|rewrite Hm; assumption].
    destruct ((start <=? Z.of_nat pos) && (Z.of_nat pos <? start + end_)) eqn:Hcover;
      [|reflexivity].
    destruct (src !! Z.to_nat (Z.of_nat pos - start)) eqn:Hsrcb; [reflexivity|].
    apply lookup_ge_None in Hsrcb.
    apply andb_true_iff in Hcover as [Hc1 Hc2].
    apply Z.leb_le in Hc1. apply Z.ltb_lt in Hc2. lia.
  - reflexivity.
Qed.

(** ** Shape and distinctness whatever the arguments *)

Lemma first_of_sector_tail (a : BC) (l : list BC) :
  first_of_sector (a :: l) -> first_of_sector l.
Proof.
  intros Hf i j bi bj Hij Hi Hj Ha.
  apply (Hf (S i) (S j) bi bj); [lia | assumption..].
Qed.

Lemma first_of_sector_NoDup (l : list BC) :
  first_of_sector l -> NoDup (sector <$> filter (fun bc => alloc bc = true) l).
Proof.
  induction l as [|a l IH]; intros Hf; [constructor|].
  rewrite filter_cons. destruct (decide (alloc a = true)) as [Ha|Ha].
  - rewrite fmap_cons. apply NoDup_cons. split.
    + intros Hin. apply list_elem_of_fmap in Hin as (b & Hsb & Hb).
      apply list_elem_of_filter in Hb as [Hab Hb].
      apply list_elem_of_lookup in Hb as [j Hj].
      apply (Hf 0%nat (S j) a b); [lia | reflexivity | assumption | assumption | assumption].
    + apply IH. eapply first_of_sector_tail, Hf.
  - apply IH. eapply first_of_sector_tail, Hf.
Qed.

Lemma resident_bound (c : bcache) :
  cache_shape c -> (length (resident c) <= 64)%nat.
Proof.
  intros [Hlen _]. unfold resident. rewrite length_fmap.
  etransitivity; [apply length_filter|]. rewrite Hlen. reflexivity.
Qed.

Lemma hit_shape_first (c : bcache) (s : Z) (i : nat) (bc x : BC) :
  cache_shape c -> first_of_sector (BClist c) ->
  find_sector (BClist c) s = Some (i, bc) -> sector x = s ->
  let c' := mkCache (<[i:=x]> (BClist c)) (next_BC_to_evict c) (filesys_disk c) in
  cache_shape c' /\ first_of_sector (BClist c').
Proof.
  intros [Hlen Hcur] Hf Hfind Hsx. simpl.
  apply find_sector_Some in Hfind as (Hbc & Hs & Hlt).
  split.
  - split; simpl; [rewrite length_insert|]; assumption.
  - apply first_of_sector_insert; [assumption | |].
    + intros j y Hy Hj. rewrite Hsx. eauto.
    + intros j y Hy Hj Ha Heq. rewrite Hsx, <- Hs in Heq. symmetry in Heq.
      revert Heq. eapply (Hf i j); eauto.
Qed.

Lemma miss_shape_first (load : BC -> list byte -> BC) (fuel : nat) (c c1 : bcache)
    (s : Z) (k : nat) (x : BC) :
  cache_shape c -> first_of_sector (BClist c) ->
  find_sector (BClist c) s = None ->
  clock_claim load fuel c s = Some (c1, k) -> sector x = s ->
  let c' := mkCache (<[k:=x]> (BClist c1)) (next_BC_to_evict c1) (filesys_disk c1) in
  cache_shape c' /\ first_of_sector (BClist c').
Proof.
  intros Hshape Hf Hfind Hclaim Hsx. simpl.
  destruct (clock_claim_spec _ _ _ _ _ _ Hshape Hclaim)
    as (l1 & v & Hl1 & Hv & _ & HB & _ & [Hlen' Hcur']).
  split.
  - split; simpl; [rewrite length_insert|]; assumption.
  - rewrite HB, list_insert_insert_eq.
    pose proof (same_data_find_None _ _ Hl1 s Hfind) as Hnone.
    rewrite find_sector_None in Hnone.
    apply first_of_sector_insert.
    + apply (same_data_first _ _ Hl1 Hf).
    + intros j y Hy _. rewrite Hsx. eauto.
    + intros j y Hy _ _. rewrite Hsx. eauto.
Qed.

Lemma run_op_shape_first (fuel : nat) (c c' : bcache) (op : cache_op) :
  cache_shape c -> first_of_sector (BClist c) ->
  run_op fuel c op = Some c' ->
  cache_shape c' /\ first_of_sector (BClist c').
Proof.
  intros Hshape Hf Hrun.
  destruct op as [s start end_|s src start end_]; simpl in Hrun.
  - apply fmap_Some in Hrun as ([c0 out] & Hrun & ->). simpl.
    unfold _disk_read in Hrun.
    destruct (find_sector (BClist c) s) as [[i bc]|] eqn:E.
    + destruct (copy_out _ _ _); [|discriminate]. injection Hrun as <- _.
      apply (hit_shape_first c s i bc (set_access bc true)); try assumption.
      apply find_sector_Some in E as (_ & Hs & _). exact Hs.
    + rewrite _disk_read_evict_clock in Hrun.
      destruct (clock_claim (load_read s) fuel c s) as [[c1 k]|] eqn:Hc; [|discriminate].
      simpl in Hrun.
      destruct (BClist c1 !! k) as [bc|] eqn:Hk; [|discriminate]. simpl in Hrun.
      destruct (copy_out _ _ _); [|discriminate]. injection Hrun as <- _.
      destruct (clock_claim_spec _ _ _ _ _ _ Hshape Hc)
        as (l1 & v & _ & Hv & _ & HB & _ & _).
      rewrite HB, list_lookup_insert_eq in Hk by (eapply lookup_lt_Some, Hv).
      injection Hk as <-.
      pose proof (miss_shape_first _ _ _ _ _ _
                    (load_read s v (sectors (write_back (filesys_disk c) v) s))
                    Hshape Hf E Hc eq_refl) as H.
      simpl in H. rewrite HB, list_insert_insert_eq in H. rewrite <- HB in H.
      destruct c1; exact H.
  - unfold _disk_write in Hrun.
    destruct (find_sector (BClist c) s) as [[i bc]|] eqn:E.
    + unfold write_slot in Hrun. destruct (copy_in _ _ _ _); [|discriminate].
      injection Hrun as <-.
      apply (hit_shape_first c s i bc); try assumption. reflexivity.
    + rewrite _disk_write_evict_clock in Hrun.
      destruct (clock_claim load_write fuel c s) as [[c1 k]|] eqn:Hc; [|discriminate].
      simpl in Hrun.
      destruct (BClist c1 !! k) as [bc|] eqn:Hk; [|discriminate]. simpl in Hrun.
      unfold write_slot in Hrun. destruct (copy_in _ _ _ _); [|discriminate].
      injection Hrun as <-.
      apply (miss_shape_first _ _ _ _ _ _ _ Hshape Hf E Hc). reflexivity.
Qed.

Lemma run_ops_shape_first (fuel : nat) (ops : list cache_op) (c c' : bcache) :
  cache_shape c -> first_of_sector (BClist c) ->
  run_ops fuel c ops = Some c' ->
  cache_shape c' /\ first_of_sector (BClist c').
Proof.
  revert c. induction ops as [|op ops IH]; intros c Hshape Hf Hrun; simpl in Hrun.
  - injection Hrun as <-. auto.
  - destruct (run_op fuel c op) as [c1|] eqn:Hop; [|discriminate]. simpl in Hrun.
    destruct (run_op_shape_first _ _ _ _ Hshape Hf Hop) as [Hshape1 Hf1].
    eauto.
Qed.

(** ** The claims about the block cache *)

Lemma view_init (garbage : nat -> list byte) (d : disk) (s : Z) :
  real_sector s -> view (cache_init garbage d) s = sectors d s.
Proof.
  intros Hs. apply view_miss. apply find_sector_None. intros i b Hb.
  apply init_slots_lookup in Hb. subst b. simpl. unfold real_sector in Hs. congruence.
Qed.

(** C1.  Run any sequence of [_disk_read] and [_disk_write] calls that keep
    [start + end] inside the sector, from the cache as [inode_init] leaves
    it, over any device; then read any sector of the device.  The read
    returns [end] bytes, and each of them is the byte most recently written
    at its position of that sector, or the device's original byte if no
    call wrote there.  The number of distinct sectors touched is not
    bounded, so the run may evict as often as it likes.  A sector of the
    device is any number but [(disk_sector_t) -1], which the source itself
    uses for "no sector". *)
Theorem read_returns_last_write (garbage : nat -> list byte) (d : disk)
    (ops : list cache_op) (s start end_ : Z) (fuel : nat) :
  sized_start garbage d ->
  Forall op_in_sector ops ->
  real_sector s -> in_sector start end_ -> (65 <= fuel)%nat ->
  exists c c' out,
    run_ops fuel (cache_init garbage d) ops = Some c /\
    _disk_read fuel c s start end_ = Some (c', out) /\
    Z.of_nat (length out) = end_ /\
    forall k : nat, Z.of_nat k < end_ ->
      out !! k =
      match last_written ops s (start + Z.of_nat k) with
      | Some b => Some b
      | None => sectors d s !! Z.to_nat (start + Z.of_nat k)
      end.
Proof.
  intros Hstart Hops Hs Hrange Hfuel.
  pose proof (cache_init_inv garbage d Hstart) as Hinv0.
  destruct (run_ops_sound fuel ops _ Hinv0 Hops Hfuel) as (c & Hrun & Hinv & Hview).
  destruct (_disk_read_sound fuel c s start end_ Hinv Hrange Hfuel) as (c' & Hread & _ & _).
  exists c, c', (take (Z.to_nat end_) (drop (Z.to_nat start) (view c s))).
  pose proof (view_sized c s Hinv) as Hlen.
  destruct Hrange as (H1 & H2 & H3).
  split; [assumption|]. split; [assumption|]. split.
  - rewrite length_take, length_drop. lia.
  - intros k Hk. rewrite copy_out_lookup by lia.
    rewrite Hview by assumption.
    rewrite ideal_ops_lookup; [|assumption|intros s'; apply view_sized, Hinv0].
    replace (Z.of_nat (Z.to_nat start + k)) with (start + Z.of_nat k) by lia.
    destruct (last_written ops s (start + Z.of_nat k)); [reflexivity|].
    rewrite view_init by assumption. f_equal. lia.
Qed.

Lemma sample_start_sized : sized_start sample_garbage sample_disk.
Proof.
  split; intros; unfold sample_garbage, sample_disk; cbn [sectors];
    rewrite length_replicate; reflexivity.
Qed.

Lemma sample_ops_in_sector : Forall op_in_sector sample_ops.
Proof.
  unfold sample_ops. apply Forall_fmap, Forall_forall. intros i _.
  simpl. unfold in_sector, DISK_SECTOR_SIZE. lia.
Qed.

Lemma read_returns_last_write_witness :
  sized_start sample_garbage sample_disk /\
  Forall op_in_sector sample_ops /\
  real_sector 0 /\ in_sector 2 3 /\ (65 <= 65)%nat /\
  exists c c' out,
    run_ops 65 (cache_init sample_garbage sample_disk) sample_ops = Some c /\
    _disk_read 65 c 0 2 3 = Some (c', out) /\
    Z.of_nat (length out) = 3 /\
    forall k : nat, Z.of_nat k < 3 ->
      out !! k =
      match last_written sample_ops 0 (2 + Z.of_nat k) with
      | Some b => Some b
      | None => sectors sample_disk 0 !! Z.to_nat (2 + Z.of_nat k)
      end.
Proof.
  assert (real_sector 0) as H0 by (vm_compute; discriminate).
  assert (in_sector 2 3) as H1 by (unfold in_sector, DISK_SECTOR_SIZE; lia).
  split; [exact sample_start_sized|].
  split; [exact sample_ops_in_sector|].
  split; [exact H0|]. split; [exact H1|]. split; [lia|].
  exact (read_returns_last_write sample_garbage sample_disk sample_ops 0 2 3 65
           sample_start_sized sample_ops_in_sector H0 H1 (le_n 65)).
Defined.

(** C2.  After [inode_init] and after every further [_disk_read] or
    [_disk_write], at most 64 sectors are resident and the allocated slots
    carry pairwise distinct sector numbers.  This holds for every run the
    embedding defines, and every run whose calls stay inside the sector is
    defined. *)
Theorem resident_sectors_distinct (garbage : nat -> list byte) (d : disk)
    (fuel : nat) (ops : list cache_op) :
  (forall c, run_ops fuel (cache_init garbage d) ops = Some c ->
     (length (resident c) <= 64)%nat /\ NoDup (resident c)) /\
  (sized_start garbage d -> Forall op_in_sector ops -> (65 <= fuel)%nat ->
     is_Some (run_ops fuel (cache_init garbage d) ops)).
Proof.
  split.
  - intros c Hrun.
    destruct (run_ops_shape_first fuel ops _ c (cache_init_shape garbage d)
                (cache_init_first garbage) Hrun) as [Hshape Hf].
    split; [apply resident_bound, Hshape | apply first_of_sector_NoDup, Hf].
  - intros Hstart Hops Hfuel.
    destruct (run_ops_sound fuel ops _ (cache_init_inv garbage d Hstart) Hops Hfuel)
      as (c & Hrun & _).
    exists c. exact Hrun.
Qed.

Lemma resident_sectors_distinct_witness :
  exists c, run_ops 65 (cache_init sample_garbage sample_disk) sample_ops = Some c /\
    (length (resident c) <= 64)%nat /\ NoDup (resident c).
Proof.
  destruct (resident_sectors_distinct sample_garbage sample_disk 65 sample_ops)
    as [Hinv Hdef].
  destruct (Hdef sample_start_sized sample_ops_in_sector (le_n 65)) as [c Hc].
  exists c. split; [exact Hc | exact (Hinv c Hc)].
Defined.

Lemma clock_claim_survivors (load : BC -> list byte -> BC) (fuel : nat) (c c' : bcache)
    (sec_no : Z) (k : nat) :
  cache_shape c -> clock_claim load fuel c sec_no = Some (c', k) ->
  (k < 64)%nat /\
  forall j b, j <> k -> BClist c !! j = Some b ->
    exists b', BClist c' !! j = Some b' /\ same_data b b'.
Proof.
  intros Hshape Hclaim.
  destruct (clock_claim_spec _ _ _ _ _ _ Hshape Hclaim)
    as (l1 & v & Hl1 & Hv & _ & HB & _ & _).
  split.
  - apply lookup_lt_Some in Hv. rewrite (same_data_length _ _ Hl1) in Hv.
    destruct Hshape as [Hlen _]. rewrite Hlen in Hv. exact Hv.
  - intros j b Hj Hb.
    destruct (Forall2_lookup_l _ _ _ _ _ Hl1 Hb) as (b' & Hb' & Hbb).
    exists b'. split; [|exact Hbb].
    rewrite HB, list_lookup_insert_ne by congruence. exact Hb'.
Qed.

Lemma _disk_read_miss_slot (fuel : nat) (c c' : bcache) (sec_no start end_ : Z)
    (out : list byte) :
  cache_shape c -> find_sector (BClist c) sec_no = None ->
  _disk_read fuel c sec_no start end_ = Some (c', out) ->
  exists k x, BClist c' !! k = Some x /\ sector x = sec_no /\
    alloc x = true /\ access x = false /\ dirty x = false /\
    buffer x = sectors (filesys_disk c') sec_no.
Proof.
  intros Hshape Hmiss Hread. unfold _disk_read in Hread. rewrite Hmiss in Hread.
  rewrite _disk_read_evict_clock in Hread.
  destruct (clock_claim (load_read sec_no) fuel c sec_no) as [[c1 k]|] eqn:Hc;
    [|discriminate].
  simpl in Hread.
  destruct (BClist c1 !! k) as [x|] eqn:Hk; [|discriminate]. simpl in Hread.
  destruct (copy_out _ _ _); [|discriminate]. injection Hread as <- _.
  destruct (clock_claim_spec _ _ _ _ _ _ Hshape Hc)
    as (l1 & v & _ & Hv & _ & HB & HD & _).
  exists k, x. split; [exact Hk|].
  rewrite HB, list_lookup_insert_eq in Hk by (eapply lookup_lt_Some, Hv).
  injection Hk as <-. rewrite HD. simpl. repeat split.
Qed.

Lemma _disk_write_miss_slot (fuel : nat) (c c' : bcache) (sec_no : Z)
    (src : list byte) (start end_ : Z) :
  cache_shape c -> find_sector (BClist c) sec_no = None ->
  _disk_write fuel c sec_no src start end_ = Some c' ->
  exists k x, BClist c' !! k = Some x /\ sector x = sec_no /\
    alloc x = true /\ access x = true /\ dirty x = true.
Proof.
  intros Hshape Hmiss Hwrite. unfold _disk_write in Hwrite. rewrite Hmiss in Hwrite.
  rewrite _disk_write_evict_clock in Hwrite.
  destruct (clock_claim load_write fuel c sec_no) as [[c1 k]|] eqn:Hc; [|discriminate].
  simpl in Hwrite.
  destruct (BClist c1 !! k) as [x|] eqn:Hk; [|discriminate]. simpl in Hwrite.
  unfold write_slot in Hwrite. destruct (copy_in _ _ _ _) as [buf|]; [|discriminate].
  injection Hwrite as <-. simpl.
  destruct (clock_claim_spec _ _ _ _ _ _ Hshape Hc)
    as (l1 & v & _ & Hv & _ & HB & _ & _).
  rewrite HB, list_lookup_insert_eq in Hk by (eapply lookup_lt_Some, Hv).
  injection Hk as <-.
  eexists k, _. split.
  - apply list_lookup_insert_eq. rewrite HB, length_insert. eapply lookup_lt_Some, Hv.
  - simpl. repeat split.
Qed.

Lemma sample_full_cache_lookup (i : nat) (b : BC) :
  BClist sample_full_cache !! i = Some b ->
  b = mkBC (sectors sample_disk (Z.of_nat i)) (Z.of_nat i) true true false.
Proof.
  unfold sample_full_cache. cbn [BClist]. rewrite list_lookup_fmap. intros H.
  apply fmap_Some in H as (j & Hj & ->).
  apply lookup_seq in Hj as [-> _]. reflexivity.
Qed.

Lemma sample_full_cache_shape : cache_shape sample_full_cache.
Proof.
  split.
  - unfold sample_full_cache. cbn [BClist]. rewrite length_fmap, length_seq. reflexivity.
  - simpl. unfold BC_SLOTS. lia.
Qed.

(** Slots other than the one claimed: a slot the cursor passed was
    allocated with [access] set and has lost that flag, nothing else; the
    others are as they were. *)
Lemma clock_claim_others (load : BC -> list byte -> BC) (fuel : nat) :
  forall (c c' : bcache) (sec_no : Z) (k : nat),
  cache_shape c -> clock_claim load fuel c sec_no = Some (c', k) ->
  forall j b, j <> k -> BClist c !! j = Some b ->
    BClist c' !! j = Some b \/
    (alloc b = true /\ access b = true /\
     BClist c' !! j = Some (mkBC (buffer b) (sector b) true false (dirty b))).
Proof.
  induction fuel as [|fuel IH]; intros c c' sec_no k Hshape H j b Hj Hb; [discriminate|].
  destruct (slot_at_shape c Hshape) as [bc Hbc].
  simpl in H. rewrite Hbc in H. simpl in H.
  apply slot_at_Some in Hbc as [Hi Hbc].
  destruct (claimable bc) eqn:Hc.
  - unfold disk_read in H. injection H as <- <-. simpl.
    left. rewrite list_lookup_insert_ne by congruence. exact Hb.
  - assert (alloc bc = true /\ access bc = true) as [Ha Hacc].
    { unfold claimable in Hc. destruct (alloc bc), (access bc); try discriminate; auto. }
    pose proof (lookup_lt_Some _ _ _ Hbc) as Hlt.
    destruct (decide (j = Z.to_nat (next_BC_to_evict c))) as [->|Hne].
    + rewrite Hbc in Hb. injection Hb as ->.
      destruct (IH _ c' sec_no k (cache_shape_skip c (set_access b false) Hshape) H
                  (Z.to_nat (next_BC_to_evict c)) (set_access b false) Hj) as [Hsame|Hpassed].
      * simpl. apply list_lookup_insert_eq. exact Hlt.
      * right. split; [exact Ha|]. split; [exact Hacc|].
        rewrite Hsame. unfold set_access. rewrite Ha. reflexivity.
      * destruct Hpassed as (_ & Hfalse & _). simpl in Hfalse. discriminate.
    + apply (IH _ c' sec_no k (cache_shape_skip c (set_access bc false) Hshape) H j b Hj).
      simpl. rewrite list_lookup_insert_ne by congruence. exact Hb.
Qed.

(** C4.  One round of the claim loop, for the slot [bc] under the cursor;
    the cursor moves on by one, modulo 64, in every case.
    - [bc] unallocated: the loop ends at once with the requested sector
      loaded into that slot.
    - [bc] allocated with [access] set: the flag is cleared and the loop
      goes on with the next slot; the slot keeps its sector, bytes and
      [dirty] flag.
    - [bc] allocated with [access] clear: it is the victim.  If it is dirty
      the device first receives its bytes under its old sector number and
      only then serves the read of the requested sector; [_disk_read]
      stores the new sector number with [access] and [dirty] clear, the
      loop of [_disk_write] stores the bytes and sets [dirty].
    - Whatever slot a run of the loop claims, every other slot is either
      as it was or, if the cursor passed it, was allocated with [access]
      set and has had that flag cleared: it keeps its sector, bytes,
      [alloc] and [dirty].
    - When a call that missed returns, one slot holds the requested sector
      number with [alloc] set; after [_disk_read] its [access] and [dirty]
      are clear and its bytes are the device's, after [_disk_write] both
      flags are set. *)
Theorem claim_loop_step (fuel : nat) (c : bcache) (sec_no : Z) (bc : BC) :
  cache_shape c ->
  BClist c !! Z.to_nat (next_BC_to_evict c) = Some bc ->
  let i := Z.to_nat (next_BC_to_evict c) in
  let next := (next_BC_to_evict c + 1) mod BC_SLOTS in
  let d := filesys_disk c in
  let loaded := mkDisk (sectors d) (disk_log d ++ [DiskRead sec_no]) in
  let flushed :=
    mkDisk (fun s => if s =? sector bc then buffer bc else sectors d s)
           (disk_log d ++ [DiskWrite (sector bc) (buffer bc); DiskRead sec_no]) in
  (alloc bc = false ->
     _disk_read_evict (S fuel) c sec_no =
       Some (mkCache (<[i := mkBC (sectors d sec_no) sec_no true false false]> (BClist c))
                     next loaded, i) /\
     _disk_write_evict (S fuel) c sec_no =
       Some (mkCache (<[i := mkBC (sectors d sec_no) (sector bc) false (access bc) true]>
                        (BClist c))
                     next loaded, i)) /\
  (alloc bc = true -> access bc = true ->
     let skipped :=
       mkCache (<[i := mkBC (buffer bc) (sector bc) true false (dirty bc)]> (BClist c))
               next d in
     _disk_read_evict (S fuel) c sec_no = _disk_read_evict fuel skipped sec_no /\
     _disk_write_evict (S fuel) c sec_no = _disk_write_evict fuel skipped sec_no) /\
  (alloc bc = true -> access bc = false -> dirty bc = false ->
     _disk_read_evict (S fuel) c sec_no =
       Some (mkCache (<[i := mkBC (sectors d sec_no) sec_no true false false]> (BClist c))
                     next loaded, i) /\
     _disk_write_evict (S fuel) c sec_no =
       Some (mkCache (<[i := mkBC (sectors d sec_no) (sector bc) true false true]>
                        (BClist c))
                     next loaded, i)) /\
  (alloc bc = true -> access bc = false -> dirty bc = true ->
     let data := if sec_no =? sector bc then buffer bc else sectors d sec_no in
     _disk_read_evict (S fuel) c sec_no =
       Some (mkCache (<[i := mkBC data sec_no true false false]> (BClist c))
                     next flushed, i) /\
     _disk_write_evict (S fuel) c sec_no =
       Some (mkCache (<[i := mkBC data (sector bc) true false true]> (BClist c))
                     next flushed, i)) /\
  (forall c' k,
     _disk_read_evict fuel c sec_no = Some (c', k) \/
     _disk_write_evict fuel c sec_no = Some (c', k) ->
     forall j b, j <> k -> BClist c !! j = Some b ->
       BClist c' !! j = Some b \/
       (alloc b = true /\ access b = true /\
        BClist c' !! j = Some (mkBC (buffer b) (sector b) true false (dirty b)))) /\
  (find_sector (BClist c) sec_no = None ->
     (forall c' out start end_,
        _disk_read fuel c sec_no start end_ = Some (c', out) ->
        exists k x, BClist c' !! k = Some x /\ sector x = sec_no /\
          alloc x = true /\ access x = false /\ dirty x = false /\
          buffer x = sectors (filesys_disk c') sec_no) /\
     (forall c' src start end_,
        _disk_write fuel c sec_no src start end_ = Some c' ->
        exists k x, BClist c' !! k = Some x /\ sector x = sec_no /\
          alloc x = true /\ access x = true /\ dirty x = true)).
Proof.
  intros Hshape Hbc. cbv zeta.
  assert (slot_at (BClist c) (next_BC_to_evict c) = Some bc) as Hslot.
  { apply slot_at_Some. split; [apply Hshape | exact Hbc]. }
  destruct (cursor_next _ (proj2 Hshape)) as [_ Hnext].
  split; [|split; [|split; [|split; [|split]]]].
  - intros Ha.
    split; simpl; rewrite Hslot; simpl; unfold set_dirty, set_buffer; simpl;
      rewrite Ha, Hnext; reflexivity.
  - intros Ha Hacc.
    split; simpl; rewrite Hslot; simpl; unfold set_access;
      rewrite Ha, Hacc, Hnext; reflexivity.
  - intros Ha Hacc Hd.
    split; simpl; rewrite Hslot; simpl; unfold set_dirty, set_buffer; simpl;
      rewrite Ha, Hacc, Hd, Hnext; reflexivity.
  - intros Ha Hacc Hd.
    split; simpl; rewrite Hslot; simpl; unfold set_dirty, set_buffer; simpl;
      rewrite Ha, Hacc, Hd, Hnext;
      unfold disk_write; simpl; rewrite <- app_assoc; reflexivity.
  - intros c' k [H|H] j b Hj Hb.
    + rewrite _disk_read_evict_clock in H.
      apply (clock_claim_others _ _ _ _ _ _ Hshape H); assumption.
    + rewrite _disk_write_evict_clock in H.
      apply (clock_claim_others _ _ _ _ _ _ Hshape H); assumption.
  - intros Hmiss. split.
    + intros c' out start end_. apply _disk_read_miss_slot; assumption.
    + intros c' src start end_. apply _disk_write_miss_slot; assumption.
Qed.

Lemma sample_dirty_cache_shape : cache_shape sample_dirty_cache.
Proof.
  split; [|simpl; unfold BC_SLOTS; lia].
  unfold sample_dirty_cache. cbn [BClist].
  rewrite length_insert. apply sample_full_cache_shape.
Qed.

(** The three kinds of slot under the cursor: unallocated (the cache of
    [inode_init]), allocated and used (the full cache, slot 5 is passed),
    allocated, unused and dirty (written back, then reloaded). *)
Lemma claim_loop_step_witness :
  _disk_read_evict 1 (cache_init sample_garbage sample_disk) 7 =
    Some (mkCache (<[0%nat := mkBC (sectors sample_disk 7) 7 true false false]>
                     (init_slots sample_garbage))
                  1 (mkDisk (sectors sample_disk) [DiskRead 7]), 0%nat) /\
  _disk_write_evict 2 sample_full_cache 99 =
    _disk_write_evict 1
      (mkCache (<[5%nat := mkBC (sectors sample_disk 5) 5 true false false]>
                  (BClist sample_full_cache)) 6 sample_disk) 99 /\
  _disk_read_evict 1 sample_dirty_cache 99 =
    Some (mkCache (<[5%nat := mkBC (sectors sample_disk 99) 99 true false false]>
                     (BClist sample_dirty_cache))
                  6 (mkDisk (fun s => if s =? 5 then replicate 512 x2a
                                      else sectors sample_disk s)
                            [DiskWrite 5 (replicate 512 x2a); DiskRead 99]), 5%nat) /\
  _disk_write_evict 1 sample_dirty_cache 99 =
    Some (mkCache (<[5%nat := mkBC (sectors sample_disk 99) 5 true false true]>
                     (BClist sample_dirty_cache))
                  6 (mkDisk (fun s => if s =? 5 then replicate 512 x2a
                                      else sectors sample_disk s)
                            [DiskWrite 5 (replicate 512 x2a); DiskRead 99]), 5%nat).
Proof.
  split; [|split].
  - exact (proj1 (proj1 (claim_loop_step 0 (cache_init sample_garbage sample_disk) 7 _
                           (cache_init_shape _ _) eq_refl) eq_refl)).
  - exact (proj2 (proj1 (proj2 (claim_loop_step 1 sample_full_cache 99 _
                                  sample_full_cache_shape eq_refl)) eq_refl eq_refl)).
  - exact (proj1 (proj2 (proj2 (proj2 (claim_loop_step 0 sample_dirty_cache 99 _
                                         sample_dirty_cache_shape eq_refl))))
             eq_refl eq_refl eq_refl).
Defined.

(** ** The transfer loops of the inode layer *)

Lemma inode_read_loop_step (fuel : nat) (ino : inode.t) (c : bcache)
    (size offset bytes_read : Z) (out : list byte) :
  inode_read_loop fuel ino c size offset bytes_read out =
  if (0 <? size) && (0 <? chunk_size ino size offset) then
    match _disk_read fuel c (byte_to_sector ino offset)
                     (Z.rem offset DISK_SECTOR_SIZE) (chunk_size ino size offset) with
    | None => None
    | Some (c', bytes) =>
      inode_read_loop fuel ino c'
        (size - chunk_size ino size offset)
        (wrap_int (offset + chunk_size ino size offset))
        (wrap_int (bytes_read + chunk_size ino size offset))
        (out ++ bytes)
    end
  else Some (c, out, bytes_read).
Proof.
  rewrite inode_read_loop_equation_1. unfold inode_read_loop_unfold_clause_1.
  destruct (Z_gt_dec size 0) as [Hs|Hs].
  - destruct (Z.ltb_spec 0 size); [|lia]. simpl.
    destruct (Z_le_dec (chunk_size ino size offset) 0) as [Hc|Hc].
    + destruct (Z.ltb_spec 0 (chunk_size ino size offset)); [lia|]. reflexivity.
    + destruct (Z.ltb_spec 0 (chunk_size ino size offset)); [|lia]. simpl.
      destruct (_disk_read fuel c (byte_to_sector ino offset)
                  (Z.rem offset DISK_SECTOR_SIZE) (chunk_size ino size offset))
        as [[c' bytes]|]; reflexivity.
  - destruct (Z.ltb_spec 0 size); [lia|]. reflexivity.
Qed.

Lemma inode_write_loop_step (fuel : nat) (ino : inode.t) (src : list byte)
    (c : bcache) (size offset bytes_written : Z) :
  inode_write_loop fuel ino src c size offset bytes_written =
  if (0 <? size) && (0 <? chunk_size ino size offset) then
    match _disk_write fuel c (byte_to_sector ino offset)
                      (drop (Z.to_nat bytes_written) src)
                      (Z.rem offset DISK_SECTOR_SIZE) (chunk_size ino size offset) with
    | None => None
    | Some c' =>
      inode_write_loop fuel ino src c'
        (size - chunk_size ino size offset)
        (wrap_int (offset + chunk_size ino size offset))
        (wrap_int (bytes_written + chunk_size ino size offset))
    end
  else Some (c, bytes_written).
Proof.
  rewrite inode_write_loop_equation_1. unfold inode_write_loop_unfold_clause_1.
  destruct (Z_gt_dec size 0) as [Hs|Hs].
  - destruct (Z.ltb_spec 0 size); [|lia]. simpl.
    destruct (Z_le_dec (chunk_size ino size offset) 0) as [Hc|Hc].
    + destruct (Z.ltb_spec 0 (chunk_size ino size offset)); [lia|]. reflexivity.
    + destruct (Z.ltb_spec 0 (chunk_size ino size offset)); [|lia]. simpl.
      destruct (_disk_write fuel c (byte_to_sector ino offset)
                  (drop (Z.to_nat bytes_written) src)
                  (Z.rem offset DISK_SECTOR_SIZE) (chunk_size ino size offset))
        as [c'|]; reflexivity.
  - destruct (Z.ltb_spec 0 size); [lia|]. reflexivity.
Qed.

Lemma wrap_int_id (z : Z) : in_int z -> wrap_int z = z.
Proof.
  unfold in_int, INT_MIN, INT_MAX, wrap_int. intros H.
  rewrite Z.mod_small by lia. lia.
Qed.

Lemma chunk_size_min (ino : inode.t) (size offset : Z) :
  0 <= offset -> in_int (inode_length ino - offset) ->
  chunk_size ino size offset =
  Z.min size (Z.min (DISK_SECTOR_SIZE - offset mod DISK_SECTOR_SIZE)
                    (inode_length ino - offset)).
Proof.
  intros Hoff Hsub. unfold chunk_size.
  rewrite (wrap_int_id _ Hsub).
  rewrite Z.rem_mod_nonneg by (unfold DISK_SECTOR_SIZE; lia).
  destruct (Z.ltb_spec (inode_length ino - offset)
              (DISK_SECTOR_SIZE - offset mod DISK_SECTOR_SIZE));
    match goal with |- context [?a <? ?b] => destruct (Z.ltb_spec a b) end; lia.
Qed.

Lemma chunk_size_bounds (ino : inode.t) (size offset : Z) :
  0 <= offset -> in_int (inode_length ino - offset) ->
  0 < chunk_size ino size offset ->
  in_sector (Z.rem offset DISK_SECTOR_SIZE) (chunk_size ino size offset) /\
  chunk_size ino size offset <= size /\
  chunk_size ino size offset <= inode_length ino - offset.
Proof.
  intros Hoff Hsub Hpos. rewrite chunk_size_min in * by assumption.
  rewrite Z.rem_mod_nonneg by (unfold DISK_SECTOR_SIZE; lia).
  pose proof (Z.mod_pos_bound offset DISK_SECTOR_SIZE) as Hm.
  unfold in_sector, DISK_SECTOR_SIZE in *. lia.
Qed.

Lemma inode_read_loop_sound (fuel : nat) (ino : inode.t) (n : nat) :
  forall (c : bcache) (size offset bytes_read : Z) (out : list byte),
  (Z.to_nat size <= n)%nat -> cache_inv c -> (65 <= fuel)%nat ->
  transfer_args ino size offset ->
  0 <= bytes_read -> bytes_read + size <= INT_MAX ->
  let t := Z.min size (Z.max 0 (inode_length ino - offset)) in
  exists c' out',
    inode_read_loop fuel ino c size offset bytes_read out = Some (c', out', bytes_read + t) /\
    Z.of_nat (length out') = Z.of_nat (length out) + t /\ cache_inv c'.
Proof.
  induction n as [|n IH]; intros c size offset bytes_read out Hn Hinv Hfuel
    (Hsize & Hoff & Hlen & Hsub) Hbr Hsum; cbv zeta;
    rewrite inode_read_loop_step.
  - destruct (Z.ltb_spec 0 size); [lia|]. simpl.
    exists c, out. replace (Z.min size _) with 0 by lia.
    rewrite !Z.add_0_r. auto.
  - destruct (Z.ltb_spec 0 size) as [Hpos|]; simpl;
      [|exists c, out; replace (Z.min size _) with 0 by lia;
        rewrite !Z.add_0_r; auto].
    destruct (Z.ltb_spec 0 (chunk_size ino size offset)) as [Hchunk|Hchunk].
    + destruct (chunk_size_bounds ino size offset (proj1 Hoff) Hsub Hchunk)
        as (Hrange & Hle & Hleft).
      set (k := chunk_size ino size offset) in *.
      destruct (_disk_read_sound fuel c (byte_to_sector ino offset) _ _ Hinv Hrange Hfuel)
        as (c1 & -> & Hinv1 & _).
      unfold in_int, INT_MIN, INT_MAX in *.
      rewrite !wrap_int_id by (unfold in_int, INT_MIN, INT_MAX; lia).
      destruct (IH c1 (size - k) (offset + k) (bytes_read + k)
                  (out ++ take (Z.to_nat k)
                     (drop (Z.to_nat (Z.rem offset DISK_SECTOR_SIZE))
                        (view c (byte_to_sector ino offset)))))
        as (c' & out' & Hrun & Hout & Hinv'); try lia; try assumption.
      { unfold transfer_args, in_int, INT_MIN, INT_MAX. lia. }
      exists c', out'. cbv zeta in Hrun. rewrite Hrun. split; [f_equal; f_equal; lia|].
      split; [|assumption].
      rewrite Hout, length_app, length_take, length_drop.
      pose proof (view_sized c (byte_to_sector ino offset) Hinv) as Hv.
      destruct Hrange as (? & ? & ?). lia.
    + rewrite chunk_size_min in Hchunk by tauto.
      pose proof (Z.mod_pos_bound offset DISK_SECTOR_SIZE) as Hm.
      exists c, out. replace (Z.min size _) with 0
        by (unfold DISK_SECTOR_SIZE in *; lia).
      rewrite !Z.add_0_r. auto.
Qed.

Lemma inode_write_loop_sound (fuel : nat) (ino : inode.t) (src : list byte) (n : nat) :
  forall (c : bcache) (size offset bytes_written : Z),
  (Z.to_nat size <= n)%nat -> cache_inv c -> (65 <= fuel)%nat ->
  transfer_args ino size offset ->
  0 <= bytes_written -> bytes_written + size <= INT_MAX ->
  bytes_written + size <= Z.of_nat (length src) ->
  let t := Z.min size (Z.max 0 (inode_length ino - offset)) in
  exists c',
    inode_write_loop fuel ino src c size offset bytes_written = Some (c', bytes_written + t) /\
    cache_inv c'.
Proof.
  induction n as [|n IH]; intros c size offset bytes_written Hn Hinv Hfuel
    (Hsize & Hoff & Hlen & Hsub) Hbr Hsum Hsrc; cbv zeta;
    rewrite inode_write_loop_step.
  - destruct (Z.ltb_spec 0 size); [lia|]. simpl.
    exists c. replace (Z.min size _) with 0 by lia.
    rewrite !Z.add_0_r. auto.
  - destruct (Z.ltb_spec 0 size) as [Hpos|]; simpl;
      [|exists c; replace (Z.min size _) with 0 by lia;
        rewrite !Z.add_0_r; auto].
    destruct (Z.ltb_spec 0 (chunk_size ino size offset)) as [Hchunk|Hchunk].
    + destruct (chunk_size_bounds ino size offset (proj1 Hoff) Hsub Hchunk)
        as (Hrange & Hle & Hleft).
      set (k := chunk_size ino size offset) in *.
      destruct (_disk_write_sound fuel c (byte_to_sector ino offset)
                  (drop (Z.to_nat bytes_written) src) _ _ Hinv Hrange)
        as (c1 & -> & Hinv1 & _); [rewrite length_drop; lia | assumption |].
      unfold in_int, INT_MIN, INT_MAX in *.
      rewrite !wrap_int_id by (unfold in_int, INT_MIN, INT_MAX; lia).
      destruct (IH c1 (size - k) (offset + k) (bytes_written + k))
        as (c' & Hrun & Hinv'); try lia; try assumption.
      { unfold transfer_args, in_int, INT_MIN, INT_MAX. lia. }
      exists c'. cbv zeta in Hrun. rewrite Hrun. split; [f_equal; f_equal; lia|].
      assumption.
    + rewrite chunk_size_min in Hchunk by tauto.
      pose proof (Z.mod_pos_bound offset DISK_SECTOR_SIZE) as Hm.
      exists c. replace (Z.min size _) with 0
        by (unfold DISK_SECTOR_SIZE in *; lia).
      rewrite !Z.add_0_r. auto.
Qed.

(** ** The claims about reading and writing an inode *)

Lemma sample_transfer_args : transfer_args sample_inode 600 700.
Proof.
  unfold transfer_args, in_int, INT_MIN, INT_MAX.
  change (inode_length sample_inode) with 1000. lia.
Qed.

(** C7.  With a deny-write count above zero, [inode_write_at] returns 0 for
    every buffer, size and offset, and hands back the cache it was given:
    the same slots, the same cursor, the same device contents and the same
    device log, so the device served no transfer. *)
Theorem write_denied (fuel : nat) (c : bcache) (ino : inode.t) (src : list byte)
    (size offset : Z) :
  inode.deny_write_cnt ino > 0 ->
  inode_write_at fuel c ino src size offset = Some (c, 0) /\
  forall c' n, inode_write_at fuel c ino src size offset = Some (c', n) ->
    n = 0 /\ BClist c' = BClist c /\ next_BC_to_evict c' = next_BC_to_evict c /\
    sectors (filesys_disk c') = sectors (filesys_disk c) /\
    disk_log (filesys_disk c') = disk_log (filesys_disk c).
Proof.
  intros Hdeny.
  assert (inode_write_at fuel c ino src size offset = Some (c, 0)) as H.
  { unfold inode_write_at. destruct (Z.eqb_spec (inode.deny_write_cnt ino) 0); [lia|].
    reflexivity. }
  split; [exact H|].
  intros c' n H'. rewrite H in H'. injection H' as <- <-. repeat split.
Qed.

Lemma write_denied_witness :
  inode.deny_write_cnt sample_inode_denied > 0 /\
  inode_write_at 65 (cache_init sample_garbage sample_disk) sample_inode_denied
    [x01; x02; x03] 3 0 = Some (cache_init sample_garbage sample_disk, 0).
Proof.
  assert (inode.deny_write_cnt sample_inode_denied > 0) as H by (simpl; lia).
  split; [exact H|].
  exact (proj1 (write_denied 65 (cache_init sample_garbage sample_disk)
                  sample_inode_denied [x01; x02; x03] 3 0 H)).
Defined.

(** ** The descriptor image *)

Lemma Z_of_byte_of_Z (z : Z) : Z_of_byte (byte_of_Z z) = z mod 256.
Proof.
  unfold Z_of_byte, byte_of_Z.
  pose proof (Z.mod_pos_bound z 256 eq_refl) as Hm.
  destruct (Byte.of_N (Z.to_N (z mod 256))) as [b|] eqn:E.
  - simpl. apply Byte.to_of_N in E. rewrite E. lia.
  - apply Byte.of_N_None_iff in E. lia.
Qed.

Lemma decode_encode_u32 (z : Z) (rest : list byte) :
  decode_u32 (encode_u32 z ++ rest) = z mod 4294967296.
Proof.
  unfold encode_u32, decode_u32. simpl. rewrite !Z_of_byte_of_Z.
  pose proof (Z.div_mod z 256 ltac:(lia)).
  pose proof (Z.div_mod (z / 256) 256 ltac:(lia)).
  pose proof (Z.div_mod (z / 256 / 256) 256 ltac:(lia)).
  pose proof (Z.div_mod (z / 256 / 256 / 256) 256 ltac:(lia)).
  replace (z / 65536) with (z / 256 / 256)
    by (rewrite Z.div_div by lia; reflexivity).
  replace (z / 16777216) with (z / 256 / 256 / 256)
    by (rewrite !Z.div_div by lia; reflexivity).
  pose proof (Z.mod_pos_bound z 256 eq_refl).
  pose proof (Z.mod_pos_bound (z / 256) 256 eq_refl).
  pose proof (Z.mod_pos_bound (z / 256 / 256) 256 eq_refl).
  pose proof (Z.mod_pos_bound (z / 256 / 256 / 256) 256 eq_refl).
  apply (Z.mod_unique_pos _ _ (z / 256 / 256 / 256 / 256)); lia.
Qed.

Lemma encode_u32_length (z : Z) : length (encode_u32 z) = 4%nat.
Proof. reflexivity. Qed.

Lemma encode_inode_disk_length (d : inode_disk.t) :
  length (encode_inode_disk d) = (12 + length (inode_disk.unused d))%nat.
Proof. unfold encode_inode_disk. rewrite !length_app, !encode_u32_length. lia. Qed.

Lemma decode_encode_inode_disk (d : inode_disk.t) :
  0 <= inode_disk.start d < 4294967296 -> in_int (inode_disk.length d) ->
  0 <= inode_disk.magic d < 4294967296 ->
  decode_inode_disk (encode_inode_disk d) = d.
Proof.
  intros Hs Hl Hm. destruct d as [s l m u]. simpl in *.
  unfold decode_inode_disk, encode_inode_disk. simpl inode_disk.start.
  simpl inode_disk.length. simpl inode_disk.magic. simpl inode_disk.unused.
  rewrite decode_encode_u32.
  change (drop 4 (encode_u32 s ++ encode_u32 l ++ encode_u32 m ++ u))
    with (encode_u32 l ++ encode_u32 m ++ u).
  change (drop 8 (encode_u32 s ++ encode_u32 l ++ encode_u32 m ++ u))
    with (encode_u32 m ++ u).
  change (drop 12 (encode_u32 s ++ encode_u32 l ++ encode_u32 m ++ u)) with u.
  rewrite !decode_encode_u32.
  rewrite (Z.mod_small s), (Z.mod_small m) by lia.
  f_equal. unfold wrap_int, in_int, INT_MIN, INT_MAX in *.
  destruct (Z.lt_ge_cases l 0).
  - replace l with (l + 4294967296 + (-1) * 4294967296) at 1 by lia.
    rewrite Z.mod_add by lia. rewrite (Z.mod_small (l + 4294967296)) by lia.
    replace (l + 4294967296 + 2147483648) with (l + 2147483648 + 1 * 4294967296) by lia.
    rewrite Z.mod_add by lia. rewrite Z.mod_small by lia. lia.
  - rewrite (Z.mod_small l) by lia. rewrite Z.mod_small by lia. lia.
Qed.

(** ** [inode_create] as a run of cache operations *)

Lemma bytes_to_sectors_ceil (length : Z) :
  0 <= length <= INT_MAX ->
  let n := bytes_to_sectors length in
  DISK_SECTOR_SIZE * (n - 1) < length <= DISK_SECTOR_SIZE * n /\ 0 <= n.
Proof.
  unfold INT_MAX, bytes_to_sectors, DIV_ROUND_UP, wrap_uint, DISK_SECTOR_SIZE.
  intros H. cbv zeta.
  pose proof (Z.div_mod (length + 512 - 1) 512 ltac:(lia)).
  pose proof (Z.mod_pos_bound (length + 512 - 1) 512 eq_refl).
  rewrite (Z.mod_small ((length + 512 - 1) / 512)).
  - lia.
  - split; [apply Z.div_pos; lia|].
    apply Z.div_lt_upper_bound; lia.
Qed.

Lemma zero_sectors_run (fuel : nat) (start : Z) (n : nat) :
  forall (c : bcache) (i : nat),
  zero_sectors fuel c start (Z.of_nat i) n =
  run_ops fuel c
    ((fun j => CacheWrite (wrap_uint (start + Z.of_nat j)) zeros 0 DISK_SECTOR_SIZE)
       <$> seq i n).
Proof.
  induction n as [|n IH]; intros c i; [reflexivity|].
  simpl. destruct (_disk_write fuel c (wrap_uint (start + Z.of_nat i)) zeros 0
                     DISK_SECTOR_SIZE) as [c'|]; [|reflexivity].
  simpl. rewrite <- IH. f_equal. lia.
Qed.

Lemma inode_create_ops_in_sector (sector start length : Z) :
  Forall op_in_sector (inode_create_ops sector start length).
Proof.
  unfold inode_create_ops. apply Forall_cons. split.
  - unfold descriptor_op, op_in_sector. rewrite encode_inode_disk_length.
    unfold new_inode_disk. cbn [inode_disk.unused].
    rewrite length_replicate. unfold in_sector, DISK_SECTOR_SIZE. lia.
  - unfold zero_ops. apply Forall_fmap, Forall_forall. intros i _.
    unfold compose, op_in_sector, zeros. rewrite length_replicate.
    unfold in_sector, DISK_SECTOR_SIZE. lia.
Qed.

Lemma splice_full (buf src : list byte) :
  Z.of_nat (length buf) = DISK_SECTOR_SIZE -> Z.of_nat (length src) = DISK_SECTOR_SIZE ->
  splice buf 0 src DISK_SECTOR_SIZE = src.
Proof.
  intros Hb Hs. unfold splice. rewrite take_0. simpl.
  rewrite take_ge by lia. rewrite drop_ge by lia. apply app_nil_r.
Qed.

Lemma ideal_ops_other (ops : list cache_op) (m : Z -> list byte) (s : Z) :
  s ∉ op_sector <$> ops -> ideal_ops ops m s = m s.
Proof.
  revert m. induction ops as [|op ops IH]; intros m Hs; [reflexivity|].
  rewrite fmap_cons in Hs. apply not_elem_of_cons in Hs as [Hne Hs].
  simpl. rewrite (IH _ Hs).
  destruct op as [s0 start end_|s0 src start end_]; simpl in *; [reflexivity|].
  destruct (Z.eqb_spec s s0); [contradiction | reflexivity].
Qed.

Lemma ideal_ops_zero_writes (ops : list cache_op) (m : Z -> list byte) (s : Z) :
  Forall (fun op => op = CacheWrite (op_sector op) zeros 0 DISK_SECTOR_SIZE) ops ->
  (forall s, Z.of_nat (length (m s)) = DISK_SECTOR_SIZE) ->
  s ∈ op_sector <$> ops -> ideal_ops ops m s = zeros.
Proof.
  assert (Z.of_nat (length zeros) = DISK_SECTOR_SIZE) as Hz.
  { unfold zeros. rewrite length_replicate. unfold DISK_SECTOR_SIZE. lia. }
  revert m. induction ops as [|op ops IH]; intros m Hops Hm Hs.
  - rewrite fmap_nil in Hs. apply elem_of_nil in Hs. contradiction.
  - apply Forall_cons in Hops as [Hop Hops].
    assert (forall s, Z.of_nat (length (ideal_op op m s)) = DISK_SECTOR_SIZE) as Hm'.
    { intros s'. rewrite Hop. simpl. destruct (s' =? op_sector op); [|apply Hm].
      rewrite splice_full; [exact Hz | apply Hm | exact Hz]. }
    simpl. destruct (decide (s ∈ op_sector <$> ops)) as [Hin|Hout].
    + apply IH; assumption.
    + rewrite (ideal_ops_other _ _ _ Hout).
      rewrite fmap_cons in Hs. apply elem_of_cons in Hs as [->|Hin]; [|contradiction].
      rewrite Hop. simpl. rewrite Z.eqb_refl.
      apply splice_full; [apply Hm | exact Hz].
Qed.

Lemma zero_ops_sectors (start length : Z) :
  op_sector <$> zero_ops start (Z.to_nat (bytes_to_sectors length)) =
  data_sectors start length.
Proof.
  unfold zero_ops, data_sectors. rewrite <- list_fmap_compose. reflexivity.
Qed.

Lemma zero_ops_zero_writes (start : Z) (n : nat) :
  Forall (fun op => op = CacheWrite (op_sector op) zeros 0 DISK_SECTOR_SIZE)
         (zero_ops start n).
Proof. unfold zero_ops. apply Forall_fmap, Forall_forall. intros i _. reflexivity. Qed.

Lemma inode_create_run (fuel : nat) (c : bcache) (fm : Z -> option Z)
    (sector length start : Z) :
  0 <= length <= INT_MAX -> fm (bytes_to_sectors length) = Some start ->
  inode_create fuel c true fm sector length =
  (c' ← run_ops fuel c (inode_create_ops sector start length); Some (c', true)).
Proof.
  intros Hlen Hfm. unfold inode_create.
  destruct (Z.ltb_spec length 0); [lia|]. simpl. rewrite Hfm.
  unfold inode_create_ops. simpl.
  destruct (_disk_write fuel c sector _ 0 DISK_SECTOR_SIZE) as [c1|]; [|reflexivity].
  simpl.
  destruct (bytes_to_sectors_ceil length Hlen) as [_ Hn].
  destruct (Z.ltb_spec 0 (bytes_to_sectors length)) as [Hpos|Hzero].
  - rewrite (zero_sectors_run fuel start _ c1 0). reflexivity.
  - replace (bytes_to_sectors length) with 0 by lia. reflexivity.
Qed.

(** ** The claim about [inode_create] *)

(** C9, as the code has it.  [inode_create] asks the allocator for
    [bytes_to_sectors length] sectors, the quotient of [length] by the
    sector size rounded up.  If [calloc] or the allocator fails it returns
    false and leaves the cache and the device as they were.  Otherwise it
    returns true after writing, through the cache, first the descriptor
    (its start sector, [length] and [INODE_MAGIC], then zeros) to [sector]
    and then a sector of zeros to each data sector in turn; read back, the
    data sectors are zero and the descriptor sector decodes to the
    descriptor. *)
Theorem inode_create_descriptor_then_zeros (fuel : nat) (c : bcache)
    (calloc_ok : bool) (fm : Z -> option Z) (sector length : Z) :
  0 <= length <= INT_MAX ->
  let n := bytes_to_sectors length in
  DISK_SECTOR_SIZE * (n - 1) < length <= DISK_SECTOR_SIZE * n /\
  (calloc_ok = false \/ fm n = None ->
   inode_create fuel c calloc_ok fm sector length = Some (c, false)) /\
  (forall start, calloc_ok = true -> fm n = Some start ->
     inode_create fuel c calloc_ok fm sector length =
       (c' ← run_ops fuel c (inode_create_ops sector start length); Some (c', true)) /\
     (cache_inv c -> (65 <= fuel)%nat ->
      exists c',
        inode_create fuel c calloc_ok fm sector length = Some (c', true) /\
        cache_inv c' /\
        (forall s, real_sector s -> s ∈ data_sectors start length ->
           view c' s = zeros) /\
        (real_sector sector -> sector ∉ data_sectors start length ->
           view c' sector = encode_inode_disk (new_inode_disk start length))) /\
     (0 <= start < 4294967296 ->
      decode_inode_disk (encode_inode_disk (new_inode_disk start length)) =
      inode_disk.mk start length INODE_MAGIC (replicate 500 x00))).
Proof.
  intros Hlen. cbv zeta.
  split; [apply (bytes_to_sectors_ceil length Hlen)|]. split.
  - intros Hfail. unfold inode_create.
    destruct (Z.ltb_spec length 0); [lia|].
    destruct calloc_ok; [|reflexivity]. simpl.
    destruct Hfail as [Hfail| ->]; [discriminate | reflexivity].
  - intros start -> Hfm.
    pose proof (inode_create_run fuel c fm sector length start Hlen Hfm) as Hrun.
    split; [exact Hrun|]. split.
    + intros Hinv Hfuel.
      destruct (run_ops_sound fuel (inode_create_ops sector start length) c Hinv
                  (inode_create_ops_in_sector sector start length) Hfuel)
        as (c' & Hops & Hinv' & Hview).
      exists c'. rewrite Hrun, Hops. split; [reflexivity|]. split; [exact Hinv'|].
      assert (forall s, Z.of_nat (Datatypes.length
                  (ideal_op (descriptor_op sector start length) (view c) s))
                = DISK_SECTOR_SIZE) as Hsized.
      { apply ideal_op_sized; [|intros s; apply view_sized, Hinv].
        pose proof (inode_create_ops_in_sector sector start length) as H.
        apply Forall_cons in H as [H _]. exact H. }
      split.
      * intros s Hs Hin. rewrite Hview by assumption.
        unfold inode_create_ops. simpl.
        apply ideal_ops_zero_writes;
          [apply zero_ops_zero_writes | exact Hsized | rewrite zero_ops_sectors; exact Hin].
      * intros Hs Hout. rewrite Hview by assumption.
        unfold inode_create_ops. simpl.
        rewrite ideal_ops_other by (rewrite zero_ops_sectors; exact Hout).
        simpl. rewrite Z.eqb_refl.
        apply splice_full; [apply view_sized, Hinv|].
        rewrite encode_inode_disk_length. unfold new_inode_disk.
        cbn [inode_disk.unused]. rewrite length_replicate. reflexivity.
    + intros Hstart. apply decode_encode_inode_disk; simpl.
      * exact Hstart.
      * unfold in_int, INT_MIN, INT_MAX in *. lia.
      * unfold INODE_MAGIC. lia.
Qed.

Lemma inode_create_descriptor_then_zeros_witness :
  0 <= 1000 <= INT_MAX /\
  inode_create 65 (cache_init sample_garbage sample_disk) true (fun _ => Some 20) 10 1000 =
  (c' ← run_ops 65 (cache_init sample_garbage sample_disk) (inode_create_ops 10 20 1000);
   Some (c', true)).
Proof.
  assert (0 <= 1000 <= INT_MAX) as H by (unfold INT_MAX; lia).
  split; [exact H|].
  exact (proj1 (proj2 (proj2 (inode_create_descriptor_then_zeros 65
           (cache_init sample_garbage sample_disk) true (fun _ => Some 20) 10 1000 H))
           20 eq_refl eq_refl)).
Defined.

(** C9, as the specification words it, fails: zero-filling first and
    writing the descriptor last would make the device serve the data sector
    before the descriptor sector; the code fetches the descriptor sector
    first.  (A file of 512 bytes in sector 20, descriptor in sector 10, on a
    fresh cache.) *)
Lemma inode_create_order_counterexample :
  (disk_log ∘ filesys_disk ∘ fst) <$>
    inode_create 65 (cache_init sample_garbage sample_disk) true (fun _ => Some 20) 10 512
    = Some [DiskRead 10; DiskRead 20] /\
  (disk_log ∘ filesys_disk) <$>
    run_ops 65 (cache_init sample_garbage sample_disk) (inode_create_ops_spec 10 20 512)
    = Some [DiskRead 20; DiskRead 10] /\
  fst <$> inode_create 65 (cache_init sample_garbage sample_disk) true
            (fun _ => Some 20) 10 512
    <> run_ops 65 (cache_init sample_garbage sample_disk) (inode_create_ops_spec 10 20 512).
Proof.
  assert ((disk_log ∘ filesys_disk ∘ fst) <$>
            inode_create 65 (cache_init sample_garbage sample_disk) true
              (fun _ => Some 20) 10 512
          = Some [DiskRead 10; DiskRead 20]) as H1 by (vm_compute; reflexivity).
  assert ((disk_log ∘ filesys_disk) <$>
            run_ops 65 (cache_init sample_garbage sample_disk)
              (inode_create_ops_spec 10 20 512)
          = Some [DiskRead 20; DiskRead 10]) as H2 by (vm_compute; reflexivity).
  split; [exact H1|]. split; [exact H2|].
  intros Heq.
  assert ((disk_log ∘ filesys_disk) <$>
            (fst <$> inode_create 65 (cache_init sample_garbage sample_disk) true
                       (fun _ => Some 20) 10 512)
          = Some [DiskRead 20; DiskRead 10]) as H3 by (rewrite Heq; exact H2).
  rewrite <- option_fmap_compose in H3.
  rewrite H1 in H3. discriminate.
Qed.

(** ** The frame table *)

Lemma remove_pte_absent (pte : Z) (l : list Z) : pte ∉ l -> remove_pte pte l = l.
Proof.
  induction l as [|p l IH]; intros Hout; [reflexivity|].
  apply not_elem_of_cons in Hout as [Hne Hout]. simpl.
  destruct (Z.eqb_spec p pte); [congruence|]. rewrite IH by assumption. reflexivity.
Qed.

Lemma remove_pte_present (pte : Z) (l : list Z) :
  pte ∈ l -> l ≡ₚ pte :: remove_pte pte l.
Proof.
  induction l as [|p l IH]; intros Hin; [apply elem_of_nil in Hin; contradiction|].
  simpl. destruct (Z.eqb_spec p pte) as [->|Hne]; [reflexivity|].
  apply elem_of_cons in Hin as [->|Hin]; [contradiction|].
  rewrite (IH Hin) at 1. apply Permutation_swap.
Qed.

Lemma remove_pte_nil (pte : Z) (l : list Z) :
  l <> [] -> (remove_pte pte l = [] <-> l = [pte]).
Proof.
  intros Hl. destruct l as [|p l]; [contradiction|]. simpl.
  destruct (Z.eqb_spec p pte) as [->|Hne]; split; intros H; congruence.
Qed.

Lemma frame_init_inv : frames_inv frame_init.
Proof. intros kpage l H. simpl in H. rewrite lookup_empty in H. discriminate. Qed.

Lemma frame_get_page_inv (st st' : frames) (env : get_page_env) (r : option Z) :
  frames_inv st -> frame_get_page st env = Some (st', r) -> frames_inv st'.
Proof.
  intros Hinv. unfold frame_get_page.
  destruct (palloc_get_page env) as [kpage|]; [|intros [= <- _]; exact Hinv].
  destruct (install_page env); simpl; [|intros [= <- _]; exact Hinv].
  destruct (kpage_hash st !! kpage) as [l|] eqn:E.
  - intros [= <- _] k l' Hk. simpl in Hk.
    apply lookup_insert_Some in Hk as [[_ <-]|[_ Hk]]; [|eapply Hinv, Hk].
    destruct l; discriminate.
  - destruct (frame_table_push _ _) as [table|]; simpl; [|discriminate].
    intros [= <- _] k l' Hk. simpl in Hk.
    apply lookup_insert_Some in Hk as [[_ <-]|[_ Hk]]; [discriminate | eapply Hinv, Hk].
Qed.

Lemma frame_free_page_inv (st : frames) (pte page : Z) :
  frames_inv st -> frames_inv (frame_free_page st pte page).
Proof.
  intros Hinv. unfold frame_free_page.
  destruct (kpage_hash st !! page) as [l|] eqn:E; [|exact Hinv].
  destruct (remove_pte pte l) as [|q l'] eqn:R; intros k l0 Hk; simpl in Hk.
  - apply lookup_delete_Some in Hk as [_ Hk]. eapply Hinv, Hk.
  - apply lookup_insert_Some in Hk as [[_ <-]|[_ Hk]]; [discriminate | eapply Hinv, Hk].
Qed.

Lemma run_frame_op_inv (st : frames) (op : frame_op) :
  frames_inv st -> frames_inv (run_frame_op st op).
Proof.
  intros Hinv. destruct op as [env|pte page]; simpl.
  - destruct (frame_get_page st env) as [[st' r]|] eqn:E; [|exact Hinv].
    apply (frame_get_page_inv st st' env r Hinv E).
  - apply frame_free_page_inv, Hinv.
Qed.

Lemma run_frame_ops_inv (ops : list frame_op) (st : frames) :
  frames_inv st -> frames_inv (run_frame_ops st ops).
Proof.
  revert st. induction ops as [|op ops IH]; intros st Hinv; [exact Hinv|].
  simpl. apply IH, run_frame_op_inv, Hinv.
Qed.

(** C5.  In every state the frame table reaches from [frame_init], a page
    is in the index exactly when its reference set is not empty.  There,
    [frame_free_page (pte)] on an indexed page takes one occurrence of
    [pte] out of the reference set; if that leaves the set empty (which is
    the case exactly when [pte] was its only member) the page leaves the
    index and goes back to [palloc]; otherwise the frame stays, with the
    other references, and [palloc] is not called.  No other frame changes. *)
Theorem frame_index_iff_referenced (ops : list frame_op) :
  let st := run_frame_ops frame_init ops in
  (forall kpage, is_Some (kpage_hash st !! kpage) <-> pte_list_of st kpage <> []) /\
  (forall pte page l, kpage_hash st !! page = Some l ->
     let st' := frame_free_page st pte page in
     (pte ∈ l -> l ≡ₚ pte :: remove_pte pte l) /\
     (pte ∉ l -> remove_pte pte l = l) /\
     (remove_pte pte l = [] <-> l = [pte]) /\
     (remove_pte pte l = [] ->
        kpage_hash st' !! page = None /\
        palloc_log st' = palloc_log st ++ [PallocFree page]) /\
     (remove_pte pte l <> [] ->
        kpage_hash st' !! page = Some (remove_pte pte l) /\
        palloc_log st' = palloc_log st) /\
     (forall k, k <> page -> kpage_hash st' !! k = kpage_hash st !! k)) /\
  (forall pte page, kpage_hash st !! page = None -> frame_free_page st pte page = st).
Proof.
  cbv zeta. set (st := run_frame_ops frame_init ops).
  assert (frames_inv st) as Hinv by apply run_frame_ops_inv, frame_init_inv.
  split; [|split].
  - intros kpage. unfold pte_list_of.
    destruct (kpage_hash st !! kpage) as [l|] eqn:E; simpl.
    + split; [intros _; eapply Hinv, E | intros _; eexists; reflexivity].
    + split; [intros [? ?]; discriminate | intros H; contradiction].
  - intros pte page l Hl.
    split; [apply remove_pte_present|]. split; [apply remove_pte_absent|].
    split; [apply remove_pte_nil; eapply Hinv, Hl|].
    unfold frame_free_page. rewrite Hl.
    split; [|split].
    + intros ->. simpl. split; [apply lookup_delete_eq | reflexivity].
    + intros Hne. destruct (remove_pte pte l) as [|q l'] eqn:R; [contradiction|].
      simpl. split; [apply lookup_insert_eq | reflexivity].
    + intros k Hk. destruct (remove_pte pte l) as [|q l'] eqn:R; simpl.
      * apply lookup_delete_ne. congruence.
      * apply lookup_insert_ne. congruence.
  - intros pte page Hnone. unfold frame_free_page. rewrite Hnone. reflexivity.
Qed.

(** C8.  [frame_get_page] returns the null pointer when [palloc_get_page]
    does, without touching anything; when the page is obtained but
    [install_page] fails, it returns the null pointer after giving the page
    back with [palloc_free_page]; and whenever it returns the null pointer
    the index and the frame list are as before and every page obtained has
    been given back.  Both failure paths are defined in every state. *)
Theorem frame_get_page_failure (st : frames) (env : get_page_env) :
  (palloc_get_page env = None -> frame_get_page st env = Some (st, None)) /\
  (forall kpage, palloc_get_page env = Some kpage -> install_page env = false ->
     frame_get_page st env =
       Some (mkFrames (frame_table st) (kpage_hash st)
                      (palloc_log st ++ [PallocGet kpage; PallocFree kpage]), None)) /\
  (forall st', frame_get_page st env = Some (st', None) ->
     frame_table st' = frame_table st /\ kpage_hash st' = kpage_hash st /\
     (palloc_log st' = palloc_log st \/
      exists kpage, palloc_log st' = palloc_log st ++ [PallocGet kpage; PallocFree kpage])).
Proof.
  split; [|split].
  - intros H. unfold frame_get_page. rewrite H. reflexivity.
  - intros kpage H Hinst. unfold frame_get_page. rewrite H, Hinst. simpl.
    rewrite <- app_assoc. reflexivity.
  - intros st'. unfold frame_get_page.
    destruct (palloc_get_page env) as [kpage|].
    + destruct (install_page env); simpl.
      * destruct (kpage_hash st !! kpage); [intros [= _ ?]; discriminate|].
        destruct (frame_table_push _ _); simpl; [intros [= _ ?]|]; discriminate.
      * intros [= <-]. simpl. split; [reflexivity|]. split; [reflexivity|].
        right. exists kpage. rewrite <- app_assoc. reflexivity.
    + intros [= <-]. auto.
Qed.

Lemma frame_index_iff_referenced_witness :
  kpage_hash (run_frame_ops frame_init sample_frame_ops) !! 8192 = Some [11; 13] /\
  kpage_hash (frame_free_page (run_frame_ops frame_init sample_frame_ops) 11 8192) !! 8192
    = Some [13] /\
  palloc_log (frame_free_page (run_frame_ops frame_init sample_frame_ops) 11 8192)
    = palloc_log (run_frame_ops frame_init sample_frame_ops).
Proof.
  assert (kpage_hash (run_frame_ops frame_init sample_frame_ops) !! 8192 = Some [11; 13])
    as H by reflexivity.
  split; [exact H|].
  destruct (frame_index_iff_referenced sample_frame_ops) as (_ & Hfree & _).
  destruct (Hfree 11 8192 [11; 13] H) as (_ & _ & _ & _ & Hstay & _).
  apply Hstay. discriminate.
Defined.

Lemma frame_get_page_failure_witness :
  install_page (mkEnv (Some 8192) (Some 4096) true 11) = false /\
  frame_get_page frame_init (mkEnv (Some 8192) (Some 4096) true 11) =
    Some (mkFrames [] ∅ [PallocGet 8192; PallocFree 8192], None).
Proof.
  split; [reflexivity|].
  exact (proj1 (proj2 (frame_get_page_failure frame_init
                         (mkEnv (Some 8192) (Some 4096) true 11)))
           8192 eq_refl eq_refl).
Defined.

(** ** Opening and closing inodes *)

Lemma find_open_found (h : gmap Z inode.t) (l : list Z) (S : Z) (p : Z) (ino : inode.t) :
  (forall q, q ∈ l -> is_Some (h !! q)) ->
  (forall q iq, q ∈ l -> h !! q = Some iq -> inode.sector iq = S -> q = p) ->
  p ∈ l -> h !! p = Some ino -> inode.sector ino = S ->
  find_open h l S = Some (Some p).
Proof.
  intros Hlive Huniq Hin Hp Hs. induction l as [|q l IH].
  - apply elem_of_nil in Hin. contradiction.
  - simpl. destruct (Hlive q) as [iq Hq]; [left|]. rewrite Hq. simpl.
    destruct (Z.eqb_spec (inode.sector iq) S) as [Heq|Hne].
    + rewrite (Huniq q iq); [reflexivity | left | exact Hq | exact Heq].
    + apply IH.
      * intros q' Hq'. apply Hlive. right. exact Hq'.
      * intros q' iq' Hq'. apply Huniq. right. exact Hq'.
      * apply elem_of_cons in Hin as [->|Hin]; [|exact Hin]. congruence.
Qed.

Lemma find_open_fresh (h : gmap Z inode.t) (l : list Z) (S : Z) :
  (forall q, q ∈ l -> is_Some (h !! q)) ->
  (forall q iq, q ∈ l -> h !! q = Some iq -> inode.sector iq <> S) ->
  find_open h l S = Some None.
Proof.
  intros Hlive Hnone. induction l as [|q l IH]; [reflexivity|].
  simpl. destruct (Hlive q) as [iq Hq]; [left|]. rewrite Hq. simpl.
  destruct (Z.eqb_spec (inode.sector iq) S) as [Heq|Hne].
  - exfalso. eapply Hnone; [left | exact Hq | exact Heq].
  - apply IH.
    + intros q' Hq'. apply Hlive. right. exact Hq'.
    + intros q' iq' Hq'. apply Hnone. right. exact Hq'.
Qed.

Lemma list_remove_elem_gone (p : Z) (l : list Z) :
  NoDup l -> p ∉ list_remove_elem p l.
Proof.
  induction l as [|q l IH]; intros Hnd; [apply not_elem_of_nil|].
  apply NoDup_cons in Hnd as [Hq Hnd]. simpl.
  destruct (Z.eqb_spec q p) as [->|Hne]; [exact Hq|].
  apply not_elem_of_cons. split; [congruence | apply IH, Hnd].
Qed.

Lemma list_remove_elem_other (p q : Z) (l : list Z) :
  q <> p -> (q ∈ list_remove_elem p l <-> q ∈ l).
Proof.
  intros Hne. induction l as [|r l IH]; [reflexivity|]. simpl.
  destruct (Z.eqb_spec r p) as [->|Hrp].
  - rewrite elem_of_cons. split; [auto | intros [?|?]; [congruence | assumption]].
  - rewrite !elem_of_cons, IH. reflexivity.
Qed.

(** C3.  For a file system [fs] and a descriptor sector [S]:
    - if an inode for [S] is registered, at address [p], [inode_open]
      returns [p], its [inode_get_inumber] is [S], and its open count is one
      higher than before; nothing else changes;
    - if none is registered, [inode_open] returns the null pointer when
      [malloc] fails and otherwise puts a new inode at the front of the
      list, with open count 1, not removed, writes allowed and the
      descriptor the cache shows for [S];
    - [inode_reopen] adds one to the open count and [inode_close] takes one
      off, and neither changes another field of the inode; when that makes
      the count zero the inode leaves the list and its memory is freed, and
      if it was marked removed the allocator first sees the release of the
      descriptor sector (1 sector) and of the data sectors
      ([bytes_to_sectors length] of them, the length over the sector size
      rounded up). *)
Theorem inode_open_close_counts (fuel : nat) (fs : filesys) (S : Z) :
  (forall p ino, registry_ok fs -> p ∈ open_inodes fs ->
     inodes fs !! p = Some ino -> inode.sector ino = S ->
     INT_MIN <= inode.open_cnt ino < INT_MAX ->
     forall malloc_result,
     let ino' := inode.mk S (inode.open_cnt ino + 1) (inode.removed ino)
                          (inode.deny_write_cnt ino) (inode.data ino) in
     let fs' := mkFs (open_inodes fs) (<[p := ino']> (inodes fs))
                     (cache fs) (fs_log fs) in
     inode_open fuel fs malloc_result S = Some (fs', Some p) /\
     inode_get_inumber fs' p = Some S /\
     inode.open_cnt <$> inodes fs' !! p = Some (inode.open_cnt ino + 1)) /\
  ((forall q, q ∈ open_inodes fs -> is_Some (inodes fs !! q)) ->
   (forall q iq, q ∈ open_inodes fs -> inodes fs !! q = Some iq -> inode.sector iq <> S) ->
   cache_inv (cache fs) -> (65 <= fuel)%nat ->
   inode_open fuel fs None S = Some (fs, None) /\
   forall p, exists c',
     let fs' := mkFs (p :: open_inodes fs)
                     (<[p := inode.mk S 1 false 0 (decode_inode_disk (view (cache fs) S))]>
                        (inodes fs))
                     c' (fs_log fs) in
     inode_open fuel fs (Some p) S = Some (fs', Some p) /\
     inode_get_inumber fs' p = Some S /\
     inode.open_cnt <$> inodes fs' !! p = Some 1 /\ cache_inv c') /\
  (forall p ino, inodes fs !! p = Some ino ->
     INT_MIN < inode.open_cnt ino < INT_MAX ->
     let with_cnt n := inode.mk (inode.sector ino) n (inode.removed ino)
                                (inode.deny_write_cnt ino) (inode.data ino) in
     inode_reopen fs (Some p) =
       Some (mkFs (open_inodes fs) (<[p := with_cnt (inode.open_cnt ino + 1)]> (inodes fs))
                  (cache fs) (fs_log fs), Some p) /\
     (inode.open_cnt ino <> 1 ->
      inode_close fs (Some p) =
        Some (mkFs (open_inodes fs) (<[p := with_cnt (inode.open_cnt ino - 1)]> (inodes fs))
                   (cache fs) (fs_log fs))) /\
     (inode.open_cnt ino = 1 ->
      exists fs',
        inode_close fs (Some p) = Some fs' /\
        open_inodes fs' = list_remove_elem p (open_inodes fs) /\
        (NoDup (open_inodes fs) -> p ∉ open_inodes fs') /\
        inodes fs' !! p = None /\ cache fs' = cache fs /\
        (inode.removed ino = true ->
         fs_log fs' = fs_log fs ++
           [FreeMapRelease (inode.sector ino) 1;
            FreeMapRelease (inode_disk.start (inode.data ino))
                           (bytes_to_sectors (inode_length ino));
            MemFree p]) /\
        (inode.removed ino = false -> fs_log fs' = fs_log fs ++ [MemFree p])) /\
     (0 <= inode_length ino <= INT_MAX ->
      DISK_SECTOR_SIZE * (bytes_to_sectors (inode_length ino) - 1) < inode_length ino
        <= DISK_SECTOR_SIZE * bytes_to_sectors (inode_length ino))).
Proof.
  split; [|split].
  - intros p ino (Hnd & Hlive & Huniq) Hin Hp Hs Hcnt malloc_result. cbv zeta.
    split; [|split].
    + unfold inode_open.
      rewrite (find_open_found (inodes fs) (open_inodes fs) S p ino); try assumption.
      * simpl. rewrite Hp. simpl.
        rewrite wrap_int_id by (unfold in_int, INT_MIN, INT_MAX in *; lia).
        rewrite <- Hs. reflexivity.
      * intros q iq Hq Hiq Hsq. apply (Huniq q p iq ino); congruence.
    + unfold inode_get_inumber. simpl. rewrite lookup_insert_eq. reflexivity.
    + simpl. rewrite lookup_insert_eq. reflexivity.
  - intros Hlive Hnone Hinv Hfuel.
    pose proof (find_open_fresh (inodes fs) (open_inodes fs) S Hlive Hnone) as Hfind.
    split.
    + unfold inode_open. rewrite Hfind. reflexivity.
    + intros p.
      assert (in_sector 0 DISK_SECTOR_SIZE) as Hrange
        by (unfold in_sector, DISK_SECTOR_SIZE; lia).
      destruct (_disk_read_sound fuel (cache fs) S 0 DISK_SECTOR_SIZE Hinv Hrange Hfuel)
        as (c' & Hread & Hinv' & _).
      exists c'. cbv zeta. unfold inode_open. rewrite Hfind. simpl. rewrite Hread. simpl.
      split; [|split; [|split; [|exact Hinv']]].
      * rewrite drop_0, take_ge; [reflexivity|].
        pose proof (view_sized (cache fs) S Hinv). lia.
      * unfold inode_get_inumber. simpl. rewrite lookup_insert_eq. reflexivity.
      * rewrite lookup_insert_eq. reflexivity.
  - intros p ino Hp Hcnt. cbv zeta. split; [|split; [|split]].
    + simpl. rewrite Hp. simpl.
      rewrite wrap_int_id by (unfold in_int, INT_MIN, INT_MAX in *; lia).
      reflexivity.
    + intros Hne. simpl. rewrite Hp. simpl.
      rewrite wrap_int_id by (unfold in_int, INT_MIN, INT_MAX in *; lia).
      destruct (Z.eqb_spec (inode.open_cnt ino - 1) 0); [lia | reflexivity].
    + intros Hone. simpl. rewrite Hp. simpl. rewrite Hone. simpl.
      eexists. split; [reflexivity|]. simpl.
      split; [reflexivity|]. split; [apply list_remove_elem_gone|].
      split; [apply lookup_delete_eq|]. split; [reflexivity|].
      split; intros ->; reflexivity.
    + apply bytes_to_sectors_ceil.
Qed.

Lemma sample_fs_registry_ok : registry_ok sample_fs.
Proof.
  split; [apply NoDup_singleton|]. split.
  - intros p Hp. apply list_elem_of_singleton in Hp as ->. eexists. reflexivity.
  - intros p q ip iq Hp Hq _ _ _.
    apply list_elem_of_singleton in Hp, Hq. congruence.
Qed.

(** The sample inode is opened a second time, closed (count 2 to 1, nothing
    released) and closed again (released and freed). *)
Lemma inode_open_close_counts_witness :
  exists fs1 fs2 fs3,
    inode_open 65 sample_fs None 10 = Some (fs1, Some 4096) /\
    inodes fs1 !! 4096 = Some (inode.mk 10 2 true 0 (inode.data sample_inode)) /\
    inode_close fs1 (Some 4096) = Some fs2 /\
    inodes fs2 !! 4096 = Some (inode.mk 10 1 true 0 (inode.data sample_inode)) /\
    open_inodes fs2 = [4096] /\ fs_log fs2 = [] /\
    inode_close fs2 (Some 4096) = Some fs3 /\
    open_inodes fs3 = [] /\
    inodes fs3 !! 4096 = None /\
    fs_log fs3 = [FreeMapRelease 10 1; FreeMapRelease 20 2; MemFree 4096].
Proof.
  assert (INT_MIN <= 1 < INT_MAX) as Hr1 by (unfold INT_MIN, INT_MAX; lia).
  assert (INT_MIN < 2 < INT_MAX) as Hr2 by (unfold INT_MIN, INT_MAX; lia).
  assert (INT_MIN < 1 < INT_MAX) as Hr3 by (unfold INT_MIN, INT_MAX; lia).
  destruct (proj1 (inode_open_close_counts 65 sample_fs 10) 4096 sample_inode_removed
              sample_fs_registry_ok (list_elem_of_here _ _) eq_refl eq_refl Hr1 None)
    as (Hopen & _ & _).
  cbv zeta in Hopen.
  match type of Hopen with _ = Some (?f, _) => set (fs1 := f) in * end.
  destruct (proj2 (proj2 (inode_open_close_counts 65 fs1 10)) 4096
              (inode.mk 10 2 true 0 (inode.data sample_inode)) (lookup_insert_eq _ _ _) Hr2)
    as (_ & Hclose1 & _).
  cbv zeta in Hclose1. specialize (Hclose1 ltac:(discriminate)).
  match type of Hclose1 with _ = Some ?f => set (fs2 := f) in * end.
  destruct (proj2 (proj2 (inode_open_close_counts 65 fs2 10)) 4096
              (inode.mk 10 1 true 0 (inode.data sample_inode)) (lookup_insert_eq _ _ _) Hr3)
    as (_ & _ & Hlast & _).
  destruct (Hlast eq_refl) as (fs3 & Hclose2 & Hlist & _ & Hgone & _ & Hlog & _).
  exists fs1, fs2, fs3.
  split; [exact Hopen|]. split; [apply lookup_insert_eq|].
  split; [exact Hclose1|]. split; [apply lookup_insert_eq|].
  split; [reflexivity|]. split; [reflexivity|].
  split; [exact Hclose2|]. split; [exact Hlist|]. split; [exact Hgone|].
  exact (Hlog eq_refl).
Defined.

(** ** The open-inode list stays well formed *)

Lemma registry_ok_init (garbage : nat -> list byte) (d : disk) :
  registry_ok (inode_init garbage d).
Proof.
  split; [constructor|]. split.
  - intros p Hp. apply elem_of_nil in Hp. contradiction.
  - intros p q ip iq Hp. apply elem_of_nil in Hp. contradiction.
Qed.

Lemma registry_ok_update (fs : filesys) (p : Z) (ino ino' : inode.t) (c : bcache)
    (log : list fs_event) :
  registry_ok fs -> inodes fs !! p = Some ino -> inode.sector ino' = inode.sector ino ->
  registry_ok (mkFs (open_inodes fs) (<[p := ino']> (inodes fs)) c log).
Proof.
  intros (Hnd & Hlive & Huniq) Hp Hs. split; [exact Hnd|]. split; simpl.
  - intros q Hq. destruct (decide (p = q)) as [->|Hne].
    + rewrite lookup_insert_eq. eexists. reflexivity.
    + rewrite lookup_insert_ne by assumption. apply Hlive, Hq.
  - intros q1 q2 i1 i2 Hq1 Hq2 Hi1 Hi2 Heq.
    assert (forall q i, <[p := ino']> (inodes fs) !! q = Some i ->
              exists i0, inodes fs !! q = Some i0 /\ inode.sector i0 = inode.sector i)
      as Hold.
    { intros q i Hi. apply lookup_insert_Some in Hi as [[<- <-]|[_ Hi]]; eauto. }
    destruct (Hold _ _ Hi1) as (j1 & Hj1 & Hs1).
    destruct (Hold _ _ Hi2) as (j2 & Hj2 & Hs2).
    apply (Huniq q1 q2 j1 j2); try assumption. congruence.
Qed.

Lemma find_open_Some_inv (h : gmap Z inode.t) (l : list Z) (S p : Z) :
  find_open h l S = Some (Some p) ->
  p ∈ l /\ exists ino, h !! p = Some ino /\ inode.sector ino = S.
Proof.
  induction l as [|q l IH]; simpl; [discriminate|].
  destruct (h !! q) as [iq|] eqn:Hq; simpl; [|discriminate].
  destruct (Z.eqb_spec (inode.sector iq) S) as [Heq|Hne].
  - intros [= <-]. split; [left | eauto].
  - intros H. destruct (IH H) as [Hin Hino]. split; [right; exact Hin | exact Hino].
Qed.

Lemma find_open_None_inv (h : gmap Z inode.t) (l : list Z) (S : Z) :
  find_open h l S = Some None ->
  forall q iq, q ∈ l -> h !! q = Some iq -> inode.sector iq <> S.
Proof.
  induction l as [|q l IH]; simpl; intros H q' iq' Hin Hq'.
  - apply elem_of_nil in Hin. contradiction.
  - destruct (h !! q) as [iq|] eqn:Hq; simpl in H; [|discriminate].
    destruct (Z.eqb_spec (inode.sector iq) S) as [Heq|Hne]; [discriminate|].
    apply elem_of_cons in Hin as [->|Hin]; [congruence | eapply IH; eauto].
Qed.

(** [inode_open] keeps the list well formed as long as [malloc] answers
    with memory that is not in use. *)
Lemma inode_open_registry_ok (fuel : nat) (fs fs' : filesys) (malloc_result : option Z)
    (S : Z) (handle : option Z) :
  registry_ok fs ->
  (forall p, malloc_result = Some p -> inodes fs !! p = None) ->
  inode_open fuel fs malloc_result S = Some (fs', handle) ->
  registry_ok fs'.
Proof.
  intros Hok Hfresh Hopen. unfold inode_open in Hopen.
  destruct (find_open (inodes fs) (open_inodes fs) S) as [[p|]|] eqn:Hfind;
    simpl in Hopen; [| |discriminate].
  - apply find_open_Some_inv in Hfind as (_ & ino & Hp & _).
    rewrite Hp in Hopen. simpl in Hopen. injection Hopen as <- _.
    apply (registry_ok_update fs p ino); [exact Hok | exact Hp | reflexivity].
  - destruct malloc_result as [p|]; [|injection Hopen as <- _; exact Hok].
    destruct (_disk_read fuel (cache fs) S 0 DISK_SECTOR_SIZE) as [[c' bytes]|];
      simpl in Hopen; [|discriminate].
    injection Hopen as <- _.
    pose proof (Hfresh p eq_refl) as Hp.
    pose proof (find_open_None_inv _ _ _ Hfind) as Hnone.
    destruct Hok as (Hnd & Hlive & Huniq).
    assert (p ∉ open_inodes fs) as Hout.
    { intros Hin. destruct (Hlive p Hin) as [? ?]. congruence. }
    split; simpl; [apply NoDup_cons; split; assumption|]. split.
    + intros q Hq. destruct (decide (p = q)) as [->|Hne].
      * rewrite lookup_insert_eq. eexists. reflexivity.
      * rewrite lookup_insert_ne by assumption.
        apply elem_of_cons in Hq as [->|Hq]; [congruence | apply Hlive, Hq].
    + intros q1 q2 i1 i2 Hq1 Hq2 Hi1 Hi2 Heq.
      apply lookup_insert_Some in Hi1 as [[<- <-]|[Hn1 Hi1]];
        apply lookup_insert_Some in Hi2 as [[<- <-]|[Hn2 Hi2]];
        try reflexivity.
      * apply elem_of_cons in Hq2 as [->|Hq2]; [congruence|].
        exfalso. apply (Hnone q2 i2 Hq2 Hi2). simpl in Heq. congruence.
      * apply elem_of_cons in Hq1 as [->|Hq1]; [congruence|].
        exfalso. apply (Hnone q1 i1 Hq1 Hi1). simpl in Heq. congruence.
      * apply elem_of_cons in Hq1 as [->|Hq1]; [congruence|].
        apply elem_of_cons in Hq2 as [->|Hq2]; [congruence|].
        apply (Huniq q1 q2 i1 i2); assumption.
Qed.

Lemma inode_close_registry_ok (fs fs' : filesys) (handle : option Z) :
  registry_ok fs -> inode_close fs handle = Some fs' -> registry_ok fs'.
Proof.
  intros Hok Hclose. destruct handle as [p|]; simpl in Hclose;
    [|injection Hclose as <-; exact Hok].
  destruct (inodes fs !! p) as [ino|] eqn:Hp; simpl in Hclose; [|discriminate].
  destruct (wrap_int (inode.open_cnt ino - 1) =? 0).
  - injection Hclose as <-. destruct Hok as (Hnd & Hlive & Huniq).
    pose proof (list_remove_elem_gone p (open_inodes fs) Hnd) as Hgone.
    assert (forall q, q ∈ list_remove_elem p (open_inodes fs) ->
              q <> p /\ q ∈ open_inodes fs) as Hsub.
    { intros q Hq. assert (q <> p) as Hne by (intros ->; contradiction).
      split; [exact Hne | apply (list_remove_elem_other p q _ Hne), Hq]. }
    split; simpl; [|split].
    + clear -Hnd. induction (open_inodes fs) as [|q l IH]; [constructor|].
      apply NoDup_cons in Hnd as [Hq Hnd]. simpl.
      destruct (Z.eqb_spec q p) as [->|Hne]; [exact Hnd|].
      apply NoDup_cons. split; [|apply IH, Hnd].
      intros Hin. apply Hq. apply (list_remove_elem_other p q l Hne), Hin.
    + intros q Hq. destruct (Hsub q Hq) as [Hne Hin].
      rewrite lookup_delete_ne by congruence. apply Hlive, Hin.
    + intros q1 q2 i1 i2 Hq1 Hq2 Hi1 Hi2 Heq.
      destruct (Hsub q1 Hq1) as [Hn1 Hin1]. destruct (Hsub q2 Hq2) as [Hn2 Hin2].
      rewrite lookup_delete_ne in Hi1 by congruence.
      rewrite lookup_delete_ne in Hi2 by congruence.
      apply (Huniq q1 q2 i1 i2); assumption.
  - injection Hclose as <-.
    apply (registry_ok_update fs p ino); [exact Hok | exact Hp | reflexivity].
Qed.

(** ** The model at work *)

(** 65 sectors written through a 64-slot cache: the write to sector 64
    finds every [access] flag set, clears them all and evicts sector 0,
    which goes to the device; reading sector 0 again evicts sector 1 and
    returns the byte written first. *)
Example sample_run_evicts :
  (c ← run_ops 65 (cache_init sample_garbage sample_disk) sample_ops;
   '(c', out) ← _disk_read 65 c 0 2 3;
   Some (out, next_BC_to_evict c',
         (fun e => match e with DiskRead s => (false, s) | DiskWrite s _ => (true, s) end)
           <$> drop 63 (disk_log (filesys_disk c'))))
  = Some ([x00; byte_of_Z 100; x00], 2,
          [(false, 63); (true, 0); (false, 64); (true, 1); (false, 0)]).
Proof. vm_compute. reflexivity. Qed.

(** A file of 1000 bytes from sector 20 on: 600 bytes written at offset 0
    touch two sectors, and reading them back returns what was written. *)
Example sample_write_then_read :
  ('(c, n) ← inode_write_at 65 (cache_init sample_garbage sample_disk) sample_inode
                (replicate 600 x2a) 600 0;
   '(c', out, m) ← inode_read_at 65 c sample_inode 600 0;
   Some (n, m, out, resident c'))
  = Some (600, 600, replicate 600 x2a, [20; 21]).
Proof. vm_compute. reflexivity. Qed.

(** The marker is not a sector: asked for [(disk_sector_t) -1], the first
    loop of [_disk_read] stops at an unused slot and hands out what
    [malloc] left in its buffer.  This is why [read_returns_last_write]
    speaks of sectors of the device only. *)
Example marker_is_not_a_sector :
  snd <$> _disk_read 65 (cache_init sample_garbage sample_disk) NO_SECTOR 0 2
  = Some [xaa; xaa].
Proof. vm_compute. reflexivity. Qed.

(** ** Which slot the claim loop takes *)

Lemma mod_64_near (x : Z) :
  -64 <= x < 64 -> x mod 64 = if x <? 0 then x + 64 else x.
Proof.
  intros H. destruct (Z.ltb_spec x 0).
  - rewrite <- (Z.mod_add x 1 64) by lia. apply Z.mod_small. lia.
  - apply Z.mod_small. lia.
Qed.

Lemma rounds_to_skip (c : bcache) (bc : BC) (i : nat) :
  cache_shape c -> (i < 64)%nat -> Z.of_nat i <> next_BC_to_evict c ->
  rounds_to (mkCache (<[Z.to_nat (next_BC_to_evict c) := bc]> (BClist c))
                     (Z.rem (next_BC_to_evict c + 1) BC_SLOTS) (filesys_disk c)) i
  = rounds_to c i - 1 /\ 1 <= rounds_to c i < 64.
Proof.
  intros [_ Hcur] Hi Hne. unfold rounds_to. simpl.
  destruct (cursor_next _ Hcur) as [_ ->]. unfold BC_SLOTS in *.
  rewrite (mod_64_near (Z.of_nat i - next_BC_to_evict c)) by lia.
  destruct (Z.eq_dec (next_BC_to_evict c) 63) as [E|E].
  - rewrite E in *. change ((63 + 1) mod 64) with 0.
    rewrite mod_64_near by lia.
    destruct (Z.ltb_spec (Z.of_nat i - 0) 0); destruct (Z.ltb_spec (Z.of_nat i - 63) 0); lia.
  - rewrite (Z.mod_small (next_BC_to_evict c + 1)) by lia.
    rewrite mod_64_near by lia.
    destruct (Z.ltb_spec (Z.of_nat i - (next_BC_to_evict c + 1)) 0);
      destruct (Z.ltb_spec (Z.of_nat i - next_BC_to_evict c) 0); lia.
Qed.

Lemma rounds_to_cursor (c : bcache) (i : nat) :
  cache_shape c -> (i < 64)%nat ->
  (rounds_to c i = 0 <-> Z.of_nat i = next_BC_to_evict c) /\ 0 <= rounds_to c i < 64.
Proof.
  intros [_ Hcur] Hi. unfold rounds_to, BC_SLOTS in *.
  rewrite mod_64_near by lia.
  destruct (Z.ltb_spec (Z.of_nat i - next_BC_to_evict c) 0); lia.
Qed.

Lemma rounds_to_behind (c : bcache) (bc : BC) :
  cache_shape c ->
  rounds_to (mkCache (<[Z.to_nat (next_BC_to_evict c) := bc]> (BClist c))
                     (Z.rem (next_BC_to_evict c + 1) BC_SLOTS) (filesys_disk c))
            (Z.to_nat (next_BC_to_evict c)) = 63.
Proof.
  intros [_ Hcur]. unfold rounds_to. simpl.
  destruct (cursor_next _ Hcur) as [_ ->]. unfold BC_SLOTS in *.
  rewrite Z2Nat.id by lia.
  destruct (Z.eq_dec (next_BC_to_evict c) 63) as [E|E].
  - rewrite E. reflexivity.
  - rewrite (Z.mod_small (next_BC_to_evict c + 1)) by lia.
    rewrite mod_64_near by lia.
    destruct (Z.ltb_spec (next_BC_to_evict c - (next_BC_to_evict c + 1)) 0); lia.
Qed.

(** The loop takes the first slot, from the cursor on, that is unallocated
    or has [access] clear.  The slots it passed have lost [access]; all
    others are as they were. *)
Lemma clock_claim_first (load : BC -> list byte -> BC) (fuel : nat) :
  forall (c : bcache) (sec_no : Z) (u : nat) (bu : BC),
  cache_shape c -> BClist c !! u = Some bu -> claimable bu = true ->
  (forall i b, BClist c !! i = Some b -> rounds_to c i < rounds_to c u ->
     claimable b = false) ->
  rounds_to c u < Z.of_nat fuel ->
  exists c',
    clock_claim load fuel c sec_no = Some (c', u) /\
    next_BC_to_evict c' = (Z.of_nat u + 1) mod BC_SLOTS /\
    filesys_disk c' = (disk_read (write_back (filesys_disk c) bu) sec_no).1 /\
    BClist c' !! u = Some (load bu (sectors (write_back (filesys_disk c) bu) sec_no)) /\
    forall i b, i <> u -> BClist c !! i = Some b ->
      BClist c' !! i =
      Some (if rounds_to c i <? rounds_to c u then set_access b false else b).
Proof.
  induction fuel as [|fuel IH]; intros c sec_no u bu Hshape Hbu Hcl Hfirst Hfuel.
  { pose proof (lookup_lt_Some _ _ _ Hbu) as Hu. rewrite (proj1 Hshape) in Hu.
    destruct (rounds_to_cursor c u Hshape Hu) as [_ Hb]. lia. }
  pose proof (lookup_lt_Some _ _ _ Hbu) as Hu. rewrite (proj1 Hshape) in Hu.
  change (Z.to_nat BC_SLOTS) with 64%nat in Hu.
  destruct (slot_at_shape c Hshape) as [bc Hbc].
  simpl. rewrite Hbc. simpl.
  apply slot_at_Some in Hbc as [Hi Hbc].
  set (k := Z.to_nat (next_BC_to_evict c)) in *.
  assert ((k < 64)%nat /\ Z.of_nat k = next_BC_to_evict c) as [Hk Hkz].
  { destruct Hshape as [_ Hcur]. unfold BC_SLOTS in Hcur. subst k. lia. }
  destruct (rounds_to_cursor c k Hshape Hk) as [[_ Hk0] _].
  specialize (Hk0 Hkz).
  destruct (claimable bc) eqn:Hc.
  - assert (u = k) as ->.
    { destruct (decide (u = k)) as [|Hne]; [assumption|]. exfalso.
      destruct (rounds_to_cursor c u Hshape Hu) as [Hz Hb].
      assert (rounds_to c u <> 0) by (rewrite Hz; lia).
      rewrite (Hfirst k bc Hbc) in Hc; [discriminate | lia]. }
    rewrite Hbc in Hbu. injection Hbu as ->.
    eexists. split; [reflexivity|]. simpl.
    split; [rewrite Hkz; apply cursor_next, Hshape|].
    split; [reflexivity|].
    split; [apply list_lookup_insert_eq; rewrite (proj1 Hshape); exact Hk|].
    intros i b Hne Hb. rewrite list_lookup_insert_ne by congruence.
    rewrite Hb, Hk0.
    assert (0 <= rounds_to c i) as Hge.
    { unfold rounds_to, BC_SLOTS. apply Z.mod_pos_bound. lia. }
    destruct (Z.ltb_spec (rounds_to c i) 0); [lia | reflexivity].
  - assert (u <> k) as Hne by (intros ->; congruence).
    assert (Z.of_nat u <> next_BC_to_evict c) as Hnez by lia.
    destruct (rounds_to_skip c (set_access bc false) u Hshape Hu Hnez) as [Hru Hrub].
    fold k in Hru.
    destruct (IH (mkCache (<[k := set_access bc false]> (BClist c))
                          (Z.rem (next_BC_to_evict c + 1) BC_SLOTS) (filesys_disk c))
                 sec_no u bu) as (c' & Hrun & Hnext & Hdisk & Hslot & Hrest).
    + apply cache_shape_skip, Hshape.
    + simpl. rewrite list_lookup_insert_ne by congruence. exact Hbu.
    + exact Hcl.
    + simpl. intros i b Hb Hlt.
      pose proof (lookup_lt_Some _ _ _ Hb) as Hil.
      rewrite length_insert, (proj1 Hshape) in Hil.
      change (Z.to_nat BC_SLOTS) with 64%nat in Hil.
      destruct (decide (i = k)) as [->|Hik].
      * exfalso. pose proof (rounds_to_behind c (set_access bc false) Hshape) as H63.
        fold k in H63. lia.
      * rewrite list_lookup_insert_ne in Hb by congruence.
        assert (Z.of_nat i <> next_BC_to_evict c) as Hniz by lia.
        destruct (rounds_to_skip c (set_access bc false) i Hshape Hil Hniz) as [Hri _].
        fold k in Hri. apply (Hfirst i b Hb). lia.
    + simpl. lia.
    + exists c'. split; [exact Hrun|]. split; [exact Hnext|].
      split; [exact Hdisk|]. split; [exact Hslot|].
      intros i b Hiu Hb.
      pose proof (lookup_lt_Some _ _ _ Hb) as Hil. rewrite (proj1 Hshape) in Hil.
      change (Z.to_nat BC_SLOTS) with 64%nat in Hil.
      destruct (decide (i = k)) as [->|Hik].
      * rewrite Hb in Hbc. injection Hbc as ->.
        rewrite (Hrest k (set_access bc false) Hiu)
          by (simpl; apply list_lookup_insert_eq; rewrite (proj1 Hshape); exact Hk).
        rewrite Hk0.
        destruct (Z.ltb_spec 0 (rounds_to c u)); [|lia].
        destruct (_ <? _); reflexivity.
      * rewrite (Hrest i b Hiu)
          by (simpl; rewrite list_lookup_insert_ne by congruence; exact Hb).
        assert (Z.of_nat i <> next_BC_to_evict c) as Hniz by lia.
        destruct (rounds_to_skip c (set_access bc false) i Hshape Hil Hniz) as [Hri _].
        fold k in Hri. rewrite Hri, Hru.
        destruct (Z.ltb_spec (rounds_to c i - 1) (rounds_to c u - 1));
          destruct (Z.ltb_spec (rounds_to c i) (rounds_to c u)); try lia; reflexivity.
Qed.

Lemma clock_claim_none (load : BC -> list byte -> BC) (fuel : nat) :
  forall (c : bcache) (sec_no : Z),
  cache_shape c -> (fuel <= 64)%nat ->
  (forall i b, BClist c !! i = Some b -> rounds_to c i < Z.of_nat fuel ->
     claimable b = false) ->
  clock_claim load fuel c sec_no = None.
Proof.
  induction fuel as [|fuel IH]; intros c sec_no Hshape Hle Hnone; [reflexivity|].
  destruct (slot_at_shape c Hshape) as [bc Hbc].
  simpl. rewrite Hbc. simpl.
  apply slot_at_Some in Hbc as [Hi Hbc].
  set (k := Z.to_nat (next_BC_to_evict c)) in *.
  assert ((k < 64)%nat /\ Z.of_nat k = next_BC_to_evict c) as [Hk Hkz].
  { destruct Hshape as [_ Hcur]. unfold BC_SLOTS in Hcur. subst k. lia. }
  destruct (rounds_to_cursor c k Hshape Hk) as [[_ Hk0] _]. specialize (Hk0 Hkz).
  rewrite (Hnone k bc Hbc) by lia.
  apply IH; [apply cache_shape_skip, Hshape | lia |].
  simpl. intros i b Hb Hlt.
  pose proof (lookup_lt_Some _ _ _ Hb) as Hil.
  rewrite length_insert, (proj1 Hshape) in Hil.
  change (Z.to_nat BC_SLOTS) with 64%nat in Hil.
  destruct (decide (i = k)) as [->|Hik].
  - pose proof (rounds_to_behind c (set_access bc false) Hshape) as H63.
    fold k in H63. lia.
  - rewrite list_lookup_insert_ne in Hb by congruence.
    assert (Z.of_nat i <> next_BC_to_evict c) as Hniz by lia.
    destruct (rounds_to_skip c (set_access bc false) i Hshape Hil Hniz) as [Hri _].
    fold k in Hri. apply (Hnone i b Hb). lia.
Qed.

(** The two loops stop at the same slot: they differ only in what they
    store there. *)
Lemma clock_claim_same_slot (load1 load2 : BC -> list byte -> BC) (fuel : nat) :
  forall (c c1 : bcache) (sec_no : Z) (k : nat),
  clock_claim load1 fuel c sec_no = Some (c1, k) ->
  exists c2, clock_claim load2 fuel c sec_no = Some (c2, k).
Proof.
  induction fuel as [|fuel IH]; intros c c1 sec_no k H; [discriminate|].
  simpl in *. destruct (slot_at (BClist c) (next_BC_to_evict c)) as [bc|]; [|discriminate].
  simpl in *. destruct (claimable bc).
  - unfold disk_read in *. injection H as _ <-. eexists. reflexivity.
  - apply (IH _ c1 sec_no k H).
Qed.

(** Which slot the loop stops at: the first, from the cursor on, that is
    unallocated or has [access] clear; the cursor's own when there is no
    such slot. *)
Lemma clock_claim_which (load : BC -> list byte -> BC) (fuel : nat) :
  forall (c c' : bcache) (sec_no : Z) (k : nat),
  cache_shape c -> clock_claim load fuel c sec_no = Some (c', k) ->
  (k < 64)%nat /\
  exists bk, BClist c !! k = Some bk /\
    ((claimable bk = true /\
      forall i b, BClist c !! i = Some b -> rounds_to c i < rounds_to c k ->
        claimable b = false) \/
     ((forall i b, BClist c !! i = Some b -> alloc b = true /\ access b = true) /\
      Z.of_nat k = next_BC_to_evict c)).
Proof.
  induction fuel as [|fuel IH]; intros c c' sec_no k Hshape H; [discriminate|].
  destruct (slot_at_shape c Hshape) as [bc Hbc].
  simpl in H. rewrite Hbc in H. simpl in H.
  apply slot_at_Some in Hbc as [Hi Hbc].
  set (i := Z.to_nat (next_BC_to_evict c)) in *.
  assert ((i < 64)%nat /\ Z.of_nat i = next_BC_to_evict c) as [Hi64 Hiz].
  { destruct Hshape as [_ Hcur]. unfold BC_SLOTS in Hcur. subst i. lia. }
  destruct (rounds_to_cursor c i Hshape Hi64) as [[_ Hi0] _]. specialize (Hi0 Hiz).
  destruct (claimable bc) eqn:Hc.
  - unfold disk_read in H. injection H as _ <-. split; [exact Hi64|].
    exists bc. split; [exact Hbc|]. left. split; [exact Hc|].
    intros j b Hb Hlt. exfalso. rewrite Hi0 in Hlt.
    pose proof (Z.mod_pos_bound (Z.of_nat j - next_BC_to_evict c) BC_SLOTS eq_refl).
    unfold rounds_to in Hlt. lia.
  - assert (alloc bc = true /\ access bc = true) as Hbusy.
    { unfold claimable in Hc. destruct (alloc bc), (access bc); try discriminate; auto. }
    set (c1 := mkCache (<[i := set_access bc false]> (BClist c))
                       (Z.rem (next_BC_to_evict c + 1) BC_SLOTS) (filesys_disk c)) in *.
    destruct (IH c1 c' sec_no k (cache_shape_skip c _ Hshape) H)
      as (Hk & bk1 & Hbk1 & Hcase).
    split; [exact Hk|].
    pose proof (rounds_to_behind c (set_access bc false) Hshape) as H63. fold i c1 in H63.
    assert (forall j b, j <> i -> BClist c !! j = Some b ->
              BClist c1 !! j = Some b /\ rounds_to c1 j = rounds_to c j - 1 /\
              1 <= rounds_to c j) as Hother.
    { intros j b Hj Hb. split; [simpl; rewrite list_lookup_insert_ne by congruence; exact Hb|].
      pose proof (lookup_lt_Some _ _ _ Hb) as Hjl. rewrite (proj1 Hshape) in Hjl.
      change (Z.to_nat BC_SLOTS) with 64%nat in Hjl.
      assert (Z.of_nat j <> next_BC_to_evict c) as Hjz by lia.
      destruct (rounds_to_skip c (set_access bc false) j Hshape Hjl Hjz) as [Hr Hb1].
      fold i c1 in Hr. split; [exact Hr | lia]. }
    destruct Hcase as [[Hcl Hfirst]|[Hall _]].
    + destruct (decide (k = i)) as [->|Hki].
      * exists bc. split; [exact Hbc|]. right. split; [|exact Hiz].
        intros j b Hb. destruct (decide (j = i)) as [->|Hji].
        -- rewrite Hbc in Hb. injection Hb as <-. exact Hbusy.
        -- destruct (Hother j b Hji Hb) as (Hb1 & Hr & Hge).
           assert (claimable b = false) as Hcb.
           { apply (Hfirst j b Hb1).
             pose proof (lookup_lt_Some _ _ _ Hb) as Hjl. rewrite (proj1 Hshape) in Hjl.
             change (Z.to_nat BC_SLOTS) with 64%nat in Hjl.
             destruct (rounds_to_cursor c j Hshape Hjl) as [_ Hbound]. lia. }
           unfold claimable in Hcb. destruct (alloc b), (access b); try discriminate; auto.
      * simpl in Hbk1. rewrite list_lookup_insert_ne in Hbk1 by congruence.
        exists bk1. split; [exact Hbk1|]. left. split; [exact Hcl|].
        destruct (Hother k bk1 Hki Hbk1) as (_ & Hrk & _).
        intros j b Hb Hlt. destruct (decide (j = i)) as [->|Hji].
        -- rewrite Hbc in Hb. injection Hb as <-. exact Hc.
        -- destruct (Hother j b Hji Hb) as (Hb1 & Hr & _).
           apply (Hfirst j b Hb1). lia.
    + exfalso. destruct (Hall i (set_access bc false)) as [_ Hacc].
      * simpl. apply list_lookup_insert_eq. rewrite (proj1 Hshape). exact Hi64.
      * simpl in Hacc. discriminate.
Qed.

(** What the loop leaves in the slot it stops at, on the device and in the
    cursor. *)
Lemma clock_claim_state (load : BC -> list byte -> BC) (fuel : nat) :
  forall (c c' : bcache) (sec_no : Z) (k : nat) (bk : BC),
  cache_shape c -> clock_claim load fuel c sec_no = Some (c', k) ->
  BClist c !! k = Some bk ->
  let v := mkBC (buffer bk) (sector bk) (alloc bk) (access bk && negb (alloc bk))
                (dirty bk) in
  BClist c' !! k = Some (load v (sectors (write_back (filesys_disk c) bk) sec_no)) /\
  filesys_disk c' = (disk_read (write_back (filesys_disk c) bk) sec_no).1 /\
  next_BC_to_evict c' = (Z.of_nat k + 1) mod BC_SLOTS.
Proof.
  induction fuel as [|fuel IH]; intros c c' sec_no k bk Hshape H Hbk; [discriminate|].
  destruct (slot_at_shape c Hshape) as [bc Hbc].
  simpl in H. rewrite Hbc in H. simpl in H.
  apply slot_at_Some in Hbc as [Hi Hbc].
  pose proof (lookup_lt_Some _ _ _ Hbc) as Hlt.
  destruct (claimable bc) eqn:Hc.
  - unfold disk_read in H. injection H as <- <-. rewrite Hbc in Hbk. injection Hbk as <-.
    assert (mkBC (buffer bc) (sector bc) (alloc bc) (access bc && negb (alloc bc))
                 (dirty bc) = bc) as ->.
    { unfold claimable in Hc. destruct bc as [bf se al ac di]. simpl in *.
      destruct al, ac; try discriminate; reflexivity. }
    simpl. split; [apply list_lookup_insert_eq; exact Hlt|]. split; [reflexivity|].
    rewrite Z2Nat.id by lia. apply cursor_next, Hshape.
  - assert (alloc bc = true /\ access bc = true) as [Ha Hacc].
    { unfold claimable in Hc. destruct (alloc bc), (access bc); try discriminate; auto. }
    destruct (decide (k = Z.to_nat (next_BC_to_evict c))) as [->|Hne].
    + rewrite Hbc in Hbk. injection Hbk as <-.
      destruct (IH _ c' sec_no _ (set_access bc false) (cache_shape_skip c _ Hshape) H)
        as (Hslot & Hdisk & Hnext).
      { simpl. apply list_lookup_insert_eq. exact Hlt. }
      simpl in Hslot, Hdisk. rewrite Ha, Hacc. rewrite Ha in Hslot. simpl in *.
      split; [exact Hslot|]. split; [exact Hdisk | exact Hnext].
    + apply (IH _ c' sec_no k bk (cache_shape_skip c (set_access bc false) Hshape) H).
      simpl. rewrite list_lookup_insert_ne by congruence. exact Hbk.
Qed.

(** C10.  From any cache with 64 slots and the cursor among them, the
    claim loops of [_disk_read] and [_disk_write] end with a slot claimed,
    the same for both.  65 rounds always suffice (the 64 rounds of one
    revolution can each clear one [access] flag, the next round finds the
    first slot cleared), so two revolutions do; one revolution suffices
    when some slot is unallocated.  More fuel never changes the answer.
    The slot claimed is the first from the cursor on that is unallocated or
    has [access] clear, and the cursor's own when every slot is allocated
    with [access] set.  If it was allocated and dirty the device has
    received its bytes under its sector number, then served the read of
    the requested sector; the slot holds the bytes read, after the loop of
    [_disk_read] under the requested sector number with [alloc] set, after
    the loop of [_disk_write] with [dirty] set; the cursor stands one past
    the slot.  Every other slot is as it was or, if it was allocated with
    [access] set, may have had that flag cleared, once. *)
Theorem claim_loop_terminates (c : bcache) (sec_no : Z) :
  cache_shape c ->
  exists k bk cr cw,
    (k < 64)%nat /\ BClist c !! k = Some bk /\
    ((claimable bk = true /\
      forall i b, BClist c !! i = Some b -> rounds_to c i < rounds_to c k ->
        claimable b = false) \/
     ((forall i b, BClist c !! i = Some b -> alloc b = true /\ access b = true) /\
      Z.of_nat k = next_BC_to_evict c)) /\
    (forall fuel, (65 <= fuel)%nat ->
       _disk_read_evict fuel c sec_no = Some (cr, k) /\
       _disk_write_evict fuel c sec_no = Some (cw, k)) /\
    _disk_read_evict (2 * 64) c sec_no = Some (cr, k) /\
    _disk_write_evict (2 * 64) c sec_no = Some (cw, k) /\
    ((exists i bc, BClist c !! i = Some bc /\ alloc bc = false) ->
     forall fuel, (64 <= fuel)%nat ->
       _disk_read_evict fuel c sec_no = Some (cr, k) /\
       _disk_write_evict fuel c sec_no = Some (cw, k)) /\
    let wb := alloc bk && dirty bk in
    let d' :=
      mkDisk (fun s => if wb && (s =? sector bk) then buffer bk
                       else sectors (filesys_disk c) s)
             (disk_log (filesys_disk c)
                ++ (if wb then [DiskWrite (sector bk) (buffer bk)] else [])
                ++ [DiskRead sec_no]) in
    filesys_disk cr = d' /\ filesys_disk cw = d' /\
    next_BC_to_evict cr = (Z.of_nat k + 1) mod BC_SLOTS /\
    next_BC_to_evict cw = (Z.of_nat k + 1) mod BC_SLOTS /\
    BClist cr !! k = Some (mkBC (sectors d' sec_no) sec_no true false false) /\
    BClist cw !! k =
      Some (mkBC (sectors d' sec_no) (sector bk) (alloc bk)
                 (access bk && negb (alloc bk)) true) /\
    forall j b, j <> k -> BClist c !! j = Some b ->
      (BClist cr !! j = Some b \/
       alloc b = true /\ access b = true /\
       BClist cr !! j = Some (mkBC (buffer b) (sector b) true false (dirty b))) /\
      (BClist cw !! j = Some b \/
       alloc b = true /\ access b = true /\
       BClist cw !! j = Some (mkBC (buffer b) (sector b) true false (dirty b))).
Proof.
  intros Hshape.
  destruct (clock_claim_total (load_read sec_no) 65 c sec_no Hshape (le_n 65))
    as [[cr k] Hr].
  destruct (clock_claim_same_slot (load_read sec_no) load_write 65 c cr sec_no k Hr)
    as [cw Hw].
  destruct (clock_claim_which _ _ _ _ _ _ Hshape Hr) as (Hk & bk & Hbk & Hwhich).
  exists k, bk, cr, cw.
  assert (forall fuel, (65 <= fuel)%nat ->
            _disk_read_evict fuel c sec_no = Some (cr, k) /\
            _disk_write_evict fuel c sec_no = Some (cw, k)) as Hall.
  { intros fuel Hfuel.
    rewrite _disk_read_evict_clock, _disk_write_evict_clock.
    split; eapply clock_claim_mono; eauto. }
  split; [exact Hk|]. split; [exact Hbk|]. split; [exact Hwhich|].
  split; [exact Hall|].
  split; [apply Hall; lia|]. split; [apply Hall; lia|]. split.
  { intros (i & bc & Hbc & Ha) fuel Hfuel.
    rewrite _disk_read_evict_clock, _disk_write_evict_clock.
    destruct (clock_claim_free_slot (load_read sec_no) 64 c sec_no i bc Hshape Hbc Ha
                (le_n 64)) as [r Hr64].
    destruct (clock_claim_free_slot load_write 64 c sec_no i bc Hshape Hbc Ha (le_n 64))
      as [w Hw64].
    pose proof (clock_claim_mono _ 64 65 _ _ _ Hr64 (le_S _ _ (le_n 64))) as Hr65.
    pose proof (clock_claim_mono _ 64 65 _ _ _ Hw64 (le_S _ _ (le_n 64))) as Hw65.
    rewrite Hr in Hr65. rewrite Hw in Hw65.
    injection Hr65 as <-. injection Hw65 as <-.
    split; eapply clock_claim_mono; eauto. }
  destruct (clock_claim_state _ _ _ _ _ _ _ Hshape Hr Hbk) as (Hsr & Hdr & Hnr).
  destruct (clock_claim_state _ _ _ _ _ _ _ Hshape Hw Hbk) as (Hsw & Hdw & Hnw).
  cbv zeta.
  assert ((disk_read (write_back (filesys_disk c) bk) sec_no).1 =
          mkDisk (fun s => if alloc bk && dirty bk && (s =? sector bk) then buffer bk
                           else sectors (filesys_disk c) s)
                 (disk_log (filesys_disk c)
                    ++ (if alloc bk && dirty bk then [DiskWrite (sector bk) (buffer bk)]
                        else [])
                    ++ [DiskRead sec_no])) as Hdisk.
  { unfold write_back, disk_read, disk_write.
    destruct (alloc bk && dirty bk); simpl; [rewrite <- app_assoc|]; reflexivity. }
  assert (sectors (write_back (filesys_disk c) bk) sec_no =
          if alloc bk && dirty bk && (sec_no =? sector bk) then buffer bk
          else sectors (filesys_disk c) sec_no) as Hdata.
  { unfold write_back, disk_write. destruct (alloc bk && dirty bk); reflexivity. }
  rewrite Hdisk in Hdr, Hdw. rewrite Hdata in Hsr, Hsw.
  split; [exact Hdr|]. split; [exact Hdw|]. split; [exact Hnr|]. split; [exact Hnw|].
  split; [exact Hsr|]. split; [exact Hsw|].
  intros j b Hj Hb. split.
  - apply (clock_claim_others _ _ _ _ _ _ Hshape Hr j b Hj Hb).
  - apply (clock_claim_others _ _ _ _ _ _ Hshape Hw j b Hj Hb).
Qed.

(** On the full cache both loops go once round and take slot 5, where the
    cursor stood. *)
Lemma claim_loop_terminates_witness :
  exists cr cw,
    _disk_read_evict 65 sample_full_cache 99 = Some (cr, 5%nat) /\
    _disk_write_evict 65 sample_full_cache 99 = Some (cw, 5%nat) /\
    BClist cr !! 5%nat = Some (mkBC (sectors sample_disk 99) 99 true false false) /\
    BClist cw !! 5%nat = Some (mkBC (sectors sample_disk 99) 5 true false true) /\
    disk_log (filesys_disk cr) = [DiskRead 99] /\
    next_BC_to_evict cr = 6 /\ next_BC_to_evict cw = 6.
Proof.
  destruct (claim_loop_terminates sample_full_cache 99 sample_full_cache_shape)
    as (k & bk & cr & cw & Hk & Hbk & Hwhich & Hall & _ & _ & _ & Hstate).
  assert (k = 5%nat) as ->.
  { destruct Hwhich as [[Hcl _]|[_ Hcur]].
    - apply sample_full_cache_lookup in Hbk. subst bk. discriminate.
    - simpl in Hcur. lia. }
  assert (bk = mkBC (sectors sample_disk 5) 5 true true false) as ->
    by (apply (sample_full_cache_lookup 5 bk Hbk)).
  cbv zeta in Hstate. destruct Hstate as (Hdr & _ & Hnr & Hnw & Hsr & Hsw & _).
  destruct (Hall 65%nat (le_n 65)) as [Hr Hw].
  exists cr, cw. split; [exact Hr|]. split; [exact Hw|].
  split; [exact Hsr|]. split; [exact Hsw|].
  split; [rewrite Hdr; reflexivity|]. split; [exact Hnr | exact Hnw].
Defined.

(** X1.  The claim loops of [_disk_read] and [_disk_write] take the first
    slot, counted from the cursor on and around the array, that is
    unallocated or has [access] clear, and load the requested sector into
    it.  The cursor ends one past it; the slots passed on the way have
    [access] clear and are otherwise as they were; the other slots are
    untouched. *)
Theorem claim_loop_takes_first (fuel : nat) (c : bcache) (sec_no : Z) (u : nat) (bu : BC) :
  cache_shape c -> BClist c !! u = Some bu -> claimable bu = true ->
  (forall i b, BClist c !! i = Some b -> rounds_to c i < rounds_to c u ->
     claimable b = false) ->
  rounds_to c u < Z.of_nat fuel ->
  exists cr cw,
    _disk_read_evict fuel c sec_no = Some (cr, u) /\
    _disk_write_evict fuel c sec_no = Some (cw, u) /\
    next_BC_to_evict cr = (Z.of_nat u + 1) mod BC_SLOTS /\
    next_BC_to_evict cw = (Z.of_nat u + 1) mod BC_SLOTS /\
    (let data := if alloc bu && dirty bu && (sec_no =? sector bu) then buffer bu
                 else sectors (filesys_disk c) sec_no in
     BClist cr !! u = Some (mkBC data sec_no true false false) /\
     BClist cw !! u = Some (mkBC data (sector bu) (alloc bu) (access bu) true)) /\
    forall i b, i <> u -> BClist c !! i = Some b ->
      let b' := if rounds_to c i <? rounds_to c u
                then mkBC (buffer b) (sector b) (alloc b) false (dirty b) else b in
      BClist cr !! i = Some b' /\ BClist cw !! i = Some b'.
Proof.
  intros Hshape Hbu Hcl Hfirst Hfuel.
  destruct (clock_claim_first (load_read sec_no) fuel c sec_no u bu
              Hshape Hbu Hcl Hfirst Hfuel) as (cr & Hr & Hnr & _ & Hsr & Hrest_r).
  destruct (clock_claim_first load_write fuel c sec_no u bu
              Hshape Hbu Hcl Hfirst Hfuel) as (cw & Hw & Hnw & _ & Hsw & Hrest_w).
  exists cr, cw. rewrite _disk_read_evict_clock, _disk_write_evict_clock.
  split; [exact Hr|]. split; [exact Hw|]. split; [exact Hnr|]. split; [exact Hnw|].
  assert (sectors (write_back (filesys_disk c) bu) sec_no =
          if alloc bu && dirty bu && (sec_no =? sector bu) then buffer bu
          else sectors (filesys_disk c) sec_no) as Hdata.
  { unfold write_back, disk_write. destruct (alloc bu && dirty bu); reflexivity. }
  rewrite Hdata in Hsr, Hsw. split; [split; [exact Hsr | exact Hsw]|].
  intros i b Hi Hb. cbv zeta.
  rewrite (Hrest_r i b Hi Hb), (Hrest_w i b Hi Hb).
  destruct (rounds_to c i <? rounds_to c u); split; reflexivity.
Qed.

Lemma sample_aged_cache_shape : cache_shape sample_aged_cache.
Proof.
  split; [|simpl; unfold BC_SLOTS; lia].
  unfold sample_aged_cache. cbn [BClist].
  rewrite length_insert. apply sample_full_cache_shape.
Qed.

(** With the cursor on slot 5 and slot 7 the first to have [access] clear,
    three rounds take slot 7; slots 5 and 6 have lost [access], slot 8 is
    as it was. *)
Lemma claim_loop_takes_first_witness :
  exists cr cw,
    _disk_read_evict 3 sample_aged_cache 99 = Some (cr, 7%nat) /\
    _disk_write_evict 3 sample_aged_cache 99 = Some (cw, 7%nat) /\
    next_BC_to_evict cr = 8 /\
    BClist cr !! 7%nat = Some (mkBC (sectors sample_disk 99) 99 true false false) /\
    BClist cw !! 7%nat = Some (mkBC (sectors sample_disk 99) 7 true false true) /\
    BClist cr !! 5%nat = Some (mkBC (sectors sample_disk 5) 5 true false false) /\
    BClist cw !! 6%nat = Some (mkBC (sectors sample_disk 6) 6 true false false) /\
    BClist cr !! 8%nat = Some (mkBC (sectors sample_disk 8) 8 true true false).
Proof.
  assert (forall i b, BClist sample_aged_cache !! i = Some b ->
            rounds_to sample_aged_cache i < rounds_to sample_aged_cache 7 ->
            claimable b = false) as Hfirst.
  { intros i b Hb Hlt. destruct (decide (i = 7%nat)) as [->|Hne]; [lia|].
    unfold sample_aged_cache in Hb. cbn [BClist] in Hb.
    rewrite list_lookup_insert_ne in Hb by congruence.
    apply sample_full_cache_lookup in Hb. subst b. reflexivity. }
  assert (rounds_to sample_aged_cache 7 < Z.of_nat 3) as Hfuel
    by (vm_compute; reflexivity).
  destruct (claim_loop_takes_first 3 sample_aged_cache 99 7 _
              sample_aged_cache_shape eq_refl eq_refl Hfirst Hfuel)
    as (cr & cw & Hr & Hw & Hnr & _ & [Hsr Hsw] & Hrest).
  exists cr, cw. split; [exact Hr|]. split; [exact Hw|]. split; [exact Hnr|].
  split; [exact Hsr|]. split; [exact Hsw|].
  split; [exact (proj1 (Hrest 5%nat _ ltac:(lia) eq_refl))|].
  split; [exact (proj2 (Hrest 6%nat _ ltac:(lia) eq_refl))|].
  exact (proj1 (Hrest 8%nat _ ltac:(lia) eq_refl)).
Defined.

(** X2.  When every slot is allocated and has [access] set, the claim loop
    walks once round the array and takes the slot the cursor started on:
    it needs 65 rounds, 64 are not enough, and it leaves no [access] flag
    set; every slot but the victim keeps its sector, bytes and [dirty]. *)
Theorem claim_loop_full_pool (fuel : nat) (c : bcache) (sec_no : Z) :
  cache_shape c ->
  (forall i b, BClist c !! i = Some b -> alloc b = true /\ access b = true) ->
  (65 <= fuel)%nat ->
  let k := Z.to_nat (next_BC_to_evict c) in
  exists cr cw,
    _disk_read_evict fuel c sec_no = Some (cr, k) /\
    _disk_write_evict fuel c sec_no = Some (cw, k) /\
    _disk_read_evict 64 c sec_no = None /\
    _disk_write_evict 64 c sec_no = None /\
    next_BC_to_evict cr = (next_BC_to_evict c + 1) mod BC_SLOTS /\
    next_BC_to_evict cw = (next_BC_to_evict c + 1) mod BC_SLOTS /\
    (forall i b, BClist cr !! i = Some b -> access b = false) /\
    (forall i b, BClist cw !! i = Some b -> access b = false) /\
    forall i b, i <> k -> BClist c !! i = Some b ->
      BClist cr !! i = Some (set_access b false) /\
      BClist cw !! i = Some (set_access b false).
Proof.
  intros Hshape Hall Hfuel. cbv zeta.
  set (k := Z.to_nat (next_BC_to_evict c)).
  assert ((k < 64)%nat /\ Z.of_nat k = next_BC_to_evict c) as [Hk Hkz].
  { destruct Hshape as [_ Hcur]. unfold BC_SLOTS in Hcur. subst k. lia. }
  destruct (slot_at_shape c Hshape) as [bc Hbc].
  pose proof Hbc as Hslot. apply slot_at_Some in Hbc as [_ Hbc]. fold k in Hbc.
  destruct (Hall k bc Hbc) as [Ha Hacc].
  assert (claimable bc = false) as Hnc by (unfold claimable; rewrite Ha, Hacc; reflexivity).
  set (c1 := mkCache (<[k := set_access bc false]> (BClist c))
                     (Z.rem (next_BC_to_evict c + 1) BC_SLOTS) (filesys_disk c)).
  assert (cache_shape c1) as Hshape1 by apply cache_shape_skip, Hshape.
  pose proof (rounds_to_behind c (set_access bc false) Hshape) as H63. fold k c1 in H63.
  assert (BClist c1 !! k = Some (set_access bc false)) as Hk1.
  { simpl. apply list_lookup_insert_eq. rewrite (proj1 Hshape). exact Hk. }
  assert (forall i b, BClist c1 !! i = Some b -> rounds_to c1 i < rounds_to c1 k ->
            claimable b = false) as Hfirst.
  { intros i b Hb Hlt. destruct (decide (i = k)) as [->|Hik]; [lia|].
    simpl in Hb. rewrite list_lookup_insert_ne in Hb by congruence.
    destruct (Hall i b Hb) as [Hab Hacb]. unfold claimable. rewrite Hab, Hacb. reflexivity. }
  assert (forall load f, (65 <= f)%nat ->
            exists c', clock_claim load f c sec_no = Some (c', k) /\
              next_BC_to_evict c' = (next_BC_to_evict c + 1) mod BC_SLOTS /\
              (exists x, BClist c' !! k =
                 Some (load (set_access bc false) x)) /\
              forall i b, i <> k -> BClist c !! i = Some b ->
                BClist c' !! i = Some (set_access b false)) as Hgen.
  { intros load f Hf. destruct f as [|f]; [lia|].
    destruct (clock_claim_first load f c1 sec_no k (set_access bc false)
                Hshape1 Hk1 (orb_true_r _) Hfirst) as (c' & Hrun & Hnext & _ & Hslotk & Hrest);
      [lia|].
    exists c'. split; [simpl; rewrite Hslot; simpl; rewrite Hnc; exact Hrun|].
    split; [rewrite Hnext, Hkz; reflexivity|]. split; [eexists; exact Hslotk|].
    intros i b Hik Hb.
    rewrite (Hrest i b Hik) by (simpl; rewrite list_lookup_insert_ne by congruence; exact Hb).
    pose proof (lookup_lt_Some _ _ _ Hb) as Hil. rewrite (proj1 Hshape) in Hil.
    change (Z.to_nat BC_SLOTS) with 64%nat in Hil.
    assert (Z.of_nat i <> next_BC_to_evict c) as Hniz by lia.
    destruct (rounds_to_skip c (set_access bc false) i Hshape Hil Hniz) as [Hri Hrb].
    fold k c1 in Hri.
    destruct (Z.ltb_spec (rounds_to c1 i) (rounds_to c1 k)); [reflexivity | lia]. }
  assert (forall load, clock_claim load 64 c sec_no = None) as Hshort.
  { intros load. apply clock_claim_none; [exact Hshape | lia |].
    intros i b Hb _. destruct (Hall i b Hb) as [Hab Hacb].
    unfold claimable. rewrite Hab, Hacb. reflexivity. }
  destruct (Hgen (load_read sec_no) fuel Hfuel) as (cr & Hr & Hnr & [xr Hkr] & Hrest_r).
  destruct (Hgen load_write fuel Hfuel) as (cw & Hw & Hnw & [xw Hkw] & Hrest_w).
  exists cr, cw. rewrite !_disk_read_evict_clock, !_disk_write_evict_clock.
  split; [exact Hr|]. split; [exact Hw|].
  split; [apply Hshort|]. split; [apply Hshort|].
  split; [exact Hnr|]. split; [exact Hnw|].
  assert (forall c', (forall i b, i <> k -> BClist c !! i = Some b ->
                        BClist c' !! i = Some (set_access b false)) ->
            length (BClist c') = length (BClist c) ->
            forall y, BClist c' !! k = Some y -> access y = false ->
            forall i b, BClist c' !! i = Some b -> access b = false) as Hclear.
  { intros c' Hrest Hlen y Hy Hya i b Hb.
    destruct (decide (i = k)) as [->|Hik]; [congruence|].
    destruct (lookup_lt_is_Some_2 (BClist c) i) as [b0 Hb0].
    { rewrite <- Hlen. eapply lookup_lt_Some, Hb. }
    rewrite (Hrest i b0 Hik Hb0) in Hb. injection Hb as <-. reflexivity. }
  assert (forall load c', clock_claim load fuel c sec_no = Some (c', k) ->
            length (BClist c') = length (BClist c)) as Hlen.
  { intros load c' Hrun.
    destruct (clock_claim_spec _ _ _ _ _ _ Hshape Hrun) as (_ & _ & _ & _ & _ & _ & _ & Hs').
    rewrite (proj1 Hs'), (proj1 Hshape). reflexivity. }
  split; [|split].
  - eapply (Hclear cr Hrest_r (Hlen _ _ Hr)); [exact Hkr | reflexivity].
  - eapply (Hclear cw Hrest_w (Hlen _ _ Hw)); [exact Hkw | reflexivity].
  - intros i b Hik Hb. split; [apply Hrest_r | apply Hrest_w]; assumption.
Qed.

Lemma claim_loop_full_pool_witness :
  exists cr cw,
    _disk_read_evict 65 sample_full_cache 99 = Some (cr, 5%nat) /\
    _disk_write_evict 65 sample_full_cache 99 = Some (cw, 5%nat) /\
    _disk_read_evict 64 sample_full_cache 99 = None.
Proof.
  assert (forall i b, BClist sample_full_cache !! i = Some b ->
            alloc b = true /\ access b = true) as Hall.
  { intros i b Hb. apply sample_full_cache_lookup in Hb. subst b. split; reflexivity. }
  destruct (claim_loop_full_pool 65 sample_full_cache 99 sample_full_cache_shape Hall
              (le_n 65)) as (cr & cw & Hr & Hw & Hn & _).
  exists cr, cw. split; [exact Hr|]. split; [exact Hw | exact Hn].
Defined.

(** ** Hits, and what reaches the device *)

Lemma find_sector_is_Some (l : list BC) (s : Z) (k : nat) (x : BC) :
  l !! k = Some x -> sector x = s -> is_Some (find_sector l s).
Proof.
  intros Hk Hs. unfold find_sector.
  apply (list_find_elem_of (fun bc => sector bc = s) l x); [|exact Hs].
  apply list_elem_of_lookup. eauto.
Qed.

Lemma run_op_caches (fuel : nat) (c c1 : bcache) (op : cache_op) :
  cache_shape c -> run_op fuel c op = Some c1 ->
  is_Some (find_sector (BClist c1) (op_sector op)).
Proof.
  intros Hshape Hrun. destruct op as [s start end_|s src start end_]; simpl in *.
  - apply fmap_Some in Hrun as ([c0 out] & Hrun & ->). simpl.
    destruct (find_sector (BClist c) s) as [[i bc]|] eqn:E.
    + unfold _disk_read in Hrun. rewrite E in Hrun.
      destruct (copy_out _ _ _); [|discriminate]. injection Hrun as <- _. simpl.
      apply find_sector_Some in E as (Hbc & Hs & _).
      apply (find_sector_is_Some _ s i (set_access bc true)); [|exact Hs].
      apply list_lookup_insert_eq. eapply lookup_lt_Some, Hbc.
    + destruct (_disk_read_miss_slot _ _ _ _ _ _ _ Hshape E Hrun) as (k & x & Hk & Hs & _).
      apply (find_sector_is_Some _ s k x Hk Hs).
  - destruct (find_sector (BClist c) s) as [[i bc]|] eqn:E.
    + unfold _disk_write, write_slot in Hrun. rewrite E in Hrun.
      destruct (copy_in _ _ _ _) as [buf|]; [|discriminate]. injection Hrun as <-. simpl.
      apply find_sector_Some in E as (Hbc & Hs & _).
      apply (find_sector_is_Some _ s i (mkBC buf s true true true)); [|reflexivity].
      apply list_lookup_insert_eq. eapply lookup_lt_Some, Hbc.
    + destruct (_disk_write_miss_slot _ _ _ _ _ _ _ Hshape E Hrun) as (k & x & Hk & Hs & _).
      apply (find_sector_is_Some _ s k x Hk Hs).
Qed.

Lemma run_op_hit (fuel : nat) (c c' : bcache) (op : cache_op) :
  is_Some (find_sector (BClist c) (op_sector op)) -> run_op fuel c op = Some c' ->
  filesys_disk c' = filesys_disk c /\ next_BC_to_evict c' = next_BC_to_evict c /\
  forall j, (forall i bc, find_sector (BClist c) (op_sector op) = Some (i, bc) -> j <> i) ->
    BClist c' !! j = BClist c !! j.
Proof.
  intros [[i bc] E] Hrun. destruct op as [s start end_|s src start end_]; simpl in *.
  - apply fmap_Some in Hrun as ([c0 out] & Hrun & ->). simpl.
    unfold _disk_read in Hrun. rewrite E in Hrun.
    destruct (copy_out _ _ _); [|discriminate]. injection Hrun as <- _. simpl.
    repeat split. intros j Hj. apply list_lookup_insert_ne.
    intros ->. apply (Hj j bc); [exact E | reflexivity].
  - unfold _disk_write, write_slot in Hrun. rewrite E in Hrun.
    destruct (copy_in _ _ _ _) as [buf|]; [|discriminate]. injection Hrun as <-. simpl.
    repeat split. intros j Hj. apply list_lookup_insert_ne.
    intros ->. apply (Hj j bc); [exact E | reflexivity].
Qed.

(** X3.  Once [_disk_read] or [_disk_write] has returned for a sector, the
    next call for the same sector, of either kind, is served from the slot
    that holds it: the device serves no transfer (its contents and its log
    are the same) and the eviction cursor does not move. *)
Theorem second_access_is_a_hit (fuel : nat) (c : bcache) (op op2 : cache_op) :
  cache_inv c -> op_in_sector op -> op_in_sector op2 ->
  op_sector op2 = op_sector op -> (65 <= fuel)%nat ->
  exists c1 c2,
    run_op fuel c op = Some c1 /\ run_op fuel c1 op2 = Some c2 /\
    filesys_disk c2 = filesys_disk c1 /\
    next_BC_to_evict c2 = next_BC_to_evict c1.
Proof.
  intros Hinv Hop Hop2 Hsec Hfuel.
  destruct (run_op_sound fuel c op Hinv Hop Hfuel) as (c1 & Hrun1 & Hinv1 & _).
  destruct (run_op_sound fuel c1 op2 Hinv1 Hop2 Hfuel) as (c2 & Hrun2 & _ & _).
  exists c1, c2. split; [exact Hrun1|]. split; [exact Hrun2|].
  pose proof (run_op_caches fuel c c1 op (inv_shape _ Hinv) Hrun1) as Hfound.
  rewrite <- Hsec in Hfound.
  destruct (run_op_hit fuel c1 c2 op2 Hfound Hrun2) as (Hd & Hn & _).
  split; assumption.
Qed.

Lemma second_access_is_a_hit_witness :
  exists c1 c2,
    run_op 65 (cache_init sample_garbage sample_disk) (CacheWrite 7 [x01; x02] 10 2)
      = Some c1 /\
    run_op 65 c1 (CacheRead 7 0 512) = Some c2 /\
    filesys_disk c2 = filesys_disk c1 /\
    next_BC_to_evict c2 = next_BC_to_evict c1.
Proof.
  assert (op_in_sector (CacheWrite 7 [x01; x02] 10 2)) as H1
    by (simpl; unfold in_sector, DISK_SECTOR_SIZE; lia).
  assert (op_in_sector (CacheRead 7 0 512)) as H2
    by (simpl; unfold in_sector, DISK_SECTOR_SIZE; lia).
  exact (second_access_is_a_hit 65 (cache_init sample_garbage sample_disk)
           (CacheWrite 7 [x01; x02] 10 2) (CacheRead 7 0 512)
           (cache_init_inv _ _ sample_start_sized) H1 H2 eq_refl (le_n 65)).
Defined.

Lemma not_resident_not_found (c : bcache) (s : Z) :
  cache_inv c -> real_sector s -> s ∉ resident c -> find_sector (BClist c) s = None.
Proof.
  intros Hinv Hs Hout. apply find_sector_None. intros i b Hb Heq.
  destruct (inv_coherent _ Hinv i b Hb) as [HU _].
  destruct (alloc b) eqn:Ha.
  - apply Hout. unfold resident. apply list_elem_of_fmap. exists b.
    split; [symmetry; exact Heq|]. apply list_elem_of_filter.
    split; [exact Ha | apply list_elem_of_lookup; eauto].
  - destruct (HU eq_refl) as [Hno _]. unfold real_sector in Hs. congruence.
Qed.

(** X4.  What the device holds after any run of the two calls from
    [inode_init].  A sector of the device that no slot holds reads, on the
    device itself, as the last bytes written to it through the cache
    (dirty slots are written back before they are reused), and an
    allocated slot that is not dirty holds exactly the device's bytes for
    its sector. *)
Theorem evicted_sectors_are_on_the_device (garbage : nat -> list byte) (d : disk)
    (ops : list cache_op) (fuel : nat) :
  sized_start garbage d -> Forall op_in_sector ops -> (65 <= fuel)%nat ->
  exists c,
    run_ops fuel (cache_init garbage d) ops = Some c /\
    (forall s pos, real_sector s -> s ∉ resident c ->
       sectors (filesys_disk c) s !! pos =
       match last_written ops s (Z.of_nat pos) with
       | Some b => Some b
       | None => sectors d s !! pos
       end) /\
    (forall i bc, BClist c !! i = Some bc -> alloc bc = true -> dirty bc = false ->
       buffer bc = sectors (filesys_disk c) (sector bc)).
Proof.
  intros Hstart Hops Hfuel.
  pose proof (cache_init_inv garbage d Hstart) as Hinv0.
  destruct (run_ops_sound fuel ops _ Hinv0 Hops Hfuel) as (c & Hrun & Hinv & Hview).
  exists c. split; [exact Hrun|]. split.
  - intros s pos Hs Hout.
    rewrite <- (view_miss c s (not_resident_not_found c s Hinv Hs Hout)).
    rewrite Hview by assumption.
    rewrite ideal_ops_lookup; [|assumption|intros s'; apply view_sized, Hinv0].
    rewrite view_init by assumption. reflexivity.
  - intros i bc Hbc Ha Hd. apply (proj2 (inv_coherent _ Hinv i bc Hbc) Ha Hd).
Qed.

Lemma evicted_sectors_are_on_the_device_witness :
  exists c,
    run_ops 65 (cache_init sample_garbage sample_disk) sample_ops = Some c /\
    (forall s pos, real_sector s -> s ∉ resident c ->
       sectors (filesys_disk c) s !! pos =
       match last_written sample_ops s (Z.of_nat pos) with
       | Some b => Some b
       | None => sectors sample_disk s !! pos
       end).
Proof.
  destruct (evicted_sectors_are_on_the_device sample_garbage sample_disk sample_ops 65
              sample_start_sized sample_ops_in_sector (le_n 65)) as (c & Hrun & Hdev & _).
  exists c. split; [exact Hrun | exact Hdev].
Defined.

(** ** Where the bytes of a file are *)

Lemma same_block (offset k : Z) :
  0 <= offset -> 0 <= k -> offset mod DISK_SECTOR_SIZE + k < DISK_SECTOR_SIZE ->
  (offset + k) / DISK_SECTOR_SIZE = offset / DISK_SECTOR_SIZE /\
  (offset + k) mod DISK_SECTOR_SIZE = offset mod DISK_SECTOR_SIZE + k.
Proof.
  unfold DISK_SECTOR_SIZE. intros Ho Hk Hlt.
  pose proof (Z.div_mod offset 512 ltac:(lia)) as Hdm.
  pose proof (Z.mod_pos_bound offset 512 eq_refl) as Hb.
  split.
  - symmetry. apply (Z.div_unique _ _ _ (offset mod 512 + k)); lia.
  - symmetry. apply (Z.mod_unique _ _ (offset / 512)); lia.
Qed.

Lemma wrap_uint_inj (start q1 q2 : Z) :
  0 <= q1 < 4294967296 -> 0 <= q2 < 4294967296 ->
  wrap_uint (start + q1) = wrap_uint (start + q2) -> q1 = q2.
Proof.
  unfold wrap_uint. intros H1 H2 Heq.
  pose proof (Z.div_mod (start + q1) 4294967296 ltac:(lia)) as D1.
  pose proof (Z.div_mod (start + q2) 4294967296 ltac:(lia)) as D2.
  rewrite Heq in D1. lia.
Qed.

Lemma byte_to_sector_inside (ino : inode.t) (pos : Z) :
  0 <= pos < inode_length ino ->
  byte_to_sector ino pos =
  wrap_uint (inode_disk.start (inode.data ino) + pos / DISK_SECTOR_SIZE).
Proof.
  intros H. unfold byte_to_sector, inode_length in *.
  destruct (Z.ltb_spec pos (inode_disk.length (inode.data ino))); [|lia].
  rewrite Z.quot_div_nonneg by (unfold DISK_SECTOR_SIZE; lia). reflexivity.
Qed.

Lemma byte_to_sector_block (ino : inode.t) (p1 p2 : Z) :
  inode_length ino <= INT_MAX ->
  0 <= p1 < inode_length ino -> 0 <= p2 < inode_length ino ->
  (byte_to_sector ino p1 = byte_to_sector ino p2 <->
   p1 / DISK_SECTOR_SIZE = p2 / DISK_SECTOR_SIZE).
Proof.
  intros Hlen H1 H2. rewrite !byte_to_sector_inside by assumption.
  unfold INT_MAX, DISK_SECTOR_SIZE in *.
  assert (forall p, 0 <= p < inode_length ino -> 0 <= p / 512 < 4294967296) as Hq.
  { intros p Hp. split; [apply Z.div_pos; lia | apply Z.div_lt_upper_bound; lia]. }
  split; [apply wrap_uint_inj; auto | intros ->; reflexivity].
Qed.

Lemma file_byte_same_view (c c' : bcache) (ino : inode.t) (pos : Z) :
  file_sectors_real ino -> 0 <= pos < inode_length ino ->
  (forall s, real_sector s -> view c' s = view c s) ->
  file_byte c' ino pos = file_byte c ino pos.
Proof. intros Hreal Hpos Hview. unfold file_byte. rewrite Hview; auto. Qed.

Ltac nothing_read :=
  split; [reflexivity|]; split; [reflexivity|]; split; [assumption|];
  split; [reflexivity|]; intros; lia.

Lemma inode_read_loop_content (fuel : nat) (ino : inode.t) (n : nat) :
  forall (c : bcache) (size offset bytes_read : Z) (out : list byte),
  (Z.to_nat size <= n)%nat -> cache_inv c -> (65 <= fuel)%nat ->
  transfer_args ino size offset -> file_sectors_real ino ->
  0 <= bytes_read -> bytes_read + size <= INT_MAX ->
  let t := Z.min size (Z.max 0 (inode_length ino - offset)) in
  exists c' bytes,
    inode_read_loop fuel ino c size offset bytes_read out
      = Some (c', out ++ bytes, bytes_read + t) /\
    Z.of_nat (length bytes) = t /\ cache_inv c' /\
    (forall s, real_sector s -> view c' s = view c s) /\
    (forall k : nat, Z.of_nat k < t ->
       bytes !! k = file_byte c ino (offset + Z.of_nat k)).
Proof.
  induction n as [|n IH]; intros c size offset bytes_read out Hn Hinv Hfuel
    (Hsize & Hoff & Hlen & Hsub) Hreal Hbr Hsum; cbv zeta;
    rewrite inode_read_loop_step.
  - destruct (Z.ltb_spec 0 size); [lia|]. simpl.
    exists c, []. replace (Z.min size _) with 0 by lia.
    rewrite app_nil_r, Z.add_0_r. nothing_read.
  - destruct (Z.ltb_spec 0 size) as [Hpos|]; simpl;
      [|exists c, []; replace (Z.min size _) with 0 by lia;
        rewrite app_nil_r, Z.add_0_r; nothing_read].
    destruct (Z.ltb_spec 0 (chunk_size ino size offset)) as [Hchunk|Hchunk].
    + destruct (chunk_size_bounds ino size offset (proj1 Hoff) Hsub Hchunk)
        as (Hrange & Hle & Hleft).
      set (k0 := chunk_size ino size offset) in *.
      destruct (_disk_read_sound fuel c (byte_to_sector ino offset) _ _ Hinv Hrange Hfuel)
        as (c1 & -> & Hinv1 & Hview1).
      unfold in_int, INT_MIN, INT_MAX in *.
      rewrite !wrap_int_id by (unfold in_int, INT_MIN, INT_MAX; lia).
      set (chunk := take (Z.to_nat k0)
                      (drop (Z.to_nat (Z.rem offset DISK_SECTOR_SIZE))
                         (view c (byte_to_sector ino offset)))).
      destruct (IH c1 (size - k0) (offset + k0) (bytes_read + k0) (out ++ chunk))
        as (c' & bytes1 & Hrun & Hlen1 & Hinv' & Hview' & Hbytes1);
        try lia; try assumption.
      { unfold transfer_args, in_int, INT_MIN, INT_MAX. lia. }
      cbv zeta in Hrun, Hlen1, Hbytes1.
      pose proof (view_sized c (byte_to_sector ino offset) Hinv) as Hv.
      assert (Z.of_nat (length chunk) = k0) as Hclen.
      { subst chunk. rewrite length_take, length_drop.
        destruct Hrange as (? & ? & ?). lia. }
      exists c', (chunk ++ bytes1). rewrite Hrun, app_assoc.
      split; [f_equal; f_equal; lia|].
      split; [rewrite length_app; lia|]. split; [exact Hinv'|].
      split; [intros s Hs; rewrite Hview', Hview1 by assumption; reflexivity|].
      intros k Hk.
      assert (Z.rem offset DISK_SECTOR_SIZE = offset mod DISK_SECTOR_SIZE) as Hrem
        by (apply Z.rem_mod_nonneg; unfold DISK_SECTOR_SIZE; lia).
      destruct (Z.lt_ge_cases (Z.of_nat k) k0) as [Hin|Hout].
      * rewrite lookup_app_l by lia. subst chunk.
        rewrite copy_out_lookup by lia. unfold file_byte.
        destruct Hrange as (Hr1 & Hr2 & Hr3). rewrite Hrem in *.
        destruct (same_block offset (Z.of_nat k)) as [Hq Hm]; [lia..|].
        assert (byte_to_sector ino (offset + Z.of_nat k) = byte_to_sector ino offset) as ->.
        { refine (proj2 (byte_to_sector_block ino _ offset _ _ _) Hq);
            unfold INT_MAX; lia. }
        rewrite Hm. f_equal. lia.
      * rewrite lookup_app_r by lia.
        replace (k - length chunk)%nat with (Z.to_nat (Z.of_nat k - k0)) by lia.
        rewrite (Hbytes1 (Z.to_nat (Z.of_nat k - k0))) by lia.
        rewrite Z2Nat.id by lia.
        replace (offset + k0 + (Z.of_nat k - k0)) with (offset + Z.of_nat k) by lia.
        apply file_byte_same_view; [exact Hreal | lia | exact Hview1].
    + rewrite chunk_size_min in Hchunk by tauto.
      pose proof (Z.mod_pos_bound offset DISK_SECTOR_SIZE) as Hm.
      exists c, []. replace (Z.min size _) with 0
        by (unfold DISK_SECTOR_SIZE in *; lia).
      rewrite app_nil_r, Z.add_0_r. nothing_read.
Qed.

Lemma inode_write_loop_content (fuel : nat) (ino : inode.t) (src : list byte) (n : nat) :
  forall (c : bcache) (size offset bytes_written : Z),
  (Z.to_nat size <= n)%nat -> cache_inv c -> (65 <= fuel)%nat ->
  transfer_args ino size offset -> file_sectors_real ino ->
  0 <= bytes_written -> bytes_written + size <= INT_MAX ->
  bytes_written + size <= Z.of_nat (length src) ->
  let t := Z.min size (Z.max 0 (inode_length ino - offset)) in
  exists c',
    inode_write_loop fuel ino src c size offset bytes_written
      = Some (c', bytes_written + t) /\
    cache_inv c' /\
    (forall pos, 0 <= pos < inode_length ino ->
       file_byte c' ino pos =
       if (offset <=? pos) && (pos <? offset + t)
       then src !! Z.to_nat (bytes_written + (pos - offset))
       else file_byte c ino pos) /\
    (forall s, real_sector s ->
       (forall pos, offset <= pos < offset + t -> byte_to_sector ino pos <> s) ->
       view c' s = view c s).
Proof.
  induction n as [|n IH]; intros c size offset bytes_written Hn Hinv Hfuel
    (Hsize & Hoff & Hlen & Hsub) Hreal Hbr Hsum Hsrc; cbv zeta;
    rewrite inode_write_loop_step.
  - destruct (Z.ltb_spec 0 size); [lia|]. simpl.
    exists c. replace (Z.min size _) with 0 by lia. rewrite !Z.add_0_r.
    split; [reflexivity|]. split; [assumption|]. split; [|reflexivity].
    intros pos Hpos. destruct (Z.leb_spec offset pos); destruct (Z.ltb_spec pos offset);
      simpl; try reflexivity; lia.
  - assert (forall c0 : bcache, cache_inv c0 ->
              Z.min size (Z.max 0 (inode_length ino - offset)) = 0 ->
              exists c', Some (c0, bytes_written) =
                Some (c', bytes_written + Z.min size (Z.max 0 (inode_length ino - offset))) /\
              cache_inv c' /\
              (forall pos, 0 <= pos < inode_length ino ->
                 file_byte c' ino pos =
                 if (offset <=? pos) &&
                    (pos <? offset + Z.min size (Z.max 0 (inode_length ino - offset)))
                 then src !! Z.to_nat (bytes_written + (pos - offset))
                 else file_byte c0 ino pos) /\
              (forall s, real_sector s ->
                 (forall pos, offset <= pos <
                    offset + Z.min size (Z.max 0 (inode_length ino - offset)) ->
                    byte_to_sector ino pos <> s) ->
                 view c' s = view c0 s)) as Hnothing.
    { intros c0 Hinv0 ->. exists c0. rewrite !Z.add_0_r.
      split; [reflexivity|]. split; [assumption|]. split; [|reflexivity].
      intros pos Hpos. destruct (Z.leb_spec offset pos); destruct (Z.ltb_spec pos offset);
        simpl; try reflexivity; lia. }
    destruct (Z.ltb_spec 0 size) as [Hpos|]; simpl; [|apply Hnothing; [assumption | lia]].
    destruct (Z.ltb_spec 0 (chunk_size ino size offset)) as [Hchunk|Hchunk].
    + clear Hnothing.
      destruct (chunk_size_bounds ino size offset (proj1 Hoff) Hsub Hchunk)
        as (Hrange & Hle & Hleft).
      set (k0 := chunk_size ino size offset) in *.
      assert (Z.rem offset DISK_SECTOR_SIZE = offset mod DISK_SECTOR_SIZE) as Hrem
        by (apply Z.rem_mod_nonneg; unfold DISK_SECTOR_SIZE; lia).
      rewrite Hrem in *.
      set (sec := byte_to_sector ino offset) in *.
      destruct (_disk_write_sound fuel c sec (drop (Z.to_nat bytes_written) src)
                  _ _ Hinv Hrange)
        as (c1 & -> & Hinv1 & Hsame1 & Hother1); [rewrite length_drop; lia | assumption |].
      unfold in_int, INT_MIN, INT_MAX in *.
      rewrite !wrap_int_id by (unfold in_int, INT_MIN, INT_MAX; lia).
      destruct (IH c1 (size - k0) (offset + k0) (bytes_written + k0))
        as (c' & Hrun & Hinv' & Hbytes' & Hview'); try lia; try assumption.
      { unfold transfer_args, in_int, INT_MIN, INT_MAX. lia. }
      cbv zeta in Hrun, Hbytes', Hview'.
      set (t1 := Z.min (size - k0) (Z.max 0 (inode_length ino - (offset + k0)))) in *.
      assert (Z.min size (Z.max 0 (inode_length ino - offset)) = k0 + t1) as Ht
        by (subst t1; lia).
      assert (0 <= t1) as Ht1 by (subst t1; lia).
      rewrite Ht.
      exists c'. rewrite Hrun. split; [f_equal; f_equal; lia|]. split; [exact Hinv'|].
      pose proof (view_sized c sec Hinv) as Hv.
      destruct Hrange as (Hr1 & Hr2 & Hr3).
      (* the bytes of the file after the first chunk *)
      assert (forall pos, 0 <= pos < inode_length ino ->
                file_byte c1 ino pos =
                if (offset <=? pos) && (pos <? offset + k0)
                then src !! Z.to_nat (bytes_written + (pos - offset))
                else file_byte c ino pos) as Hstep.
      { intros pos Hpos'.
        destruct (Z.eq_dec (pos / DISK_SECTOR_SIZE) (offset / DISK_SECTOR_SIZE)) as [Hq|Hq].
        - assert (byte_to_sector ino pos = sec) as Hsp.
          { refine (proj2 (byte_to_sector_block ino pos offset _ _ _) Hq);
              unfold INT_MAX; lia. }
          unfold file_byte. rewrite Hsp, Hsame1.
          rewrite splice_lookup; [|lia|lia|lia|rewrite length_drop; lia].
          pose proof (Z.mod_pos_bound pos DISK_SECTOR_SIZE eq_refl) as Hpm.
          rewrite Z2Nat.id by lia.
          pose proof (Z.div_mod pos DISK_SECTOR_SIZE ltac:(unfold DISK_SECTOR_SIZE; lia)) as D1.
          pose proof (Z.div_mod offset DISK_SECTOR_SIZE ltac:(unfold DISK_SECTOR_SIZE; lia))
            as D2.
          rewrite Hq in D1.
          assert (pos mod DISK_SECTOR_SIZE - offset mod DISK_SECTOR_SIZE = pos - offset)
            as Hdiff by lia.
          destruct (Z.leb_spec (offset mod DISK_SECTOR_SIZE) (pos mod DISK_SECTOR_SIZE));
            destruct (Z.leb_spec offset pos); try lia; simpl; [|reflexivity].
          destruct (Z.ltb_spec (pos mod DISK_SECTOR_SIZE)
                      (offset mod DISK_SECTOR_SIZE + k0));
            destruct (Z.ltb_spec pos (offset + k0)); try lia; [|reflexivity].
          rewrite lookup_drop, Hdiff. f_equal. lia.
        - assert (byte_to_sector ino pos <> sec) as Hsp.
          { intros Heq. apply Hq.
            refine (proj1 (byte_to_sector_block ino pos offset _ _ _) Heq);
              unfold INT_MAX; lia. }
          unfold file_byte. rewrite Hother1; [|apply Hreal; lia|exact Hsp].
          destruct (Z.leb_spec offset pos); [|reflexivity].
          destruct (Z.ltb_spec pos (offset + k0)); [|reflexivity].
          exfalso. apply Hq.
          replace pos with (offset + (pos - offset)) by lia.
          apply same_block; lia. }
      split.
      * intros pos Hpos'. rewrite Hbytes' by assumption. rewrite (Hstep pos Hpos').
        destruct (Z.leb_spec (offset + k0) pos); destruct (Z.leb_spec offset pos);
          destruct (Z.ltb_spec pos (offset + k0 + t1));
          destruct (Z.ltb_spec pos (offset + k0));
          destruct (Z.ltb_spec pos (offset + (k0 + t1))); simpl; try lia;
          try reflexivity.
        f_equal. lia.
      * intros s Hs Hnot. rewrite Hview'; [|exact Hs|intros pos Hp; apply Hnot; lia].
        apply Hother1; [exact Hs|].
        intros ->. apply (Hnot offset); [lia | reflexivity].
    + apply Hnothing; [assumption|].
      rewrite chunk_size_min in Hchunk by tauto.
      pose proof (Z.mod_pos_bound offset DISK_SECTOR_SIZE) as Hm.
      unfold DISK_SECTOR_SIZE in *. lia.
Qed.

Lemma sample_file_real : file_sectors_real sample_inode.
Proof.
  intros pos Hpos. change (inode_length sample_inode) with 1000 in Hpos.
  rewrite byte_to_sector_inside by (change (inode_length sample_inode) with 1000; lia).
  change (inode_disk.start (inode.data sample_inode)) with 20.
  unfold real_sector, NO_SECTOR, wrap_uint, DISK_SECTOR_SIZE.
  assert (0 <= pos / 512 < 2) as Hq
    by (split; [apply Z.div_pos; lia | apply Z.div_lt_upper_bound; lia]).
  rewrite Z.mod_small by lia. change (-1 mod 4294967296) with 4294967295. lia.
Qed.

(** ** The claim about the bytes a transfer moves *)

(** C6.  For a byte count and a position that are not negative,
    [inode_read_at] and (with no writer denied) [inode_write_at] transfer
    and return [min (size, max (0, length - offset))] bytes: the read hands
    over the bytes of the file from [offset] on and leaves the file as it
    is, the write puts the caller's bytes at these positions and leaves the
    other bytes of the file as they are; every chunk is the least of the
    bytes still requested, the bytes left in the sector and the bytes left
    in the file; an inode of length 0 yields 0 bytes and no cache traffic
    for every size; and a byte count that is not positive moves nothing at
    any position. *)
Theorem inode_transfer_count (fuel : nat) (c : bcache) (ino : inode.t)
    (src : list byte) (size offset : Z) :
  cache_inv c -> (65 <= fuel)%nat -> transfer_args ino size offset ->
  let n := Z.min size (Z.max 0 (inode_length ino - offset)) in
  (exists c' out,
     inode_read_at fuel c ino size offset = Some (c', out, n) /\
     Z.of_nat (length out) = n /\ cache_inv c' /\
     (file_sectors_real ino ->
      (forall k : nat, Z.of_nat k < n ->
         out !! k = file_byte c ino (offset + Z.of_nat k)) /\
      (forall pos, 0 <= pos < inode_length ino ->
         file_byte c' ino pos = file_byte c ino pos))) /\
  (inode.deny_write_cnt ino = 0 -> size <= Z.of_nat (length src) ->
   exists c',
     inode_write_at fuel c ino src size offset = Some (c', n) /\ cache_inv c' /\
     (file_sectors_real ino ->
      forall pos, 0 <= pos < inode_length ino ->
        file_byte c' ino pos =
        if (offset <=? pos) && (pos <? offset + n)
        then src !! Z.to_nat (pos - offset)
        else file_byte c ino pos)) /\
  chunk_size ino size offset =
    Z.min size (Z.min (DISK_SECTOR_SIZE - offset mod DISK_SECTOR_SIZE)
                      (inode_length ino - offset)) /\
  (inode_length ino = 0 ->
   forall size', inode_read_at fuel c ino size' offset = Some (c, [], 0)) /\
  (forall size' offset', size' <= 0 ->
     inode_read_at fuel c ino size' offset' = Some (c, [], 0) /\
     inode_write_at fuel c ino src size' offset' = Some (c, 0)).
Proof.
  intros Hinv Hfuel Hargs. cbv zeta.
  pose proof Hargs as (Hsize & Hoff & Hlen & Hsub).
  split; [|split; [|split; [|split]]].
  - destruct (inode_read_loop_sound fuel ino (Z.to_nat size) c size offset 0 []
                (le_n _) Hinv Hfuel Hargs (Z.le_refl 0))
      as (c' & out & Hrun & Hout & Hinv'); [lia|].
    cbv zeta in Hrun. rewrite Z.add_0_l in Hrun.
    exists c', out. unfold inode_read_at. rewrite Hrun.
    simpl in Hout. split; [reflexivity|]. split; [exact Hout|]. split; [exact Hinv'|].
    intros Hreal.
    destruct (inode_read_loop_content fuel ino (Z.to_nat size) c size offset 0 []
                (le_n _) Hinv Hfuel Hargs Hreal (Z.le_refl 0))
      as (c2 & bytes & Hrun2 & _ & _ & Hview & Hbytes); [lia|].
    cbv zeta in Hrun2, Hbytes. rewrite Z.add_0_l, Hrun in Hrun2. simpl in Hrun2.
    injection Hrun2 as <- <-.
    split; [exact Hbytes|].
    intros pos Hpos. apply file_byte_same_view; assumption.
  - intros Hdeny Hsrc.
    destruct (inode_write_loop_sound fuel ino src (Z.to_nat size) c size offset 0
                (le_n _) Hinv Hfuel Hargs (Z.le_refl 0))
      as (c' & Hrun & Hinv'); [lia | lia |].
    cbv zeta in Hrun. rewrite Z.add_0_l in Hrun.
    exists c'. unfold inode_write_at. rewrite Hdeny. simpl. rewrite Hrun.
    split; [reflexivity|]. split; [exact Hinv'|].
    intros Hreal.
    destruct (inode_write_loop_content fuel ino src (Z.to_nat size) c size offset 0
                (le_n _) Hinv Hfuel Hargs Hreal (Z.le_refl 0))
      as (c2 & Hrun2 & _ & Hbytes & _); [lia | lia |].
    cbv zeta in Hrun2, Hbytes. rewrite Z.add_0_l, Hrun in Hrun2.
    injection Hrun2 as <-.
    intros pos Hpos. rewrite (Hbytes pos Hpos), Z.add_0_l. reflexivity.
  - apply chunk_size_min; tauto.
  - intros Hzero size'. unfold inode_read_at. rewrite inode_read_loop_step.
    destruct (Z.ltb_spec 0 size'); [|reflexivity]. simpl.
    rewrite chunk_size_min by tauto.
    pose proof (Z.mod_pos_bound offset DISK_SECTOR_SIZE) as Hm.
    destruct (Z.ltb_spec 0 (Z.min size'
                (Z.min (DISK_SECTOR_SIZE - offset mod DISK_SECTOR_SIZE)
                       (inode_length ino - offset)))); [|reflexivity].
    unfold DISK_SECTOR_SIZE in *. lia.
  - intros size' offset' Hneg. split.
    + unfold inode_read_at. rewrite inode_read_loop_step.
      destruct (Z.ltb_spec 0 size'); [lia | reflexivity].
    + unfold inode_write_at. destruct (negb _); [reflexivity|].
      rewrite inode_write_loop_step.
      destruct (Z.ltb_spec 0 size'); [lia | reflexivity].
Qed.

(** 600 bytes asked for at position 700 of the 1000-byte sample file: 300
    are read, and 300 are written, each where it belongs. *)
Lemma inode_transfer_count_witness :
  (exists c' out,
     inode_read_at 65 (cache_init sample_garbage sample_disk) sample_inode 600 700
       = Some (c', out, 300) /\
     Z.of_nat (length out) = 300 /\
     out !! 0%nat = file_byte (cache_init sample_garbage sample_disk) sample_inode 700) /\
  (exists c',
     inode_write_at 65 (cache_init sample_garbage sample_disk) sample_inode
       (replicate 600 x2a) 600 700 = Some (c', 300) /\
     file_byte c' sample_inode 750 = Some x2a /\
     file_byte c' sample_inode 10
       = file_byte (cache_init sample_garbage sample_disk) sample_inode 10).
Proof.
  assert (600 <= Z.of_nat (length (replicate 600 x2a))) as Hsrc
    by (rewrite length_replicate; lia).
  destruct (inode_transfer_count 65 (cache_init sample_garbage sample_disk)
              sample_inode (replicate 600 x2a) 600 700
              (cache_init_inv _ _ sample_start_sized) (le_n 65) sample_transfer_args)
    as ((c1 & out & Hread & Hlen & _ & Hout) & Hwrite & _).
  split.
  - exists c1, out. split; [exact Hread|]. split; [exact Hlen|].
    destruct (Hout sample_file_real) as [Hbytes _].
    rewrite (Hbytes 0%nat) by (vm_compute; reflexivity). reflexivity.
  - destruct (Hwrite eq_refl Hsrc) as (c2 & Hrun & _ & Hbytes).
    exists c2. split; [exact Hrun|].
    split; rewrite (Hbytes sample_file_real)
      by (vm_compute; split; [discriminate | reflexivity]); reflexivity.
Defined.

(** A read of 5 bytes at position -512 of an inode of length 0 returns 5
    bytes, the first of the sector before the one given as its start: the
    position is below the length, so [byte_to_sector] answers with a
    sector, and the file has 512 bytes left from there.  A read of -3
    bytes returns 0, not -3; and a read at position -1 copies from one byte
    before the slot's buffer, which C gives no meaning. *)
Lemma inode_read_at_negative_offset_counterexample :
  inode_length sample_empty_inode = 0 /\
  byte_to_sector sample_empty_inode (-512) = 19 /\
  (exists c',
     inode_read_at 65 (cache_init sample_garbage sample_disk) sample_empty_inode 5 (-512)
       = Some (c', replicate 5 x13, 5)) /\
  inode_read_at 65 (cache_init sample_garbage sample_disk) sample_inode (-3) 0
    = Some (cache_init sample_garbage sample_disk, [], 0) /\
  inode_read_at 65 (cache_init sample_garbage sample_disk) sample_inode 5 (-1) = None.
Proof.
  split; [reflexivity|]. split; [reflexivity|]. split; [|split].
  - assert (in_sector 0 5) as Hrange by (unfold in_sector, DISK_SECTOR_SIZE; lia).
    destruct (_disk_read_sound 65 (cache_init sample_garbage sample_disk) 19 0 5
                (cache_init_inv _ _ sample_start_sized) Hrange (le_n 65))
      as (c' & Hread & _).
    rewrite view_init in Hread by (vm_compute; discriminate).
    exists c'. unfold inode_read_at. rewrite inode_read_loop_step.
    change (chunk_size sample_empty_inode 5 (-512)) with 5.
    change (byte_to_sector sample_empty_inode (-512)) with 19.
    change (Z.rem (-512) DISK_SECTOR_SIZE) with 0.
    change ((0 <? 5) && (0 <? 5)) with true. cbv iota.
    rewrite Hread. rewrite inode_read_loop_step.
    change (0 <? 5 - 5) with false. reflexivity.
  - unfold inode_read_at. rewrite inode_read_loop_step. reflexivity.
  - unfold inode_read_at. rewrite inode_read_loop_step.
    change (chunk_size sample_inode 5 (-1)) with 5.
    change (byte_to_sector sample_inode (-1)) with 20.
    change (Z.rem (-1) DISK_SECTOR_SIZE) with (-1).
    change ((0 <? 5) && (0 <? 5)) with true. cbv iota.
    assert (_disk_read 65 (cache_init sample_garbage sample_disk) 20 (-1) 5 = None) as ->
      by (vm_compute; reflexivity).
    reflexivity.
Qed.

(** X5.  [inode_read_at] hands the caller, byte for byte, what the cache
    presents at the file positions from [offset] on, and it changes the
    contents of no sector: every sector of the device, and so every byte of
    the file, reads the same afterwards. *)
Theorem inode_read_at_content (fuel : nat) (c : bcache) (ino : inode.t) (size offset : Z) :
  cache_inv c -> (65 <= fuel)%nat -> transfer_args ino size offset ->
  file_sectors_real ino ->
  let n := Z.min size (Z.max 0 (inode_length ino - offset)) in
  exists c' out,
    inode_read_at fuel c ino size offset = Some (c', out, n) /\
    Z.of_nat (length out) = n /\
    (forall k : nat, Z.of_nat k < n -> out !! k = file_byte c ino (offset + Z.of_nat k)) /\
    (forall s, real_sector s -> view c' s = view c s) /\
    (forall pos, 0 <= pos < inode_length ino -> file_byte c' ino pos = file_byte c ino pos).
Proof.
  intros Hinv Hfuel Hargs Hreal. cbv zeta.
  pose proof Hargs as (Hsize & _).
  destruct (inode_read_loop_content fuel ino (Z.to_nat size) c size offset 0 []
              (le_n _) Hinv Hfuel Hargs Hreal (Z.le_refl 0))
    as (c' & out & Hrun & Hout & _ & Hview & Hbytes); [lia|].
  cbv zeta in Hrun, Hout, Hbytes. rewrite Z.add_0_l in Hrun. simpl in Hrun.
  exists c', out. unfold inode_read_at. rewrite Hrun.
  split; [reflexivity|]. split; [exact Hout|]. split; [exact Hbytes|].
  split; [exact Hview|].
  intros pos Hpos. apply file_byte_same_view; assumption.
Qed.

Lemma inode_read_at_content_witness :
  exists c' out,
    inode_read_at 65 (cache_init sample_garbage sample_disk) sample_inode 600 700
      = Some (c', out, 300) /\
    Z.of_nat (length out) = 300 /\
    forall k : nat, Z.of_nat k < 300 ->
      out !! k = file_byte (cache_init sample_garbage sample_disk) sample_inode
                   (700 + Z.of_nat k).
Proof.
  destruct (inode_read_at_content 65 (cache_init sample_garbage sample_disk) sample_inode
              600 700 (cache_init_inv _ _ sample_start_sized) (le_n 65)
              sample_transfer_args sample_file_real)
    as (c' & out & Hrun & Hlen & Hbytes & _).
  exists c', out. split; [exact Hrun|]. split; [exact Hlen | exact Hbytes].
Defined.

(** X6.  [inode_write_at], with no writer denied, replaces exactly the
    bytes of the file from [offset] up to the end of the request or of the
    file, whichever comes first, by the caller's bytes in order; the other
    bytes of the file and every sector outside the written range read as
    before. *)
Theorem inode_write_at_content (fuel : nat) (c : bcache) (ino : inode.t)
    (src : list byte) (size offset : Z) :
  cache_inv c -> (65 <= fuel)%nat -> transfer_args ino size offset ->
  file_sectors_real ino ->
  inode.deny_write_cnt ino = 0 -> size <= Z.of_nat (length src) ->
  let n := Z.min size (Z.max 0 (inode_length ino - offset)) in
  exists c',
    inode_write_at fuel c ino src size offset = Some (c', n) /\
    cache_inv c' /\
    (forall pos, 0 <= pos < inode_length ino ->
       file_byte c' ino pos =
       if (offset <=? pos) && (pos <? offset + n)
       then src !! Z.to_nat (pos - offset)
       else file_byte c ino pos) /\
    (forall s, real_sector s ->
       (forall pos, offset <= pos < offset + n -> byte_to_sector ino pos <> s) ->
       view c' s = view c s).
Proof.
  intros Hinv Hfuel Hargs Hreal Hdeny Hsrc. cbv zeta.
  pose proof Hargs as (Hsize & _).
  destruct (inode_write_loop_content fuel ino src (Z.to_nat size) c size offset 0
              (le_n _) Hinv Hfuel Hargs Hreal (Z.le_refl 0))
    as (c' & Hrun & Hinv' & Hbytes & Hview); [lia | lia |].
  cbv zeta in Hrun, Hbytes, Hview. rewrite Z.add_0_l in Hrun.
  exists c'. unfold inode_write_at. rewrite Hdeny. simpl. rewrite Hrun.
  split; [reflexivity|]. split; [exact Hinv'|]. split; [|exact Hview].
  intros pos Hpos. rewrite (Hbytes pos Hpos). rewrite Z.add_0_l. reflexivity.
Qed.

Lemma inode_write_at_content_witness :
  exists c',
    inode_write_at 65 (cache_init sample_garbage sample_disk) sample_inode
      (replicate 600 x2a) 600 700 = Some (c', 300) /\
    cache_inv c' /\
    forall pos, 0 <= pos < 1000 ->
      file_byte c' sample_inode pos =
      if (700 <=? pos) && (pos <? 700 + 300)
      then replicate 600 x2a !! Z.to_nat (pos - 700)
      else file_byte (cache_init sample_garbage sample_disk) sample_inode pos.
Proof.
  assert (600 <= Z.of_nat (length (replicate 600 x2a))) as Hsrc
    by (rewrite length_replicate; lia).
  destruct (inode_write_at_content 65 (cache_init sample_garbage sample_disk) sample_inode
              (replicate 600 x2a) 600 700 (cache_init_inv _ _ sample_start_sized) (le_n 65)
              sample_transfer_args sample_file_real eq_refl Hsrc)
    as (c' & Hrun & Hinv' & Hbytes & _).
  exists c'. split; [exact Hrun|]. split; [exact Hinv' | exact Hbytes].
Defined.

(** X7.  What [inode_write_at] wrote, [inode_read_at] returns: after a
    write of [size] bytes at [offset], a read of [size] bytes at [offset]
    gives back the first [n] bytes of the writer's buffer, [n] being the
    count both calls return. *)
Theorem inode_write_then_read (fuel : nat) (c : bcache) (ino : inode.t)
    (src : list byte) (size offset : Z) :
  cache_inv c -> (65 <= fuel)%nat -> transfer_args ino size offset ->
  file_sectors_real ino ->
  inode.deny_write_cnt ino = 0 -> size <= Z.of_nat (length src) ->
  let n := Z.min size (Z.max 0 (inode_length ino - offset)) in
  exists c1 c2,
    inode_write_at fuel c ino src size offset = Some (c1, n) /\
    inode_read_at fuel c1 ino size offset = Some (c2, take (Z.to_nat n) src, n).
Proof.
  intros Hinv Hfuel Hargs Hreal Hdeny Hsrc. cbv zeta.
  pose proof Hargs as (Hsize & Hoff & _).
  destruct (inode_write_loop_content fuel ino src (Z.to_nat size) c size offset 0
              (le_n _) Hinv Hfuel Hargs Hreal (Z.le_refl 0))
    as (c1 & Hw & Hinv1 & Hbytes & _); [lia | lia |].
  destruct (inode_read_loop_content fuel ino (Z.to_nat size) c1 size offset 0 []
              (le_n _) Hinv1 Hfuel Hargs Hreal (Z.le_refl 0))
    as (c2 & out & Hr & Hlen & _ & _ & Hout); [lia|].
  cbv zeta in *.
  set (n := Z.min size (Z.max 0 (inode_length ino - offset))) in *.
  rewrite Z.add_0_l in Hw, Hr. simpl in Hr.
  exists c1, c2. unfold inode_write_at, inode_read_at. rewrite Hdeny. simpl.
  split; [exact Hw|]. rewrite Hr. f_equal. f_equal. f_equal.
  apply list_eq. intros k.
  destruct (Z.lt_ge_cases (Z.of_nat k) n) as [Hk|Hk].
  - rewrite (Hout k Hk), Hbytes by lia.
    destruct (Z.leb_spec offset (offset + Z.of_nat k)); [|lia].
    destruct (Z.ltb_spec (offset + Z.of_nat k) (offset + n)); [|lia]. simpl.
    rewrite lookup_take_lt by lia. f_equal. lia.
  - rewrite lookup_ge_None_2 by lia. symmetry.
    apply lookup_ge_None_2. rewrite length_take. lia.
Qed.

Lemma inode_write_then_read_witness :
  exists c1 c2,
    inode_write_at 65 (cache_init sample_garbage sample_disk) sample_inode
      (replicate 600 x2a) 600 700 = Some (c1, 300) /\
    inode_read_at 65 c1 sample_inode 600 700
      = Some (c2, take (Z.to_nat 300) (replicate 600 x2a), 300).
Proof.
  assert (600 <= Z.of_nat (length (replicate 600 x2a))) as Hsrc
    by (rewrite length_replicate; lia).
  exact (inode_write_then_read 65 (cache_init sample_garbage sample_disk) sample_inode
           (replicate 600 x2a) 600 700 (cache_init_inv _ _ sample_start_sized) (le_n 65)
           sample_transfer_args sample_file_real eq_refl Hsrc).
Defined.

(** X8.  [byte_to_sector] answers the marker for every position at or past
    the end of the file, and for a position inside the file one of the
    sectors [inode_create] asked the allocator for, the one [pos / 512]
    places after the first.  When the run lies inside the sector numbers
    of the device the answer is between the first and the last sector of
    the run and is not the marker. *)
Theorem byte_to_sector_in_run (ino : inode.t) :
  0 <= inode_length ino <= INT_MAX ->
  let start := inode_disk.start (inode.data ino) in
  let n := bytes_to_sectors (inode_length ino) in
  (forall pos, inode_length ino <= pos -> byte_to_sector ino pos = NO_SECTOR) /\
  (forall pos, 0 <= pos < inode_length ino ->
     byte_to_sector ino pos = wrap_uint (start + pos / DISK_SECTOR_SIZE) /\
     0 <= pos / DISK_SECTOR_SIZE < n /\
     byte_to_sector ino pos ∈ data_sectors start (inode_length ino)) /\
  (0 <= start -> start + n <= NO_SECTOR ->
   forall pos, 0 <= pos < inode_length ino ->
     start <= byte_to_sector ino pos < start + n /\
     real_sector (byte_to_sector ino pos)).
Proof.
  intros Hlen. cbv zeta.
  destruct (bytes_to_sectors_ceil _ Hlen) as [Hceil Hn]. cbv zeta in Hceil.
  assert (forall pos, 0 <= pos < inode_length ino ->
            0 <= pos / DISK_SECTOR_SIZE < bytes_to_sectors (inode_length ino)) as Hq.
  { intros pos Hpos. unfold DISK_SECTOR_SIZE in *.
    split; [apply Z.div_pos; lia | apply Z.div_lt_upper_bound; lia]. }
  split; [|split].
  - intros pos Hpos. unfold byte_to_sector, inode_length in *.
    destruct (Z.ltb_spec pos (inode_disk.length (inode.data ino))); [lia | reflexivity].
  - intros pos Hpos. rewrite byte_to_sector_inside by assumption.
    split; [reflexivity|]. split; [apply Hq, Hpos|].
    unfold data_sectors. apply list_elem_of_fmap.
    exists (Z.to_nat (pos / DISK_SECTOR_SIZE)). specialize (Hq pos Hpos).
    split; [rewrite Z2Nat.id by lia; reflexivity|].
    apply elem_of_seq. lia.
  - intros Hstart Hrun pos Hpos. rewrite byte_to_sector_inside by assumption.
    specialize (Hq pos Hpos). unfold real_sector.
    unfold NO_SECTOR, wrap_uint in *. change (-1 mod 4294967296) with 4294967295 in *.
    rewrite Z.mod_small by lia. lia.
Qed.

Lemma byte_to_sector_in_run_witness :
  0 <= inode_length sample_inode <= INT_MAX /\
  byte_to_sector sample_inode 1000 = NO_SECTOR /\
  byte_to_sector sample_inode 999 ∈ data_sectors 20 1000.
Proof.
  assert (0 <= inode_length sample_inode <= INT_MAX) as H
    by (change (inode_length sample_inode) with 1000; unfold INT_MAX; lia).
  split; [exact H|].
  destruct (byte_to_sector_in_run sample_inode H) as (Hout & Hin & _).
  split; [apply Hout; change (inode_length sample_inode) with 1000; lia|].
  apply (Hin 999). change (inode_length sample_inode) with 1000. lia.
Defined.

(** X9.  A transfer that starts at or past the end of the file moves
    nothing: [inode_read_at] and [inode_write_at] return 0 for every size
    and leave the cache exactly as it was.  In particular a write never
    makes a file longer. *)
Theorem transfer_at_end_of_file (fuel : nat) (c : bcache) (ino : inode.t)
    (src : list byte) (size offset : Z) :
  0 <= offset -> inode_length ino <= offset -> in_int (inode_length ino - offset) ->
  inode_read_at fuel c ino size offset = Some (c, [], 0) /\
  inode_write_at fuel c ino src size offset = Some (c, 0).
Proof.
  intros Hoff Hend Hsub.
  assert ((0 <? size) && (0 <? chunk_size ino size offset) = false) as Hstop.
  { destruct (Z.ltb_spec 0 size); [|reflexivity]. simpl.
    rewrite chunk_size_min by assumption.
    pose proof (Z.mod_pos_bound offset DISK_SECTOR_SIZE eq_refl) as Hm.
    apply Z.ltb_ge. lia. }
  split.
  - unfold inode_read_at. rewrite inode_read_loop_step, Hstop. reflexivity.
  - unfold inode_write_at. destruct (negb _); [reflexivity|].
    rewrite inode_write_loop_step, Hstop. reflexivity.
Qed.

Lemma transfer_at_end_of_file_witness :
  0 <= 1000 /\ inode_length sample_inode <= 1000 /\
  inode_write_at 65 (cache_init sample_garbage sample_disk) sample_inode [x01; x02] 2 1000
  = Some (cache_init sample_garbage sample_disk, 0).
Proof.
  assert (inode_length sample_inode <= 1000) as H1
    by (change (inode_length sample_inode) with 1000; lia).
  assert (in_int (inode_length sample_inode - 1000)) as H2
    by (change (inode_length sample_inode) with 1000; unfold in_int, INT_MIN, INT_MAX; lia).
  split; [lia|]. split; [exact H1|].
  exact (proj2 (transfer_at_end_of_file 65 (cache_init sample_garbage sample_disk)
                  sample_inode [x01; x02] 2 1000 ltac:(lia) H1 H2)).
Defined.

(** ** From [inode_create] to the first read *)

Lemma file_in_run (ino : inode.t) :
  0 <= inode_length ino <= INT_MAX ->
  0 <= inode_disk.start (inode.data ino) ->
  inode_disk.start (inode.data ino) + bytes_to_sectors (inode_length ino) <= NO_SECTOR ->
  forall pos, 0 <= pos < inode_length ino ->
    real_sector (byte_to_sector ino pos) /\
    byte_to_sector ino pos ∈
      data_sectors (inode_disk.start (inode.data ino)) (inode_length ino).
Proof.
  intros Hlen Hstart Hrun pos Hpos.
  destruct (bytes_to_sectors_ceil _ Hlen) as [Hceil Hn]. cbv zeta in Hceil.
  assert (0 <= pos / DISK_SECTOR_SIZE < bytes_to_sectors (inode_length ino)) as Hq.
  { unfold DISK_SECTOR_SIZE in *.
    split; [apply Z.div_pos; lia | apply Z.div_lt_upper_bound; lia]. }
  rewrite byte_to_sector_inside by assumption. split.
  - unfold real_sector, NO_SECTOR, wrap_uint in *.
    change (-1 mod 4294967296) with 4294967295 in *.
    rewrite Z.mod_small by lia. lia.
  - unfold data_sectors. apply list_elem_of_fmap.
    exists (Z.to_nat (pos / DISK_SECTOR_SIZE)).
    split; [rewrite Z2Nat.id by lia; reflexivity|].
    apply elem_of_seq. lia.
Qed.

Lemma inode_create_views (fuel : nat) (c : bcache) (fm : Z -> option Z)
    (sector length start : Z) :
  0 <= length <= INT_MAX -> fm (bytes_to_sectors length) = Some start ->
  cache_inv c -> (65 <= fuel)%nat ->
  exists c',
    inode_create fuel c true fm sector length = Some (c', true) /\
    cache_inv c' /\
    (forall s, real_sector s -> s ∈ data_sectors start length -> view c' s = zeros) /\
    (real_sector sector -> sector ∉ data_sectors start length ->
       view c' sector = encode_inode_disk (new_inode_disk start length)) /\
    (forall s, real_sector s -> s <> sector -> s ∉ data_sectors start length ->
       view c' s = view c s).
Proof.
  intros Hlen Hfm Hinv Hfuel.
  rewrite (inode_create_run fuel c fm sector length start Hlen Hfm).
  destruct (run_ops_sound fuel (inode_create_ops sector start length) c Hinv
              (inode_create_ops_in_sector sector start length) Hfuel)
    as (c' & Hops & Hinv' & Hview).
  exists c'. rewrite Hops. split; [reflexivity|]. split; [exact Hinv'|].
  assert (forall s, Z.of_nat (Datatypes.length
              (ideal_op (descriptor_op sector start length) (view c) s))
            = DISK_SECTOR_SIZE) as Hsized.
  { apply ideal_op_sized; [|intros s; apply view_sized, Hinv].
    pose proof (inode_create_ops_in_sector sector start length) as H.
    apply Forall_cons in H as [H _]. exact H. }
  split; [|split].
  - intros s Hs Hin. rewrite Hview by assumption.
    unfold inode_create_ops. simpl.
    apply ideal_ops_zero_writes;
      [apply zero_ops_zero_writes | exact Hsized | rewrite zero_ops_sectors; exact Hin].
  - intros Hs Hout. rewrite Hview by assumption.
    unfold inode_create_ops. simpl.
    rewrite ideal_ops_other by (rewrite zero_ops_sectors; exact Hout).
    simpl. rewrite Z.eqb_refl.
    apply splice_full; [apply view_sized, Hinv|].
    rewrite encode_inode_disk_length. unfold new_inode_disk.
    cbn [inode_disk.unused]. rewrite length_replicate. reflexivity.
  - intros s Hs Hne Hout. rewrite Hview by assumption.
    unfold inode_create_ops. simpl.
    rewrite ideal_ops_other by (rewrite zero_ops_sectors; exact Hout).
    simpl. destruct (Z.eqb_spec s sector); [contradiction | reflexivity].
Qed.

Lemma inode_open_fresh_result (fuel : nat) (fs : filesys) (p S : Z) :
  (forall q, q ∈ open_inodes fs -> is_Some (inodes fs !! q)) ->
  (forall q iq, q ∈ open_inodes fs -> inodes fs !! q = Some iq -> inode.sector iq <> S) ->
  cache_inv (cache fs) -> (65 <= fuel)%nat ->
  exists c',
    inode_open fuel fs (Some p) S =
      Some (mkFs (p :: open_inodes fs)
                 (<[p := inode.mk S 1 false 0 (decode_inode_disk (view (cache fs) S))]>
                    (inodes fs))
                 c' (fs_log fs), Some p) /\
    cache_inv c' /\ forall s, real_sector s -> view c' s = view (cache fs) s.
Proof.
  intros Hlive Hnone Hinv Hfuel.
  pose proof (find_open_fresh (inodes fs) (open_inodes fs) S Hlive Hnone) as Hfind.
  assert (in_sector 0 DISK_SECTOR_SIZE) as Hrange
    by (unfold in_sector, DISK_SECTOR_SIZE; lia).
  destruct (_disk_read_sound fuel (cache fs) S 0 DISK_SECTOR_SIZE Hinv Hrange Hfuel)
    as (c' & Hread & Hinv' & Hview).
  exists c'. unfold inode_open. rewrite Hfind. simpl. rewrite Hread. simpl.
  split; [|split; assumption].
  rewrite drop_0, take_ge; [reflexivity|].
  pose proof (view_sized (cache fs) S Hinv). lia.
Qed.

(** X10.  What [inode_create] wrote, [inode_open] reads back: opening the
    descriptor sector of a newly created file gives an inode with open
    count 1 whose start sector is the one the allocator gave, whose length
    is the length asked for and whose magic is [INODE_MAGIC]; and
    [inode_create] changes the contents of no sector other than the
    descriptor sector and the data sectors. *)
Theorem inode_create_then_open (fuel : nat) (fs : filesys) (fm : Z -> option Z)
    (sector length start p : Z) :
  0 <= length <= INT_MAX -> fm (bytes_to_sectors length) = Some start ->
  0 <= start < 4294967296 ->
  real_sector sector -> sector ∉ data_sectors start length ->
  (forall q, q ∈ open_inodes fs -> is_Some (inodes fs !! q)) ->
  (forall q iq, q ∈ open_inodes fs -> inodes fs !! q = Some iq ->
     inode.sector iq <> sector) ->
  cache_inv (cache fs) -> (65 <= fuel)%nat ->
  exists c1 fs2,
    inode_create fuel (cache fs) true fm sector length = Some (c1, true) /\
    inode_open fuel (mkFs (open_inodes fs) (inodes fs) c1 (fs_log fs)) (Some p) sector
      = Some (fs2, Some p) /\
    inodes fs2 !! p =
      Some (inode.mk sector 1 false 0
              (inode_disk.mk start length INODE_MAGIC (replicate 500 x00))) /\
    open_inodes fs2 = p :: open_inodes fs /\
    (forall s, real_sector s -> s <> sector -> s ∉ data_sectors start length ->
       view c1 s = view (cache fs) s).
Proof.
  intros Hlen Hfm Hstart Hsec Hout Hlive Hnone Hinv Hfuel.
  destruct (inode_create_views fuel (cache fs) fm sector length start Hlen Hfm Hinv Hfuel)
    as (c1 & Hcreate & Hinv1 & _ & Hdesc & Hother).
  destruct (inode_open_fresh_result fuel (mkFs (open_inodes fs) (inodes fs) c1 (fs_log fs))
              p sector Hlive Hnone Hinv1 Hfuel) as (c2 & Hopen & _ & _).
  simpl in Hopen. rewrite (Hdesc Hsec Hout) in Hopen.
  rewrite decode_encode_inode_disk in Hopen; simpl;
    [|exact Hstart|unfold in_int, INT_MIN, INT_MAX in *; lia|unfold INODE_MAGIC; lia].
  eexists c1, _. split; [exact Hcreate|]. split; [exact Hopen|]. simpl.
  split; [apply lookup_insert_eq|]. split; [reflexivity | exact Hother].
Qed.

Lemma sample_sector_outside : 10 ∉ data_sectors 20 1000.
Proof.
  unfold data_sectors. intros Hin. apply list_elem_of_fmap in Hin as (i & Hi & Hin).
  apply elem_of_seq in Hin. change (Z.to_nat (bytes_to_sectors 1000)) with 2%nat in Hin.
  unfold wrap_uint in Hi. rewrite Z.mod_small in Hi by lia. lia.
Qed.

Lemma inode_create_then_open_witness :
  exists c1 fs2,
    inode_create 65 (cache (inode_init sample_garbage sample_disk)) true
      (fun _ => Some 20) 10 1000 = Some (c1, true) /\
    inode_open 65 (mkFs [] ∅ c1 []) (Some 4096) 10 = Some (fs2, Some 4096) /\
    inodes fs2 !! 4096 =
      Some (inode.mk 10 1 false 0 (inode_disk.mk 20 1000 INODE_MAGIC (replicate 500 x00))).
Proof.
  assert (0 <= 1000 <= INT_MAX) as H1 by (unfold INT_MAX; lia).
  assert (real_sector 10) as H2 by (vm_compute; discriminate).
  destruct (inode_create_then_open 65 (inode_init sample_garbage sample_disk)
              (fun _ => Some 20) 10 1000 20 4096 H1 eq_refl ltac:(lia) H2
              sample_sector_outside)
    as (c1 & fs2 & Hc & Ho & Hi & _).
  - intros q Hq. apply elem_of_nil in Hq. contradiction.
  - intros q iq Hq. apply elem_of_nil in Hq. contradiction.
  - exact (cache_init_inv _ _ sample_start_sized).
  - lia.
  - exists c1, fs2. split; [exact Hc|]. split; [exact Ho | exact Hi].
Defined.

(** X11.  A new file reads as zeros: after [inode_create] and [inode_open]
    of its descriptor sector, [inode_read_at] returns zero bytes only, as
    many as the request and the file length allow. *)
Theorem new_file_reads_zeros (fuel : nat) (fs : filesys) (fm : Z -> option Z)
    (sector length start p size offset : Z) :
  0 <= length <= INT_MAX -> fm (bytes_to_sectors length) = Some start ->
  0 <= start -> start + bytes_to_sectors length <= NO_SECTOR ->
  real_sector sector -> sector ∉ data_sectors start length ->
  (forall q, q ∈ open_inodes fs -> is_Some (inodes fs !! q)) ->
  (forall q iq, q ∈ open_inodes fs -> inodes fs !! q = Some iq ->
     inode.sector iq <> sector) ->
  cache_inv (cache fs) -> (65 <= fuel)%nat ->
  0 <= size <= INT_MAX -> 0 <= offset <= INT_MAX ->
  let n := Z.min size (Z.max 0 (length - offset)) in
  exists c1 fs2 ino c3,
    inode_create fuel (cache fs) true fm sector length = Some (c1, true) /\
    inode_open fuel (mkFs (open_inodes fs) (inodes fs) c1 (fs_log fs)) (Some p) sector
      = Some (fs2, Some p) /\
    inodes fs2 !! p = Some ino /\ inode_length ino = length /\
    inode_read_at fuel (cache fs2) ino size offset
      = Some (c3, replicate (Z.to_nat n) x00, n).
Proof.
  intros Hlen Hfm Hstart Hrun Hsec Hout Hlive Hnone Hinv Hfuel Hsize Hoff. cbv zeta.
  destruct (bytes_to_sectors_ceil _ Hlen) as [_ Hn].
  assert (0 <= start < 4294967296) as Hstart32.
  { unfold NO_SECTOR, wrap_uint in Hrun.
    change (-1 mod 4294967296) with 4294967295 in Hrun. lia. }
  destruct (inode_create_views fuel (cache fs) fm sector length start Hlen Hfm Hinv Hfuel)
    as (c1 & Hcreate & Hinv1 & Hzero & Hdesc & _).
  destruct (inode_open_fresh_result fuel (mkFs (open_inodes fs) (inodes fs) c1 (fs_log fs))
              p sector Hlive Hnone Hinv1 Hfuel) as (c2 & Hopen & Hinv2 & Hview2).
  simpl in Hopen, Hview2. rewrite (Hdesc Hsec Hout) in Hopen.
  rewrite decode_encode_inode_disk in Hopen; simpl;
    [|exact Hstart32|unfold in_int, INT_MIN, INT_MAX in *; lia|unfold INODE_MAGIC; lia].
  set (ino := inode.mk sector 1 false 0 (new_inode_disk start length)) in *.
  assert (transfer_args ino size offset) as Hargs.
  { unfold transfer_args, in_int, INT_MIN, INT_MAX in *.
    change (inode_length ino) with length. lia. }
  assert (forall pos, 0 <= pos < inode_length ino ->
            real_sector (byte_to_sector ino pos) /\
            byte_to_sector ino pos ∈ data_sectors start length) as Hfile.
  { apply (file_in_run ino); assumption. }
  assert (file_sectors_real ino) as Hreal by (intros pos Hpos; apply Hfile, Hpos).
  destruct (inode_read_loop_content fuel ino (Z.to_nat size) c2 size offset 0 []
              (le_n _) Hinv2 Hfuel Hargs Hreal (Z.le_refl 0))
    as (c3 & out & Hr & Hlen3 & _ & _ & Hbytes); [lia|].
  cbv zeta in Hr, Hlen3, Hbytes. change (inode_length ino) with length in *.
  rewrite Z.add_0_l in Hr. simpl in Hr.
  set (n := Z.min size (Z.max 0 (length - offset))) in *.
  eexists c1, _, ino, c3. split; [exact Hcreate|]. split; [exact Hopen|]. simpl.
  split; [apply lookup_insert_eq|]. split; [reflexivity|].
  unfold inode_read_at. rewrite Hr. f_equal. f_equal. f_equal.
  apply list_eq. intros k.
  destruct (Z.lt_ge_cases (Z.of_nat k) n) as [Hk|Hk].
  - rewrite (Hbytes k Hk). unfold file_byte.
    destruct (Hfile (offset + Z.of_nat k)) as [Hr1 Hr2]; [lia|].
    rewrite Hview2, Hzero by assumption.
    pose proof (Z.mod_pos_bound (offset + Z.of_nat k) DISK_SECTOR_SIZE eq_refl) as Hm.
    unfold zeros. rewrite !lookup_replicate_2 by lia. reflexivity.
  - rewrite lookup_ge_None_2 by lia. symmetry.
    apply lookup_ge_None_2. rewrite length_replicate. lia.
Qed.

Lemma new_file_reads_zeros_witness :
  exists c1 fs2 ino c3,
    inode_create 65 (cache (inode_init sample_garbage sample_disk)) true
      (fun _ => Some 20) 10 1000 = Some (c1, true) /\
    inode_open 65 (mkFs [] ∅ c1 []) (Some 4096) 10 = Some (fs2, Some 4096) /\
    inodes fs2 !! 4096 = Some ino /\ inode_length ino = 1000 /\
    inode_read_at 65 (cache fs2) ino 600 700
      = Some (c3, replicate (Z.to_nat 300) x00, 300).
Proof.
  assert (0 <= 1000 <= INT_MAX) as H1 by (unfold INT_MAX; lia).
  assert (real_sector 10) as H2 by (vm_compute; discriminate).
  assert (20 + bytes_to_sectors 1000 <= NO_SECTOR) as H3 by (vm_compute; discriminate).
  assert (0 <= 600 <= INT_MAX) as H4 by (unfold INT_MAX; lia).
  assert (0 <= 700 <= INT_MAX) as H5 by (unfold INT_MAX; lia).
  refine (new_file_reads_zeros 65 (inode_init sample_garbage sample_disk)
            (fun _ => Some 20) 10 1000 20 4096 600 700 H1 eq_refl ltac:(lia) H3 H2
            sample_sector_outside _ _ (cache_init_inv _ _ sample_start_sized) (le_n 65)
            H4 H5).
  - intros q Hq. apply elem_of_nil in Hq. contradiction.
  - intros q iq Hq. apply elem_of_nil in Hq. contradiction.
Defined.

(** ** The open-inode list in every state *)

Lemma registry_inv_update (fs : filesys) (p : Z) (ino ino' : inode.t) (c : bcache)
    (log : list fs_event) :
  registry_inv fs -> inodes fs !! p = Some ino -> inode.sector ino' = inode.sector ino ->
  registry_inv (mkFs (open_inodes fs) (<[p := ino']> (inodes fs)) c log).
Proof.
  intros [Hok Hlisted] Hp Hs. split.
  - apply (registry_ok_update fs p ino); assumption.
  - simpl. intros q Hq. apply Hlisted.
    destruct (decide (p = q)) as [<-|Hne]; [rewrite Hp; eexists; reflexivity|].
    rewrite lookup_insert_ne in Hq by assumption. exact Hq.
Qed.

Lemma run_fs_call_registry_inv (fuel : nat) (fs fs' : filesys) (call : fs_call) :
  registry_inv fs -> malloc_fresh fs call -> run_fs_call fuel fs call = Some fs' ->
  registry_inv fs'.
Proof.
  intros Hinv Hfresh Hrun. pose proof Hinv as [Hok Hlisted].
  destruct call as [m S|[p|]|[p|]|p|p|p]; simpl in Hrun.
  - destruct (inode_open fuel fs m S) as [[fs1 h]|] eqn:Hopen; simpl in Hrun;
      [|discriminate].
    injection Hrun as ->. split.
    + apply (inode_open_registry_ok fuel fs fs' m S h); [exact Hok| |exact Hopen].
      intros p ->. exact Hfresh.
    + unfold inode_open in Hopen.
      destruct (find_open (inodes fs) (open_inodes fs) S) as [[p|]|] eqn:Hfind;
        simpl in Hopen; [| |discriminate].
      * destruct (inodes fs !! p) as [ino|] eqn:Hp; simpl in Hopen; [|discriminate].
        injection Hopen as <- _.
        apply (registry_inv_update fs p ino); [exact Hinv | exact Hp | reflexivity].
      * destruct m as [p|]; [|injection Hopen as <- _; exact Hlisted].
        destruct (_disk_read fuel (cache fs) S 0 DISK_SECTOR_SIZE) as [[c' bytes]|];
          simpl in Hopen; [|discriminate].
        injection Hopen as <- _. simpl. intros q Hq.
        destruct (decide (p = q)) as [<-|Hne]; [left|].
        rewrite lookup_insert_ne in Hq by assumption. right. apply Hlisted, Hq.
  - destruct (inodes fs !! p) as [ino|] eqn:Hp; simpl in Hrun; [|discriminate].
    injection Hrun as <-.
    apply (registry_inv_update fs p ino); [exact Hinv | exact Hp | reflexivity].
  - injection Hrun as <-. exact Hinv.
  - split; [apply (inode_close_registry_ok fs fs' (Some p)); assumption|].
    simpl in Hrun.
    destruct (inodes fs !! p) as [ino|] eqn:Hp; simpl in Hrun; [|discriminate].
    destruct (wrap_int (inode.open_cnt ino - 1) =? 0); injection Hrun as <-; simpl.
    + intros q Hq.
      assert (q <> p) as Hne by (intros ->; rewrite lookup_delete_eq in Hq;
                                   destruct Hq; discriminate).
      rewrite lookup_delete_ne in Hq by congruence.
      apply (list_remove_elem_other p q _ Hne), Hlisted, Hq.
    + apply (registry_inv_update fs p ino (set_open_cnt ino _) (cache fs) (fs_log fs));
        [exact Hinv | exact Hp | reflexivity].
  - injection Hrun as <-. exact Hinv.
  - unfold inode_remove in Hrun.
    destruct (inodes fs !! p) as [ino|] eqn:Hp; simpl in Hrun; [|discriminate].
    injection Hrun as <-.
    apply (registry_inv_update fs p ino); [exact Hinv | exact Hp | reflexivity].
  - unfold inode_deny_write in Hrun.
    destruct (inodes fs !! p) as [ino|] eqn:Hp; simpl in Hrun; [|discriminate].
    destruct (wrap_int (inode.deny_write_cnt ino + 1) <=? inode.open_cnt ino);
      [|discriminate].
    injection Hrun as <-.
    apply (registry_inv_update fs p ino); [exact Hinv | exact Hp | reflexivity].
  - unfold inode_allow_write in Hrun.
    destruct (inodes fs !! p) as [ino|] eqn:Hp; simpl in Hrun; [|discriminate].
    destruct ((0 <? inode.deny_write_cnt ino)
              && (inode.deny_write_cnt ino <=? inode.open_cnt ino)); [|discriminate].
    injection Hrun as <-.
    apply (registry_inv_update fs p ino); [exact Hinv | exact Hp | reflexivity].
Qed.

(** X12.  In every state the file system reaches from [inode_init] by calls
    of [inode_open], [inode_reopen], [inode_close], [inode_remove],
    [inode_deny_write] and [inode_allow_write] that return, with [malloc]
    handing out unused memory: the open-inode list names no inode twice, every inode
    on it is live, no two of them have the same descriptor sector, and every
    live inode is on the list. *)
Theorem open_inodes_well_formed (fuel : nat) (garbage : nat -> list byte) (d : disk)
    (fs : filesys) :
  fs_reachable fuel garbage d fs ->
  NoDup (open_inodes fs) /\
  (forall p, p ∈ open_inodes fs <-> is_Some (inodes fs !! p)) /\
  (forall p q ip iq, inodes fs !! p = Some ip -> inodes fs !! q = Some iq ->
     inode.sector ip = inode.sector iq -> p = q).
Proof.
  intros Hreach.
  assert (registry_inv fs) as [(Hnd & Hlive & Huniq) Hlisted].
  { induction Hreach as [|fs call fs' _ IH Hfresh Hrun].
    - split; [apply registry_ok_init|].
      intros p [ino Hp]. simpl in Hp. rewrite lookup_empty in Hp. discriminate.
    - apply (run_fs_call_registry_inv fuel fs fs' call); assumption. }
  split; [exact Hnd|]. split.
  - intros p. split; [apply Hlive | apply Hlisted].
  - intros p q ip iq Hp Hq. apply Huniq; [apply Hlisted | apply Hlisted | |];
      try eexists; eassumption.
Qed.

Lemma open_inodes_well_formed_witness :
  exists fs, fs_reachable 65 sample_garbage sample_disk fs /\
    open_inodes fs = [4096] /\ NoDup (open_inodes fs) /\
    forall p, p ∈ open_inodes fs <-> is_Some (inodes fs !! p).
Proof.
  destruct (inode_open_fresh_result 65 (inode_init sample_garbage sample_disk) 4096 10)
    as (c' & Hopen & _).
  - intros q Hq. apply elem_of_nil in Hq. contradiction.
  - intros q iq Hq. apply elem_of_nil in Hq. contradiction.
  - exact (cache_init_inv _ _ sample_start_sized).
  - lia.
  - match type of Hopen with _ = Some (?f, _) => set (fs1 := f) in * end.
    assert (fs_reachable 65 sample_garbage sample_disk fs1) as Hreach.
    { apply (reach_call 65 sample_garbage sample_disk _ (CallOpen (Some 4096) 10) fs1
               (reach_init 65 sample_garbage sample_disk)).
      - reflexivity.
      - cbn [run_fs_call]. rewrite Hopen. reflexivity. }
    exists fs1. split; [exact Hreach|]. split; [reflexivity|].
    destruct (open_inodes_well_formed 65 sample_garbage sample_disk fs1 Hreach)
      as (Hnd & Hiff & _).
    split; [exact Hnd | exact Hiff].
Defined.

(** ** Removing, denying and allowing *)

Lemma set_open_cnt_same (ino : inode.t) : set_open_cnt ino (inode.open_cnt ino) = ino.
Proof. destruct ino. reflexivity. Qed.

Lemma set_deny_write_cnt_same (ino : inode.t) :
  set_deny_write_cnt ino (inode.deny_write_cnt ino) = ino.
Proof. destruct ino. reflexivity. Qed.

Lemma close_times_below (p : Z) (j : nat) (fs : filesys) (ino : inode.t) :
  inodes fs !! p = Some ino ->
  Z.of_nat j < inode.open_cnt ino <= INT_MAX ->
  close_times j fs p =
    Some (mkFs (open_inodes fs)
               (<[p := set_open_cnt ino (inode.open_cnt ino - Z.of_nat j)]> (inodes fs))
               (cache fs) (fs_log fs)).
Proof.
  revert fs ino. induction j as [|j IH]; intros fs ino Hp Hcnt.
  - simpl. rewrite Z.sub_0_r, set_open_cnt_same, insert_id by exact Hp.
    destruct fs. reflexivity.
  - change (close_times (S j) fs p)
      with (fs' ← inode_close fs (Some p); close_times j fs' p).
    simpl inode_close. rewrite Hp. simpl.
    rewrite wrap_int_id by (unfold in_int, INT_MIN, INT_MAX in *; lia).
    destruct (Z.eqb_spec (inode.open_cnt ino - 1) 0) as [Hz|_]; [lia|].
    cbn [mbind option_bind].
    rewrite (IH _ (set_open_cnt ino (inode.open_cnt ino - 1))); simpl.
    + rewrite insert_insert_eq. do 3 f_equal. unfold set_open_cnt. simpl. f_equal. lia.
    + apply lookup_insert_eq.
    + lia.
Qed.

(** X13.  [inode_remove] only marks the inode: with the inode open [k + 1]
    times, the next [k] calls of [inode_close] leave it on the list, still
    marked, and release nothing; the call after them gives the descriptor
    sector and the data sectors back to the free map, frees the memory, and
    takes the inode off the list. *)
Theorem removal_waits_for_last_close (fs : filesys) (p : Z) (ino : inode.t) (k : nat) :
  inodes fs !! p = Some ino ->
  inode.open_cnt ino = Z.of_nat (S k) -> Z.of_nat (S k) <= INT_MAX ->
  exists fs1,
    inode_remove fs p = Some fs1 /\
    (forall j, (j <= k)%nat ->
       close_times j fs1 p =
         Some (mkFs (open_inodes fs)
                    (<[p := set_open_cnt (set_removed ino true) (Z.of_nat (S k - j))]>
                       (inodes fs))
                    (cache fs) (fs_log fs))) /\
    close_times (S k) fs1 p =
      Some (mkFs (list_remove_elem p (open_inodes fs)) (delete p (inodes fs)) (cache fs)
                 (fs_log fs ++
                    [FreeMapRelease (inode.sector ino) 1;
                     FreeMapRelease (inode_disk.start (inode.data ino))
                                    (bytes_to_sectors (inode_length ino));
                     MemFree p])).
Proof.
  intros Hp Hcnt Hmax. unfold inode_remove. rewrite Hp. cbn [mbind option_bind].
  eexists. split; [reflexivity|].
  set (fs1 := mkFs (open_inodes fs) (<[p := set_removed ino true]> (inodes fs))
                   (cache fs) (fs_log fs)).
  assert (inodes fs1 !! p = Some (set_removed ino true)) as Hp1
    by apply lookup_insert_eq.
  assert (forall j, (j <= k)%nat ->
            close_times j fs1 p =
              Some (mkFs (open_inodes fs)
                         (<[p := set_open_cnt (set_removed ino true) (Z.of_nat (S k - j))]>
                            (inodes fs))
                         (cache fs) (fs_log fs))) as Hbelow.
  { intros j Hj.
    rewrite (close_times_below p j fs1 (set_removed ino true) Hp1)
      by (simpl; lia).
    simpl. rewrite insert_insert_eq. do 3 f_equal. f_equal. rewrite Hcnt. lia. }
  split; [exact Hbelow|].
  assert (forall a b, close_times (a + b) fs1 p
                      = (fs' ← close_times a fs1 p; close_times b fs' p)) as Hsplit.
  { intros a b. generalize fs1. induction a as [|a IH]; intros f; [reflexivity|].
    simpl. destruct (inodes f !! p) as [i|]; simpl; [|reflexivity].
    destruct (wrap_int (inode.open_cnt i - 1) =? 0); simpl; apply IH. }
  pose proof (Hsplit k 1%nat) as Hlast. rewrite (Hbelow k (le_n k)) in Hlast.
  rewrite Nat.add_1_r in Hlast. rewrite Hlast. simpl.
  rewrite lookup_insert_eq. simpl.
  replace (Z.of_nat (S k - k)) with 1 by lia. simpl.
  rewrite delete_insert_eq. reflexivity.
Qed.

Lemma removal_waits_for_last_close_witness :
  exists fs1,
    inode_remove sample_fs 4096 = Some fs1 /\
    close_times 1 fs1 4096 =
      Some (mkFs [] (delete 4096 (inodes sample_fs)) (cache sample_fs)
                 [FreeMapRelease 10 1; FreeMapRelease 20 2; MemFree 4096]).
Proof.
  destruct (removal_waits_for_last_close sample_fs 4096 sample_inode_removed 0
              eq_refl eq_refl) as (fs1 & Hrm & _ & Hlast).
  - unfold INT_MAX. lia.
  - exists fs1. split; [exact Hrm | exact Hlast].
Defined.

(** X14.  [inode_deny_write] and [inode_allow_write] on a live inode whose
    deny count is not negative:
    - while the deny count is below the open count, [inode_deny_write] adds
      one to it, [inode_write_at] then writes nothing, and
      [inode_allow_write] puts the file system back as it was;
    - with the deny count at the open count, [inode_deny_write] fails its
      assertion;
    - with the deny count at zero, [inode_allow_write] fails its
      assertion. *)
Theorem deny_then_allow_write (fs : filesys) (p : Z) (ino : inode.t) :
  inodes fs !! p = Some ino ->
  0 <= inode.deny_write_cnt ino < INT_MAX -> inode.open_cnt ino <= INT_MAX ->
  (inode.deny_write_cnt ino < inode.open_cnt ino ->
   exists fs1 ino1,
     inode_deny_write fs p = Some fs1 /\
     inodes fs1 !! p = Some ino1 /\
     ino1 = set_deny_write_cnt ino (inode.deny_write_cnt ino + 1) /\
     (forall fuel c src size offset,
        inode_write_at fuel c ino1 src size offset = Some (c, 0)) /\
     inode_allow_write fs1 p = Some fs) /\
  (inode.open_cnt ino <= inode.deny_write_cnt ino -> inode_deny_write fs p = None) /\
  (inode.deny_write_cnt ino = 0 -> inode_allow_write fs p = None).
Proof.
  intros Hp Hdeny Hopen.
  assert (wrap_int (inode.deny_write_cnt ino + 1) = inode.deny_write_cnt ino + 1) as Hw
    by (apply wrap_int_id; unfold in_int, INT_MIN, INT_MAX in *; lia).
  split; [|split].
  - intros Hlt. unfold inode_deny_write. rewrite Hp. simpl. rewrite Hw.
    destruct (Z.leb_spec (inode.deny_write_cnt ino + 1) (inode.open_cnt ino)); [|lia].
    eexists _, _. split; [reflexivity|]. simpl.
    split; [apply lookup_insert_eq|]. split; [reflexivity|]. split.
    + intros fuel c src size offset. unfold inode_write_at. simpl.
      destruct (Z.eqb_spec (inode.deny_write_cnt ino + 1) 0); [lia | reflexivity].
    + unfold inode_allow_write. simpl. rewrite lookup_insert_eq. simpl.
      destruct (Z.ltb_spec 0 (inode.deny_write_cnt ino + 1)); [|lia].
      destruct (Z.leb_spec (inode.deny_write_cnt ino + 1) (inode.open_cnt ino)); [|lia].
      simpl. rewrite insert_insert_eq.
      replace (inode.deny_write_cnt ino + 1 - 1) with (inode.deny_write_cnt ino) by lia.
      rewrite wrap_int_id by (unfold in_int, INT_MIN, INT_MAX in *; lia).
      change (set_deny_write_cnt (set_deny_write_cnt ino (inode.deny_write_cnt ino + 1))
                (inode.deny_write_cnt ino))
        with (set_deny_write_cnt ino (inode.deny_write_cnt ino)).
      rewrite set_deny_write_cnt_same, insert_id by exact Hp.
      destruct fs. reflexivity.
  - intros Hge. unfold inode_deny_write. rewrite Hp. simpl. rewrite Hw.
    destruct (Z.leb_spec (inode.deny_write_cnt ino + 1) (inode.open_cnt ino));
      [lia | reflexivity].
  - intros Hz. unfold inode_allow_write. rewrite Hp. simpl. rewrite Hz. reflexivity.
Qed.

Lemma deny_then_allow_write_witness :
  exists fs1,
    inode_deny_write sample_fs 4096 = Some fs1 /\
    inode_allow_write fs1 4096 = Some sample_fs /\
    inode_allow_write sample_fs 4096 = None.
Proof.
  destruct (deny_then_allow_write sample_fs 4096 sample_inode_removed eq_refl)
    as (Hdeny & _ & Hallow).
  - unfold INT_MAX. simpl. lia.
  - unfold INT_MAX. simpl. lia.
  - destruct Hdeny as (fs1 & ino1 & H1 & _ & _ & _ & H2); [simpl; lia|].
    exists fs1. split; [exact H1|]. split; [exact H2 | exact (Hallow eq_refl)].
Defined.

(** ** More about the frame table *)

Lemma remove_pte_snoc (pte : Z) (l : list Z) :
  pte ∉ l -> remove_pte pte (l ++ [pte]) = l.
Proof.
  induction l as [|p l IH]; intros Hout; simpl.
  - rewrite Z.eqb_refl. reflexivity.
  - apply not_elem_of_cons in Hout as [Hne Hout].
    destruct (Z.eqb_spec p pte); [congruence|]. rewrite IH by assumption. reflexivity.
Qed.

Lemma frame_table_push_Some (l l' : list frame_entry.t) (e : frame_entry.t) :
  frame_table_push l e = Some l' -> l' = l ++ [e].
Proof.
  unfold frame_table_push. destruct (last l) as [tail|]; [|congruence].
  destruct (frame_entry.freed tail); [discriminate | congruence].
Qed.



(** X15.  A page obtained with [frame_get_page] and given back with
    [frame_free_page] for the same page-table entry leaves the index as it
    was, provided the entry was not already among the page's references.
    For a page that had a frame, [frame_table] and what [palloc] saw are as
    after the first call alone.  For a page that had none, the entry made
    for the call is the last of [frame_table] and stays there with its
    memory freed, [palloc] has the page again, and the next
    [frame_get_page] that has to make a frame entry stores through the
    freed one: a use after free, to which C gives no meaning. *)
Theorem frame_get_then_free (st st1 : frames) (env : get_page_env) (kpage : Z) :
  frames_inv st ->
  frame_get_page st env = Some (st1, Some kpage) ->
  lookup_page env ∉ pte_list_of st kpage ->
  let st2 := frame_free_page st1 (lookup_page env) kpage in
  kpage_hash st2 = kpage_hash st /\
  (is_Some (kpage_hash st !! kpage) ->
     frame_table st2 = frame_table st /\
     palloc_log st2 = palloc_log st ++ [PallocGet kpage]) /\
  (kpage_hash st !! kpage = None ->
     frame_table st1 = frame_table st ++ [frame_entry.mk kpage false] /\
     frame_table st2 =
       free_entry kpage (frame_table st) ++ [frame_entry.mk kpage true] /\
     palloc_log st2 = palloc_log st ++ [PallocGet kpage; PallocFree kpage] /\
     forall env' k', palloc_get_page env' = Some k' -> install_page env' = true ->
       kpage_hash st !! k' = None -> frame_get_page st2 env' = None).
Proof.
  intros Hinv Hget Hout. cbv zeta. unfold frame_get_page in Hget.
  destruct (palloc_get_page env) as [k|]; [|discriminate].
  destruct (install_page env); simpl in Hget; [|discriminate].
  unfold pte_list_of in Hout.
  destruct (kpage_hash st !! k) as [l|] eqn:E.
  - injection Hget as <- <-. rewrite E in Hout. simpl in Hout.
    unfold frame_free_page. simpl. rewrite lookup_insert_eq.
    rewrite (remove_pte_snoc _ _ Hout).
    destruct l as [|q l]; [exfalso; exact (Hinv k [] E eq_refl)|]. simpl.
    rewrite insert_insert_eq, insert_id by exact E.
    split; [reflexivity|]. split.
    + intros _. split; reflexivity.
    + rewrite E. discriminate.
  - destruct (frame_table_push (frame_table st) (frame_entry.mk k false))
      as [table|] eqn:Hpush; simpl in Hget; [|discriminate].
    apply frame_table_push_Some in Hpush as ->. injection Hget as <- <-.
    unfold frame_free_page. simpl. rewrite lookup_insert_eq. simpl.
    rewrite Z.eqb_refl. simpl.
    rewrite delete_insert_eq, delete_id by exact E.
    assert (free_entry k (frame_table st ++ [frame_entry.mk k false])
            = free_entry k (frame_table st) ++ [frame_entry.mk k true]) as Htable.
    { unfold free_entry. rewrite fmap_app. simpl. rewrite Z.eqb_refl. reflexivity. }
    split; [reflexivity|]. split; [rewrite E; intros [? ?]; discriminate|].
    intros _. split; [reflexivity|]. split; [exact Htable|].
    split; [rewrite <- app_assoc; reflexivity|].
    intros env' k' Hpalloc Hinstall Hk'. unfold frame_get_page.
    rewrite Hpalloc, Hinstall. simpl. rewrite Hk', Htable.
    unfold frame_table_push. rewrite last_snoc. reflexivity.
Qed.

Lemma frame_get_then_free_witness :
  exists st1,
    frame_get_page frame_init (mkEnv (Some 8192) None true 11) = Some (st1, Some 8192) /\
    frame_table st1 = [frame_entry.mk 8192 false] /\
    kpage_hash (frame_free_page st1 11 8192) = ∅ /\
    frame_table (frame_free_page st1 11 8192) = [frame_entry.mk 8192 true] /\
    palloc_log (frame_free_page st1 11 8192) = [PallocGet 8192; PallocFree 8192] /\
    frame_get_page (frame_free_page st1 11 8192) (mkEnv (Some 12288) None true 12) = None.
Proof.
  eexists. split; [reflexivity|].
  destruct (frame_get_then_free frame_init _ (mkEnv (Some 8192) None true 11) 8192
              frame_init_inv eq_refl) as (H1 & _ & H2).
  - unfold pte_list_of. simpl. rewrite lookup_empty. apply not_elem_of_nil.
  - destruct (H2 (lookup_empty _)) as (H3 & H4 & H5 & H6).
    split; [exact H3|]. split; [exact H1|]. split; [exact H4|]. split; [exact H5|].
    exact (H6 (mkEnv (Some 12288) None true 12) 12288 eq_refl eq_refl (lookup_empty _)).
Defined.

Lemma run_frame_ops_snoc (st : frames) (ops : list frame_op) (op : frame_op) :
  run_frame_ops st (ops ++ [op]) = run_frame_op (run_frame_ops st ops) op.
Proof. unfold run_frame_ops. rewrite foldl_app. reflexivity. Qed.





Lemma count_snoc (P : palloc_event -> Prop) `{forall e, Decision (P e)}
    (log : list palloc_event) (e : palloc_event) :
  length (filter P (log ++ [e])) =
  (length (filter P log) + if decide (P e) then 1 else 0)%nat.
Proof.
  rewrite filter_app, length_app, filter_cons. destruct (decide (P e)); reflexivity.
Qed.

Lemma held_insert (st : frames) (k kpage : Z) (l : list Z) (ft : list frame_entry.t)
    (log : list palloc_event) :
  held (mkFrames ft (<[k := l]> (kpage_hash st)) log) kpage =
  if decide (k = kpage) then 1%nat else held st kpage.
Proof.
  unfold held. simpl. destruct (decide (k = kpage)) as [<-|Hne].
  - rewrite lookup_insert_eq. reflexivity.
  - rewrite lookup_insert_ne by assumption. reflexivity.
Qed.

Lemma held_delete (st : frames) (k kpage : Z) (ft : list frame_entry.t)
    (log : list palloc_event) :
  held (mkFrames ft (delete k (kpage_hash st)) log) kpage =
  if decide (k = kpage) then 0%nat else held st kpage.
Proof.
  unfold held. simpl. destruct (decide (k = kpage)) as [<-|Hne].
  - rewrite lookup_delete_eq. reflexivity.
  - rewrite lookup_delete_ne by assumption. reflexivity.
Qed.

Lemma palloc_balance_step (st : frames) (op : frame_op) (kpage : Z) :
  (frees kpage (palloc_log st) + held st kpage <= gets kpage (palloc_log st))%nat ->
  let st' := run_frame_op st op in
  (frees kpage (palloc_log st') + held st' kpage <= gets kpage (palloc_log st'))%nat.
Proof.
  intros Hbal. cbv zeta. destruct op as [env|pte page]; simpl.
  - unfold frame_get_page. destruct (palloc_get_page env) as [k|]; [|exact Hbal].
    destruct (install_page env); simpl.
    + destruct (kpage_hash st !! k) as [l|] eqn:E;
        [|destruct (frame_table_push _ _) as [table|]; [|exact Hbal]];
        simpl; rewrite held_insert;
        unfold frees, gets in *; simpl; rewrite !count_snoc;
        destruct (decide (k = kpage)) as [<-|Hne];
        repeat match goal with |- context [decide ?P] => destruct (decide P) end;
        try congruence; try lia.
      all: unfold held in Hbal; rewrite E in Hbal; lia.
    + unfold frees, gets, held in *. simpl. rewrite !count_snoc.
      repeat match goal with |- context [decide ?P] => destruct (decide P) end;
        try congruence; try lia.
  - unfold frame_free_page. destruct (kpage_hash st !! page) as [l|] eqn:E; [|exact Hbal].
    destruct (remove_pte pte l) as [|q l'].
    + rewrite held_delete. unfold frees, gets in *. simpl. rewrite !count_snoc.
      destruct (decide (page = kpage)) as [<-|Hne];
        repeat match goal with |- context [decide ?P] => destruct (decide P) end;
        try congruence; try lia.
      unfold held in Hbal. rewrite E in Hbal. lia.
    + rewrite held_insert. simpl.
      destruct (decide (page = kpage)) as [<-|Hne]; [|exact Hbal].
      unfold held in Hbal. rewrite E in Hbal. exact Hbal.
Qed.

(** X17.  What the frame table asks of [palloc] adds up: in every state
    reached from [frame_init], no page has been given back with
    [palloc_free_page] more often than it was obtained with
    [palloc_get_page], and a page that has a frame in the index has been
    obtained once more than it has been given back, at least. *)
Theorem palloc_never_freed_twice (ops : list frame_op) (kpage : Z) :
  let st := run_frame_ops frame_init ops in
  (frees kpage (palloc_log st) + held st kpage <= gets kpage (palloc_log st))%nat /\
  (is_Some (kpage_hash st !! kpage) ->
     (frees kpage (palloc_log st) < gets kpage (palloc_log st))%nat).
Proof.
  cbv zeta.
  assert (frees kpage (palloc_log (run_frame_ops frame_init ops))
          + held (run_frame_ops frame_init ops) kpage
          <= gets kpage (palloc_log (run_frame_ops frame_init ops)))%nat as Hbal.
  { induction ops as [|op ops IH] using rev_ind.
    - unfold held. simpl. rewrite lookup_empty. reflexivity.
    - rewrite run_frame_ops_snoc. apply palloc_balance_step, IH. }
  split; [exact Hbal|].
  intros [l Hl]. unfold held in Hbal. rewrite Hl in Hbal. lia.
Qed.

Lemma palloc_never_freed_twice_witness :
  (frees 8192 (palloc_log (run_frame_ops frame_init sample_frame_ops))
   < gets 8192 (palloc_log (run_frame_ops frame_init sample_frame_ops)))%nat.
Proof.
  apply (proj2 (palloc_never_freed_twice sample_frame_ops 8192)).
  eexists. reflexivity.
Defined.

(** ** The cache while it fills *)

Lemma filling_room (L : list Z) (d : disk) (k : nat) (c : bcache) (s : Z) :
  filling L d k c -> find_sector (BClist c) s = None -> s ∈ L ->
  (length L <= 64)%nat -> (k < 64)%nat.
Proof.
  intros (Hlen & Hk & _ & Hslots & Hdist & _) Hnone Hs HL.
  change (Z.to_nat BC_SLOTS) with 64%nat in *.
  destruct (decide (k < 64)%nat) as [|Hfull]; [assumption|]. exfalso.
  assert (k = 64%nat) as -> by lia.
  pose proof (proj1 (find_sector_None _ _) Hnone) as Hno.
  assert (NoDup (s :: (sector <$> BClist c))) as Hnd.
  { apply NoDup_cons. split.
    - intros Hin. apply list_elem_of_fmap in Hin as (b & -> & Hb).
      apply list_elem_of_lookup in Hb as [i Hi]. exact (Hno i b Hi eq_refl).
    - apply NoDup_alt. intros i j x Hi Hj. rewrite list_lookup_fmap in Hi, Hj.
      apply fmap_Some in Hi as (bi & Hbi & ->). apply fmap_Some in Hj as (bj & Hbj & Hx).
      apply (Hdist i j bi bj Hbi Hbj); [| |exact Hx].
      + apply lookup_lt_Some in Hbi. lia.
      + apply lookup_lt_Some in Hbj. lia. }
  assert (s :: (sector <$> BClist c) ⊆+ L) as Hsub.
  { apply NoDup_submseteq; [exact Hnd|]. intros x Hx.
    apply elem_of_cons in Hx as [->|Hx]; [exact Hs|].
    apply list_elem_of_fmap in Hx as (b & -> & Hb).
    apply list_elem_of_lookup in Hb as [i Hi].
    destruct (Hslots i b Hi) as [_ Hside].
    rewrite decide_True in Hside by (apply lookup_lt_Some in Hi; lia).
    apply Hside. }
  apply submseteq_length in Hsub. simpl in Hsub. rewrite length_fmap in Hsub. lia.
Qed.

Lemma filling_hit (L : list Z) (d : disk) (k : nat) (c : bcache) (i : nat) (bc x : BC) :
  filling L d k c -> BClist c !! i = Some bc ->
  sector x = sector bc -> alloc x = alloc bc ->
  Z.of_nat (length (buffer x)) = DISK_SECTOR_SIZE ->
  filling L d k (mkCache (<[i := x]> (BClist c)) (next_BC_to_evict c) (filesys_disk c)).
Proof.
  intros (Hlen & Hk & Hcur & Hslots & Hdist & Hdev & Hsz & Hlog) Hi Hs Ha Hx.
  assert (forall j b, <[i := x]> (BClist c) !! j = Some b ->
            exists b0, BClist c !! j = Some b0 /\ sector b = sector b0 /\
                       alloc b = alloc b0 /\
                       Z.of_nat (length (buffer b)) = DISK_SECTOR_SIZE) as Hold.
  { intros j b Hb. apply list_lookup_insert_Some in Hb as [(<- & <- & _)|[_ Hb]].
    - exists bc. auto.
    - exists b. split; [exact Hb|]. split; [reflexivity|]. split; [reflexivity|].
      apply (Hslots j b Hb). }
  split; [simpl; rewrite length_insert; exact Hlen|]. split; [exact Hk|].
  split; [exact Hcur|]. split; [|split; [|auto]].
  - simpl. intros j b Hb. destruct (Hold j b Hb) as (b0 & Hb0 & -> & -> & Hbuf).
    split; [exact Hbuf | apply (Hslots j b0 Hb0)].
  - simpl. intros j1 j2 b1 b2 H1 H2 Hj1 Hj2 Heq.
    destruct (Hold j1 b1 H1) as (a1 & Ha1 & Hs1 & _).
    destruct (Hold j2 b2 H2) as (a2 & Ha2 & Hs2 & _).
    apply (Hdist j1 j2 a1 a2); try assumption. congruence.
Qed.

Lemma filling_miss (L : list Z) (d : disk) (k : nat) (c : bcache) (x : BC)
    (log : list disk_event) :
  filling L d k c -> (k < 64)%nat ->
  (forall i b, BClist c !! i = Some b -> sector b <> sector x) ->
  alloc x = true -> sector x ∈ L -> real_sector (sector x) ->
  Z.of_nat (length (buffer x)) = DISK_SECTOR_SIZE ->
  (forall s buf, DiskWrite s buf ∈ log -> DiskWrite s buf ∈ disk_log (filesys_disk c)) ->
  filling L d (S k)
    (mkCache (<[k := x]> (BClist c)) (Z.rem (next_BC_to_evict c + 1) BC_SLOTS)
             (mkDisk (sectors (filesys_disk c)) log)).
Proof.
  intros (Hlen & Hk & Hcur & Hslots & Hdist & Hdev & Hsz & Hlog) Hroom Hnew Ha HL Hr
    Hx Hlog'.
  unfold filling. change (Z.to_nat BC_SLOTS) with 64%nat in *.
  split; [simpl; rewrite length_insert; exact Hlen|]. split; [lia|]. split; [|split].
  - simpl. rewrite Hcur. unfold BC_SLOTS. rewrite (Z.mod_small (Z.of_nat k)) by lia.
    rewrite Z.rem_mod_nonneg by lia. f_equal. lia.
  - simpl. intros j b Hb. apply list_lookup_insert_Some in Hb as [(<- & <- & _)|[Hne Hb]].
    + split; [exact Hx|]. rewrite decide_True by lia. auto.
    + destruct (Hslots j b Hb) as [Hbuf Hside]. split; [exact Hbuf|].
      destruct (decide (j < k)%nat); [rewrite decide_True by lia; exact Hside|].
      rewrite decide_False by lia. exact Hside.
  - split; [|split; [exact Hdev|split; [exact Hsz|]]].
    + simpl. intros j1 j2 b1 b2 H1 H2 Hj1 Hj2 Heq.
      apply list_lookup_insert_Some in H1 as [(<- & <- & _)|[Hn1 H1]];
        apply list_lookup_insert_Some in H2 as [(<- & <- & _)|[Hn2 H2]].
      * reflexivity.
      * exfalso. apply (Hnew j2 b2 H2). congruence.
      * exfalso. apply (Hnew j1 b1 H1). congruence.
      * apply (Hdist j1 j2 b1 b2); try assumption; lia.
    + simpl. intros s buf Hin. apply Hlog, Hlog', Hin.
Qed.

Lemma filling_step (L : list Z) (d : disk) (k : nat) (c : bcache) (op : cache_op)
    (fuel : nat) :
  filling L d k c -> op_in_sector op ->
  real_sector (op_sector op) -> op_sector op ∈ L ->
  (length L <= 64)%nat -> (1 <= fuel)%nat ->
  exists c' k', run_op fuel c op = Some c' /\ filling L d k' c'.
Proof.
  intros Hfill Hop Hreal HL HLlen Hfuel.
  pose proof Hfill as (Hlen & Hk & Hcur & Hslots & Hdist & Hdev & Hsz & Hlog).
  change (Z.to_nat BC_SLOTS) with 64%nat in *.
  destruct (find_sector (BClist c) (op_sector op)) as [[i bc]|] eqn:E.
  - pose proof (proj1 (find_sector_Some _ _ _ _) E) as (Hi & Hs & _).
    destruct (Hslots i bc Hi) as [Hbuf Hside].
    destruct (decide (i < k)%nat) as [Hik|_];
      [|exfalso; apply Hreal; rewrite <- Hs; apply Hside].
    destruct Hside as (Ha & _).
    destruct op as [s start end_|s src start end_]; simpl in *.
    + unfold _disk_read. rewrite E. simpl.
      rewrite (copy_out_Some _ _ _ Hop Hbuf). simpl.
      eexists _, k. split; [reflexivity|].
      apply (filling_hit L d k c i bc); auto.
    + destruct Hop as [Hrange Hsrc].
      unfold _disk_write. rewrite E. unfold write_slot. simpl.
      rewrite (copy_in_Some _ _ _ _ Hrange Hsrc Hbuf). simpl.
      eexists _, k. split; [reflexivity|].
      apply (filling_hit L d k c i bc); simpl; auto.
      rewrite splice_length; [exact Hbuf | unfold in_sector in Hrange; lia..].
  - pose proof (filling_room L d k c _ Hfill E HL HLlen) as Hroom.
    pose proof (proj1 (find_sector_None _ _) E) as Hno.
    destruct fuel as [|fuel]; [lia|].
    destruct (lookup_lt_is_Some_2 (BClist c) k) as [bc Hbc]; [lia|].
    destruct (Hslots k bc Hbc) as [Hbuf Hside].
    rewrite decide_False in Hside by lia. destruct Hside as [Ha Hmark].
    assert (next_BC_to_evict c = Z.of_nat k) as Hcur'
      by (rewrite Hcur; apply Z.mod_small; unfold BC_SLOTS; lia).
    assert (slot_at (BClist c) (next_BC_to_evict c) = Some bc) as Hslot.
    { apply slot_at_Some. rewrite Hcur', Nat2Z.id. split; [lia | exact Hbc]. }
    assert (Z.to_nat (next_BC_to_evict c) = k) as Hnat by lia.
    destruct op as [s start end_|s src start end_]; simpl in *.
    + unfold _disk_read. rewrite E. simpl. rewrite Hslot. simpl. rewrite Ha. simpl.
      rewrite Hnat, list_lookup_insert_eq by lia. simpl.
      rewrite (copy_out_Some _ _ _ Hop) by (rewrite Hdev; apply Hsz). simpl.
      eexists _, (S k). split; [reflexivity|].
      apply (filling_miss L d k c (mkBC (sectors (filesys_disk c) s) s true false false));
        simpl; auto.
      * rewrite Hdev. apply Hsz.
      * intros s' buf Hin. apply elem_of_app in Hin as [Hin|Hin]; [exact Hin|].
        apply list_elem_of_singleton in Hin. discriminate.
    + destruct Hop as [Hrange Hsrc].
      unfold _disk_write. rewrite E. simpl. rewrite Hslot. simpl. rewrite Ha. simpl.
      rewrite Hnat, list_lookup_insert_eq by lia. unfold write_slot. simpl.
      rewrite (copy_in_Some _ _ _ _ Hrange Hsrc) by (rewrite Hdev; apply Hsz). simpl.
      rewrite list_insert_insert_eq.
      eexists _, (S k). split; [reflexivity|].
      apply (filling_miss L d k c
               (mkBC (splice (sectors (filesys_disk c) s) start src end_) s true true true));
        simpl; auto.
      * rewrite splice_length; rewrite ?Hdev, ?Hsz; unfold in_sector in Hrange;
          lia.
      * intros s' buf Hin. apply elem_of_app in Hin as [Hin|Hin]; [exact Hin|].
        apply list_elem_of_singleton in Hin. discriminate.
Qed.

(** X18.  The cache writes back on eviction only: as long as the calls of
    [_disk_read] and [_disk_write] since [inode_init] touch no more than 64
    different sectors, every claim loop stops at its first slot, the device
    serves no write at all, and its contents stay what they were, however
    much was written through [_disk_write]. *)
Theorem no_device_write_while_filling (fuel : nat) (garbage : nat -> list byte)
    (d : disk) (ops : list cache_op) (L : list Z) :
  sized_start garbage d -> Forall op_in_sector ops ->
  (forall op, op ∈ ops -> real_sector (op_sector op) /\ op_sector op ∈ L) ->
  (length L <= 64)%nat -> (1 <= fuel)%nat ->
  exists c',
    run_ops fuel (cache_init garbage d) ops = Some c' /\
    sectors (filesys_disk c') = sectors d /\
    forall s buf, DiskWrite s buf ∈ disk_log (filesys_disk c') ->
      DiskWrite s buf ∈ disk_log d.
Proof.
  intros [Hg Hd] Hops HL HLlen Hfuel.
  assert (filling L d 0 (cache_init garbage d)) as Hfill.
  { split; [apply cache_init_shape|]. split; [lia|]. split; [reflexivity|].
    split; [|split; [intros; lia | auto]].
    intros i bc Hbc. apply init_slots_lookup in Hbc as ->. simpl.
    split; [apply Hg | split; reflexivity]. }
  assert (forall k c, filling L d k c ->
            exists c' k', run_ops fuel c ops = Some c' /\ filling L d k' c') as Hrun.
  { induction ops as [|op ops IH]; intros k c Hc; [exists c, k; auto|].
    apply Forall_cons in Hops as [Hop Hops].
    destruct (HL op) as [Hreal Hin]; [left|].
    destruct (filling_step L d k c op fuel Hc Hop Hreal Hin HLlen Hfuel)
      as (c1 & k1 & Hstep & Hc1).
    destruct (IH Hops) with (k := k1) (c := c1) as (c2 & k2 & Hrest & Hc2);
      [intros op' Hop'; apply HL; right; exact Hop' | exact Hc1 |].
    exists c2, k2. simpl. rewrite Hstep. simpl. auto. }
  destruct (Hrun 0%nat _ Hfill) as (c' & k' & Hc' & (_ & _ & _ & _ & _ & Hdev & _ & Hlog)).
  exists c'. auto.
Qed.

Lemma no_device_write_while_filling_witness :
  exists c',
    run_ops 1 (cache_init sample_garbage sample_disk)
      [CacheWrite 7 [x2a] 0 1; CacheRead 8 0 1; CacheWrite 7 [x2a; x2a] 3 2] = Some c' /\
    sectors (filesys_disk c') = sectors sample_disk /\
    forall s buf, DiskWrite s buf ∉ disk_log (filesys_disk c').
Proof.
  destruct (no_device_write_while_filling 1 sample_garbage sample_disk
              [CacheWrite 7 [x2a] 0 1; CacheRead 8 0 1; CacheWrite 7 [x2a; x2a] 3 2]
              [7; 8] sample_start_sized) as (c' & Hrun & Hdev & Hlog).
  - repeat constructor; unfold in_sector, DISK_SECTOR_SIZE; simpl; lia.
  - intros op Hop. repeat (apply elem_of_cons in Hop as [->|Hop]);
      [| | |apply elem_of_nil in Hop; contradiction];
      (split; [vm_compute; discriminate | simpl; set_solver]).
  - simpl. lia.
  - lia.
  - exists c'. split; [exact Hrun|]. split; [exact Hdev|].
    intros s buf Hin. apply Hlog in Hin. simpl in Hin. apply elem_of_nil in Hin.
    exact Hin.
Defined.

(** ** The keys of the frame index *)

(** X19.  The index [kpage_hash] is keyed by the page address alone:
    [page_less] is a strict order, two entries that it does not tell apart
    are entries for the same page, whatever frame entry they point to, and
    [page_hash] gives such entries the same hash value. *)
Theorem frame_index_keyed_by_page (hash_bytes : Z -> Z) (a b c : kpage_f_e.t) :
  page_less a a = false /\
  (page_less a b = true -> page_less b c = true -> page_less a c = true) /\
  (page_less a b = true -> page_less b a = false) /\
  (page_less a b = false -> page_less b a = false ->
     kpage_f_e.kpage a = kpage_f_e.kpage b /\
     page_hash hash_bytes a = page_hash hash_bytes b) /\
  (kpage_f_e.kpage a = kpage_f_e.kpage b ->
     page_less a b = false /\ page_less b a = false).
Proof.
  unfold page_less, page_hash.
  split; [apply Z.ltb_irrefl|]. split; [|split; [|split]].
  - intros H1 H2. apply Z.ltb_lt in H1, H2. apply Z.ltb_lt. lia.
  - intros H1. apply Z.ltb_lt in H1. apply Z.ltb_ge. lia.
  - intros H1 H2. apply Z.ltb_ge in H1, H2.
    assert (kpage_f_e.kpage a = kpage_f_e.kpage b) as Heq by lia.
    split; [exact Heq | rewrite Heq; reflexivity].
  - intros ->. split; apply Z.ltb_irrefl.
Qed.

Lemma frame_index_keyed_by_page_witness :
  page_hash (fun z => z mod 7) (kpage_f_e.mk 8192 1)
  = page_hash (fun z => z mod 7) (kpage_f_e.mk 8192 2).
Proof.
  exact (proj2 (proj1 (proj2 (proj2 (proj2
           (frame_index_keyed_by_page (fun z => z mod 7) (kpage_f_e.mk 8192 1)
              (kpage_f_e.mk 8192 2) (kpage_f_e.mk 8192 1))))) eq_refl eq_refl)).
Defined.
